(** * Twitter_Bot: the posting bot and the Guardian crawler

    A shallow embedding of [script/posting_1.py] (class [TwitterBot]) and of
    [script/Crawler_code_guardian.py] (class [GuardianCrawler]).

    - [Py] holds the Python data both scripts use: [str] as a sequence of
      code points, JSON values, insertion-ordered dictionaries.
    - [Posting] embeds the bot.  Every call into Playwright goes through an
      oracle ([perform]) that may return or raise; the bot's coroutines are
      computations in a state-and-exception monad whose state is the browser
      and the chronological trace of calls, sleeps and log records.
    - [Crawler] embeds the crawler.  HTTP, BeautifulSoup, the language model,
      [json.loads], [urljoin], [str.lower], the clock, the iteration order of
      a [set] and the completion order of a thread pool are parameters. *)

From Stdlib Require Import String Ascii DecimalString.
From Stdlib Require Import List NArith ZArith Lia Bool Arith Permutation Sorted.
Import ListNotations.

(** Python's [len] on sequences ([String.length] is for Rocq's own strings). *)
Abbreviation len := Datatypes.length.

Set Implicit Arguments.

(* ===================================================================== *)
(** * Python data *)
(* ===================================================================== *)

Module Py.

(** A Python [str] is a sequence of Unicode code points; [len], slicing and
    [+] work on code points, never on bytes. *)
Definition char := N.
Definition str := list char.

(** A literal of the source, written in ASCII. *)
Definition lit (s : string) : str := map N_of_ascii (list_ascii_of_string s).

Definition char_eqb : char -> char -> bool := N.eqb.

Fixpoint str_eqb (a b : str) : bool :=
  match a, b with
  | [], [] => true
  | x :: a', y :: b' => char_eqb x y && str_eqb a' b'
  | _, _ => false
  end.

(** A literal between double quotes, for selectors such as
    [[data-testid="tweetButton"]]. *)
Definition quoted (s : string) : str := [34%N] ++ lit s ++ [34%N].

(** [s.startswith(p)] *)
Fixpoint startswith (p s : str) : bool :=
  match p, s with
  | [], _ => true
  | x :: p', y :: s' => char_eqb x y && startswith p' s'
  | _ :: _, [] => false
  end.

(** [s.endswith(p)] *)
Definition endswith (p s : str) : bool := startswith (rev p) (rev s).

(** [p in s] for two strings: [p] occurs in [s] as a contiguous run. *)
Fixpoint contains (p s : str) : bool :=
  startswith p s ||
  match s with
  | [] => false
  | _ :: s' => contains p s'
  end.

(** [s[:n]] for [n >= 0]. *)
Definition slice_to (n : nat) (s : str) : str := firstn n s.

(** [l[:n]] for a list and any [int]: a negative [n] counts from the end. *)
Definition slice_list {A} (n : Z) (l : list A) : list A :=
  if (0 <=? n)%Z then firstn (Z.to_nat n) l
  else firstn (len l - Z.to_nat (- n)) l.

(** [str(n)] for a non-negative [int]. *)
Definition str_of_nat (n : nat) : str := lit (NilEmpty.string_of_uint (Nat.to_uint n)).

(** [sep.join(parts)] *)
Fixpoint join (sep : str) (parts : list str) : str :=
  match parts with
  | [] => []
  | [p] => p
  | p :: rest => p ++ sep ++ join sep rest
  end.

(** [not s] for a string. *)
Definition is_empty (s : str) : bool :=
  match s with
  | [] => true
  | _ :: _ => false
  end.

(** What evaluating an expression yields: a value, or an [Exception] with
    its message. *)
Inductive result (A : Type) : Type :=
| Ok (a : A)
| Raise (message : str).
Arguments Ok {A} a.
Arguments Raise {A} message.

(** [str.isspace] for one code point: the white space [str.strip] and
    [str.split] remove. *)
Definition isspace (c : char) : bool :=
  ((9 <=? c) && (c <=? 13) || (28 <=? c) && (c <=? 32) || (c =? 133) || (c =? 160)
   || (c =? 5760) || (8192 <=? c) && (c <=? 8202) || (c =? 8232) || (c =? 8233)
   || (c =? 8239) || (c =? 8287) || (c =? 12288))%N.

Fixpoint lstrip (s : str) : str :=
  match s with
  | c :: s' => if isspace c then lstrip s' else s
  | [] => []
  end.

(** [s.strip()] *)
Definition strip (s : str) : str := rev (lstrip (rev (lstrip s))).

(** [s.split()]: the maximal runs of code points that are not white space.
    [word] is the run being read, in reverse. *)
Fixpoint split_from (word : str) (s : str) : list str :=
  match s with
  | [] => match word with [] => [] | _ => [rev word] end
  | c :: s' =>
      if isspace c then
        match word with
        | [] => split_from [] s'
        | _ => rev word :: split_from [] s'
        end
      else split_from (c :: word) s'
  end.

Definition split (s : str) : list str := split_from [] s.

(** [x in l] for a list of strings. *)
Definition mem (x : str) (l : list str) : bool := existsb (str_eqb x) l.

(** The values [json.loads] builds: [None], [bool], [int], [str], [list] and
    [dict] with string keys.  A JSON number with a fraction or an exponent (a
    Python [float]) has no counterpart here. *)
#[warnings="-register-all"]
Inductive value : Type :=
| VNone
| VBool (b : bool)
| VInt (n : Z)
| VStr (s : str)
| VList (items : list value)
| VDict (fields : list (str * value)).

(** [bool(v)] *)
Definition truthy (v : value) : bool :=
  match v with
  | VNone => false
  | VBool b => b
  | VInt n => negb (n =? 0)%Z
  | VStr s => negb (is_empty s)
  | VList items => match items with [] => false | _ => true end
  | VDict fields => match fields with [] => false | _ => true end
  end.

(** [for x in v]: the elements of a list, the characters of a string, the
    keys of a dictionary; anything else is not iterable. *)
Definition iterate (v : value) : result (list value) :=
  match v with
  | VList items => Ok items
  | VStr s => Ok (map (fun c => VStr [c]) s)
  | VDict fields => Ok (map (fun kv => VStr (fst kv)) fields)
  | _ => Raise (lit "TypeError: object is not iterable")
  end.

(** The hashable values: what may be a key of a [dict] or a member of a
    [set]. *)
Inductive hkey : Type :=
| HNone
| HBool (b : bool)
| HInt (n : Z)
| HStr (s : str).

(** [hash(v)] succeeds on [None], booleans, integers and strings. *)
Definition to_hkey (v : value) : result hkey :=
  match v with
  | VNone => Ok HNone
  | VBool b => Ok (HBool b)
  | VInt n => Ok (HInt n)
  | VStr s => Ok (HStr s)
  | VList _ => Raise (lit "TypeError: unhashable type: 'list'")
  | VDict _ => Raise (lit "TypeError: unhashable type: 'dict'")
  end.

Definition of_hkey (k : hkey) : value :=
  match k with
  | HNone => VNone
  | HBool b => VBool b
  | HInt n => VInt n
  | HStr s => VStr s
  end.

Definition hkey_num (k : hkey) : option Z :=
  match k with
  | HBool b => Some (if b then 1 else 0)%Z
  | HInt n => Some n
  | _ => None
  end.

(** [a == b] on hashable values: [True == 1] and [False == 0]. *)
Definition hkey_eqb (a b : hkey) : bool :=
  match a, b with
  | HNone, HNone => true
  | HStr s, HStr t => str_eqb s t
  | _, _ =>
      match hkey_num a, hkey_num b with
      | Some x, Some y => (x =? y)%Z
      | _, _ => false
      end
  end.

(** A [dict] over any key type, in insertion order: [d.get(k)] and
    [d[k] = v], which keeps the place (and the key object) of a key that is
    already there and appends a new one. *)
Section Dict.
Variables (K V : Type) (eqb : K -> K -> bool).

Fixpoint lookup_by (key : K) (d : list (K * V)) : option V :=
  match d with
  | [] => None
  | (k, v) :: d' => if eqb key k then Some v else lookup_by key d'
  end.

Definition get_by (d : list (K * V)) (key : K) (default : V) : V :=
  match lookup_by key d with
  | Some v => v
  | None => default
  end.

Fixpoint set_by (d : list (K * V)) (key : K) (v : V) : list (K * V) :=
  match d with
  | [] => [(key, v)]
  | (k, v') :: d' => if eqb key k then (k, v) :: d' else (k, v') :: set_by d' key v
  end.

End Dict.

(** A [dict] with string keys. *)
Definition dict (V : Type) : Type := list (str * V).

Definition lookup {V} (key : str) (d : dict V) : option V := lookup_by str_eqb key d.

(** [d.get(key, default)] *)
Definition get {V} (d : dict V) (key : str) (default : V) : V := get_by str_eqb d key default.

Lemma str_eqb_eq (a b : str) : str_eqb a b = true <-> a = b.
Proof.
  revert b; induction a as [|x a IH]; intros [|y b]; simpl; split;
    try congruence; try reflexivity.
  - intros H. apply andb_true_iff in H as [Hx Hab].
    apply N.eqb_eq in Hx. apply IH in Hab. congruence.
  - intros H. injection H as -> ->. apply andb_true_iff. split.
    + apply N.eqb_refl.
    + now apply IH.
Qed.

Lemma str_eqb_refl (a : str) : str_eqb a a = true.
Proof. now apply str_eqb_eq. Qed.

Lemma startswith_app (p s : str) : startswith p (p ++ s) = true.
Proof.
  induction p as [|x p IH]; simpl; [reflexivity|].
  unfold char_eqb. now rewrite N.eqb_refl, IH.
Qed.

Lemma endswith_app (p s : str) : endswith p (s ++ p) = true.
Proof. unfold endswith. rewrite rev_app_distr. apply startswith_app. Qed.

End Py.

(* ===================================================================== *)
(** * posting_1.py *)
(* ===================================================================== *)

Module Posting.
Import Py.

(** ** The browser and the effects of the bot

    Every Playwright call the bot makes is an [action].  A locator is
    represented by its selector. *)
Inductive action : Type :=
| PageUrl
| Goto (url : str)
| Locator (selector : str)
| WaitFor (selector : str) (timeout : N)
| Click (selector : str) (force : bool)
| Clear (selector : str)
| Fill (selector : str) (text : str)
| ScrollIntoViewIfNeeded (selector : str)
| KeyboardPress (key : str).

(** What a call does: it returns (a value, for [PageUrl] the URL) or raises
    an [Exception] carrying a message, as Playwright's errors and timeouts
    are.  Interrupts and task cancellation, which are not [Exception]s, are
    no part of this model. *)
Inductive outcome : Type :=
| Returned (value : str)
| Raised (message : str).

Inductive level : Type := INFO | WARNING | ERROR.

(** The observable history of a run, oldest first. *)
Inductive event : Type :=
| Call (a : action) (o : outcome)
| Sleep (seconds : N)
| Log (lvl : level) (message : str).

Section Bot.

(** The world outside the script: the state of the browser (and of the page
    it shows) and what each call does to it. *)
Variable browser : Type.
Variable perform : action -> browser -> outcome * browser.

Record state : Type := { page : browser; trace : list event }.

Definition M (A : Type) : Type := state -> result A * state.

Definition ret {A} (a : A) : M A := fun st => (Ok a, st).

Definition bind {A B} (m : M A) (k : A -> M B) : M B :=
  fun st =>
    match m st with
    | (Ok a, st') => k a st'
    | (Raise e, st') => (Raise e, st')
    end.

(** [try: body  except Exception as e: handler] *)
Definition try_except {A} (body : M A) (handler : str -> M A) : M A :=
  fun st =>
    match body st with
    | (Ok a, st') => (Ok a, st')
    | (Raise e, st') => handler e st'
    end.

(** [try: body  finally: final] *)
Definition try_finally {A} (body : M A) (final : M unit) : M A :=
  fun st =>
    match body st with
    | (r, st') =>
        match final st' with
        | (Ok _, st'') => (r, st'')
        | (Raise e, st'') => (Raise e, st'')
        end
    end.

Definition emit (e : event) : M unit :=
  fun st => (Ok tt, {| page := page st; trace := trace st ++ [e] |}).

(** [logger.info(..)], [logger.warning(..)], [logger.error(..)] *)
Definition log (lvl : level) (message : str) : M unit := emit (Log lvl message).

(** [await asyncio.sleep(seconds)] *)
Definition sleep (seconds : N) : M unit := emit (Sleep seconds).

(** A call into Playwright. *)
Definition call (a : action) : M str :=
  fun st =>
    match perform a (page st) with
    | (Returned v, b) => (Ok v, {| page := b; trace := trace st ++ [Call a (Returned v)] |})
    | (Raised e, b) => (Raise e, {| page := b; trace := trace st ++ [Call a (Raised e)] |})
    end.

Notation "x <- m ;; k" := (bind m (fun x => k))
  (at level 100, m at next level, right associativity).
Notation "m ;; k" := (bind m (fun _ => k))
  (at level 100, right associativity).

(** [self.page.locator(selector)]: the locator is named by its selector. *)
Definition locator (selector : str) : M str :=
  call (Locator selector);; ret selector.

(** [try: await b.click()  except: await b.click(force=True)] *)
Definition click_or_force (post_button : str) : M unit :=
  try_except (call (Click post_button false);; ret tt)
             (fun _ => call (Click post_button true);; ret tt).

(** ** [_try_compose_method_1] *)

Definition post_button_selectors : list str :=
  [ lit "[data-testid=" ++ quoted "tweetButtonInline" ++ lit "]";
    lit "[data-testid=" ++ quoted "tweetButton" ++ lit "]";
    lit "button[data-testid=" ++ quoted "tweetButtonInline" ++ lit "]";
    lit "button[data-testid=" ++ quoted "tweetButton" ++ lit "]";
    lit "[role=" ++ quoted "button" ++ lit "][data-testid=" ++ quoted "tweetButtonInline" ++ lit "]";
    lit "[role=" ++ quoted "button" ++ lit "][data-testid=" ++ quoted "tweetButton" ++ lit "]" ].

(** The [for selector in post_button_selectors] loop: the first selector
    whose button is found and clicked ends the method with [True]; a
    selector that raises anywhere is skipped ([except: continue]). *)
Fixpoint click_post_button_1 (selectors : list str) : M bool :=
  match selectors with
  | [] => ret false
  | selector :: rest =>
      try_except
        (post_button <- locator selector;;
         call (WaitFor post_button 5000);;
         call (ScrollIntoViewIfNeeded post_button);;
         sleep 1;;
         click_or_force post_button;;
         sleep 3;;
         log INFO (lit "Method 1 successful!");;
         ret true)
        (fun _ => click_post_button_1 rest)
  end.

Definition tweetTextarea_0 : str :=
  lit "[data-testid=" ++ quoted "tweetTextarea_0" ++ lit "]".

Definition _try_compose_method_1 (tweet_text : str) : M bool :=
  try_except
    (log INFO (lit "Trying compose method 1...");;
     tweet_compose <- locator tweetTextarea_0;;
     call (WaitFor tweet_compose 10000);;
     call (Click tweet_compose false);;
     sleep 1;;
     call (Clear tweet_compose);;
     call (Fill tweet_compose tweet_text);;
     sleep 2;;
     click_post_button_1 post_button_selectors)
    (fun e => log ERROR (lit "Method 1 failed: " ++ e);; ret false).

(** ** [_try_compose_method_2] *)

(** The [for selector in compose_selectors] loop of methods 2 and 3.
    [tweet_compose] is assigned before [wait_for] runs, so after a failed
    wait it keeps the locator of that selector. *)
Fixpoint find_compose (selectors : list str) (tweet_compose : option str)
  : M (option str) :=
  match selectors with
  | [] => ret tweet_compose
  | selector :: rest =>
      fun st =>
        match locator selector st with
        | (Raise _, st1) => find_compose rest tweet_compose st1
        | (Ok l, st1) =>
            match call (WaitFor l 5000) st1 with
            | (Ok _, st2) => (Ok (Some l), st2)
            | (Raise _, st2) => find_compose rest (Some l) st2
            end
        end
  end.

Definition compose_selectors_2 : list str :=
  [ lit "[placeholder=" ++ quoted "What is happening?!" ++ lit "]";
    lit "[placeholder=" ++ quoted "What's happening?" ++ lit "]";
    lit "[aria-label=" ++ quoted "Tweet text" ++ lit "]";
    lit ".public-DraftEditor-content";
    lit "[contenteditable=" ++ quoted "true" ++ lit "]" ].

Definition post_selectors : list str :=
  [ lit "button[data-testid=" ++ quoted "tweetButtonInline" ++ lit "]";
    lit "button[data-testid=" ++ quoted "tweetButton" ++ lit "]";
    lit "xpath=//button[contains(text(), " ++ quoted "Post" ++ lit ")]";
    lit "xpath=//button[contains(text(), " ++ quoted "Tweet" ++ lit ")]";
    lit "xpath=//*[@role=" ++ quoted "button" ++ lit " and contains(text(), "
      ++ quoted "Post" ++ lit ")]";
    lit "xpath=//*[@role=" ++ quoted "button" ++ lit " and contains(text(), "
      ++ quoted "Tweet" ++ lit ")]" ].

Fixpoint click_post_button_2 (selectors : list str) : M bool :=
  match selectors with
  | [] => ret false
  | selector :: rest =>
      try_except
        (post_button <- locator selector;;
         call (WaitFor post_button 5000);;
         click_or_force post_button;;
         sleep 3;;
         log INFO (lit "Method 2 successful!");;
         ret true)
        (fun _ => click_post_button_2 rest)
  end.

Definition _try_compose_method_2 (tweet_text : str) : M bool :=
  try_except
    (log INFO (lit "Trying compose method 2...");;
     found <- find_compose compose_selectors_2 None;;
     match found with
     | None => ret false
     | Some tweet_compose =>
         call (Click tweet_compose false);;
         sleep 1;;
         call (Clear tweet_compose);;
         call (Fill tweet_compose tweet_text);;
         sleep 2;;
         click_post_button_2 post_selectors
     end)
    (fun e => log ERROR (lit "Method 2 failed: " ++ e);; ret false).

(** ** [_try_compose_method_3] *)

Definition compose_selectors_3 : list str :=
  [ tweetTextarea_0;
    lit "[placeholder*=" ++ quoted "What" ++ lit "]";
    lit "[contenteditable=" ++ quoted "true" ++ lit "]" ].

Definition _try_compose_method_3 (tweet_text : str) : M bool :=
  try_except
    (log INFO (lit "Trying compose method 3 (keyboard shortcuts)...");;
     found <- find_compose compose_selectors_3 None;;
     match found with
     | None => ret false
     | Some tweet_compose =>
         call (Click tweet_compose false);;
         sleep 1;;
         call (Clear tweet_compose);;
         call (Fill tweet_compose tweet_text);;
         sleep 2;;
         call (KeyboardPress (lit "Control+Enter"));;
         sleep 3;;
         log INFO (lit "Method 3 (keyboard shortcut) successful!");;
         ret true
     end)
    (fun e => log ERROR (lit "Method 3 failed: " ++ e);; ret false).

(** ** [post_tweet] *)

(** The opening of [post_tweet]: the log record and the navigation to the
    home timeline when the page is not already there. *)
Definition post_tweet_open (tweet_text : str) : M unit :=
  log INFO (lit "Posting tweet: " ++ slice_to 50 tweet_text ++ lit "...");;
  url <- call PageUrl;;
  if contains (lit "home") url then ret tt
  else (call (Goto (lit "https://twitter.com/home"));; sleep 3).

Definition post_tweet (tweet_text : str) : M bool :=
  try_except
    (post_tweet_open tweet_text;;
     success <- _try_compose_method_1 tweet_text;;
     if success : bool then ret true else
     success <- _try_compose_method_2 tweet_text;;
     if success : bool then ret true else
     success <- _try_compose_method_3 tweet_text;;
     if success : bool then ret true else
     (log ERROR (lit "All posting methods failed");;
      ret false))
    (fun e => log ERROR (lit "Failed to post tweet: " ++ e);; ret false).

(** ** [run_bot] *)

(** One element of the JSON document: an object whose fields are strings
    ([tweet], [tweet_with_hashtags], and whatever else the generator wrote). *)
Definition tweet_record : Type := dict str.

(** [tweet_data.get('tweet_with_hashtags', tweet_data.get('tweet', ''))] *)
Definition select_text (tweet_data : tweet_record) : str :=
  get tweet_data (lit "tweet_with_hashtags") (get tweet_data (lit "tweet") []).

(** The length guard:
    [if len(tweet_text) > 280: logger.warning(..); tweet_text = tweet_text[:277] + "..."] *)
Definition length_guard (i : nat) (tweet_text : str) : M str :=
  if 280 <? len tweet_text then
    log WARNING (lit "Tweet " ++ str_of_nat i ++ lit " is too long ("
                   ++ str_of_nat (len tweet_text) ++ lit " chars), truncating...");;
    ret (slice_to 277 tweet_text ++ lit "...")
  else ret tweet_text.

Section Loop.

Variable total : nat.          (* len(tweets_data) *)
Variable post_interval : N.

(** The rest of an iteration once the text is fixed: the call of
    [post_tweet], the two counters, and the pause before the next tweet. *)
Definition submit (i : nat) (counts : nat * nat) (tweet_text : str) : M (nat * nat) :=
  let '(successful_posts, failed_posts) := counts in
  log INFO (lit "Posting tweet " ++ str_of_nat i ++ lit "/" ++ str_of_nat total);;
  posted <- post_tweet tweet_text;;
  counts' <- (if posted : bool then
                log INFO ([9989%N] ++ lit " Tweet " ++ str_of_nat i ++ lit " posted successfully");;
                ret (S successful_posts, failed_posts)
              else
                log ERROR ([10060%N] ++ lit " Failed to post tweet " ++ str_of_nat i);;
                ret (successful_posts, S failed_posts));;
  (if i <? total then
     log INFO (lit "Waiting " ++ str_of_nat (N.to_nat post_interval)
                 ++ lit " seconds before next tweet...");;
     sleep post_interval
   else ret tt);;
  ret counts'.

(** The body of [for i, tweet_data in enumerate(tweets_data, 1)].  Nothing
    that follows an update of a counter can raise, so the handler sees the
    counters as they were when the iteration began. *)
Definition post_one (i : nat) (tweet_data : tweet_record) (counts : nat * nat)
  : M (nat * nat) :=
  try_except
    (let tweet_text := select_text tweet_data in
     if is_empty tweet_text then
       log WARNING (lit "Empty tweet at index " ++ str_of_nat i ++ lit ", skipping...");;
       ret counts
     else
       tweet_text <- length_guard i tweet_text;;
       submit i counts tweet_text)
    (fun e =>
       log ERROR (lit "Error posting tweet " ++ str_of_nat i ++ lit ": " ++ e);;
       ret (fst counts, S (snd counts))).

Fixpoint post_all (i : nat) (tweets_data : list tweet_record) (counts : nat * nat)
  : M (nat * nat) :=
  match tweets_data with
  | [] => ret counts
  | tweet_data :: rest =>
      counts' <- post_one i tweet_data counts;;
      post_all (S i) rest counts'
  end.

End Loop.

Section Lifecycle.

(** Browser start-up, login, shutdown and the reading of the JSON file are
    plain sequences of library calls; [run_bot] is stated over any of them. *)
Variable setup_browser login_to_twitter quit : M unit.
Variable load_tweets_from_json : str -> M (list tweet_record).

Definition run_bot (json_file_path : str) (post_interval : N) (max_tweets : option Z)
  : M unit :=
  try_finally
    (try_except
       (setup_browser;;
        tweets_data <- load_tweets_from_json json_file_path;;
        match tweets_data with
        | [] => log ERROR (lit "No tweets loaded. Exiting...")
        | _ :: _ =>
            let tweets_data :=
              match max_tweets with
              | None | Some 0%Z => tweets_data
              | Some n => slice_list n tweets_data
              end in
            login_to_twitter;;
            counts <- post_all (len tweets_data) post_interval 1 tweets_data (0, 0);;
            log INFO (lit "Bot completed! Successfully posted: " ++ str_of_nat (fst counts)
                        ++ lit ", Failed: " ++ str_of_nat (snd counts))
        end)
       (fun e => log ERROR (lit "Bot execution failed: " ++ e)))
    (log INFO (lit "Keeping browser open for 10 seconds...");;
     sleep 10;;
     quit).

End Lifecycle.

(** ** Reasoning about the bot *)

(** A computation that always hands a value back to its caller. *)
Definition never_raises {A} (m : M A) : Prop :=
  forall st, exists a st', m st = (Ok a, st').

(** The strategies of [post_tweet], in the order it tries them. *)
Definition methods (tweet_text : str) : list (M bool) :=
  [ _try_compose_method_1 tweet_text;
    _try_compose_method_2 tweet_text;
    _try_compose_method_3 tweet_text ].

(** [all_failed ms st st']: run one after the other from [st], the
    strategies [ms] each return [False], and leave the state [st']. *)
Inductive all_failed : list (M bool) -> state -> state -> Prop :=
| all_failed_nil st : all_failed [] st st
| all_failed_cons m ms st st1 st2 :
    m st = (Ok false, st1) ->
    all_failed ms st1 st2 ->
    all_failed (m :: ms) st st2.

(** Which strategy a log record announces: every method starts by logging
    [Trying compose method k...], and logs nothing else of that shape. *)
Definition method_entry (e : event) : list nat :=
  match e with
  | Log INFO message =>
      if str_eqb message (lit "Trying compose method 1...") then [1]
      else if str_eqb message (lit "Trying compose method 2...") then [2]
      else if str_eqb message (lit "Trying compose method 3 (keyboard shortcuts)...") then [3]
      else []
  | _ => []
  end.

(** The strategies invoked in a history, in order of invocation. *)
Definition attempts (history : list event) : list nat := flat_map method_entry history.

(** [marks ks m]: running [m] invokes exactly the strategies [ks]. *)
Definition marks (ks : list nat) {A} (m : M A) : Prop :=
  forall st, attempts (trace (snd (m st))) = attempts (trace st) ++ ks.

Lemma attempts_app (h1 h2 : list event) : attempts (h1 ++ h2) = attempts h1 ++ attempts h2.
Proof. apply flat_map_app. Qed.

Lemma never_raises_ret {A} (a : A) : never_raises (ret a).
Proof. intros st. now exists a, st. Qed.

Lemma never_raises_emit (e : event) : never_raises (emit e).
Proof. intros st. unfold emit. eauto. Qed.

Lemma never_raises_bind {A B} (m : M A) (k : A -> M B) :
  never_raises m -> (forall a, never_raises (k a)) -> never_raises (bind m k).
Proof.
  intros Hm Hk st. unfold bind.
  destruct (Hm st) as (a & st1 & ->). apply Hk.
Qed.

Lemma never_raises_try_except {A} (body : M A) (handler : str -> M A) :
  (forall e, never_raises (handler e)) -> never_raises (try_except body handler).
Proof.
  intros Hh st. unfold try_except.
  destruct (body st) as [[a|e] st1]; [eauto | apply Hh].
Qed.

Lemma marks_ret {A} (a : A) : marks [] (ret a).
Proof. intros st. simpl. now rewrite app_nil_r. Qed.

Lemma marks_emit (e : event) : marks (method_entry e) (emit e).
Proof.
  intros st. simpl. rewrite attempts_app. simpl. now rewrite app_nil_r.
Qed.

Lemma marks_call (a : action) : marks [] (call a).
Proof.
  intros st. unfold call.
  destruct (perform a (page st)) as [[v|e] b]; simpl;
    rewrite attempts_app; reflexivity.
Qed.

Lemma marks_bind {A B} (m : M A) (k : A -> M B) :
  marks [] m -> (forall a, marks [] (k a)) -> marks [] (bind m k).
Proof.
  intros Hm Hk st. unfold bind. specialize (Hm st).
  destruct (m st) as [[a|e] st1]; simpl in *.
  - rewrite Hk, Hm. now rewrite !app_nil_r.
  - exact Hm.
Qed.

Lemma marks_try_except {A} (body : M A) (handler : str -> M A) :
  marks [] body -> (forall e, marks [] (handler e)) -> marks [] (try_except body handler).
Proof.
  intros Hb Hh st. unfold try_except. specialize (Hb st).
  destruct (body st) as [[a|e] st1]; simpl in *.
  - exact Hb.
  - rewrite Hh, Hb. now rewrite !app_nil_r.
Qed.

(** A strategy: an entry record, a body that announces no strategy, and a
    handler that turns any exception into [False]. *)
Lemma marks_method (k : nat) (entry failed : str) (body : M bool) :
  method_entry (Log INFO entry) = [k] ->
  marks [] body ->
  marks [k] (try_except (log INFO entry;; body)
                        (fun e => log ERROR (failed ++ e);; ret false)).
Proof.
  intros Hentry Hbody st. unfold try_except, bind, log, emit, ret.
  specialize (Hbody {| page := page st; trace := trace st ++ [Log INFO entry] |}).
  destruct (body _) as [[b|e] st1]; simpl in *; rewrite ?attempts_app, Hbody;
    rewrite attempts_app; simpl; rewrite Hentry, ?app_nil_r; reflexivity.
Qed.

(** Closes [marks [] m] for straight-line code: the log records are
    compared with the three entry records by computation; the loops are
    taken from the hint database. *)
Create HintDb quiet.

Ltac quiet :=
  repeat first
    [ solve [auto with quiet nocore]
    | apply marks_bind; [| intros ?]
    | apply marks_try_except; [| intros ?]
    | apply marks_ret
    | apply marks_call
    | exact (marks_emit (Sleep _))
    | exact (marks_emit (Log ERROR _))
    | exact (marks_emit (Log WARNING _))
    | exact (marks_emit (Log INFO _)) ].

Lemma marks_click_post_button_1 (selectors : list str) :
  marks [] (click_post_button_1 selectors).
Proof.
  induction selectors as [|selector rest IH]; simpl.
  - apply marks_ret.
  - unfold locator, click_or_force, sleep, log. quiet.
Qed.

Lemma marks_click_post_button_2 (selectors : list str) :
  marks [] (click_post_button_2 selectors).
Proof.
  induction selectors as [|selector rest IH]; simpl.
  - apply marks_ret.
  - unfold locator, click_or_force, sleep, log. quiet.
Qed.

Lemma marks_find_compose (selectors : list str) (found : option str) :
  marks [] (find_compose selectors found).
Proof.
  revert found. induction selectors as [|selector rest IH]; intros found; simpl.
  - apply marks_ret.
  - intros st.
    assert (Hl : marks [] (locator selector)) by (unfold locator; quiet).
    specialize (Hl st). destruct (locator selector st) as [[l|e] st1]; simpl in *.
    + pose proof (marks_call (WaitFor l 5000) st1) as Hw.
      destruct (call (WaitFor l 5000) st1) as [[v|e] st2]; simpl in *.
      * now rewrite Hw, Hl, !app_nil_r.
      * now rewrite IH, Hw, Hl, !app_nil_r.
    + now rewrite IH, Hl, !app_nil_r.
Qed.

#[local] Hint Resolve marks_click_post_button_1 marks_click_post_button_2
  marks_find_compose : quiet.

Lemma marks_method_1 (t : str) : marks [1] (_try_compose_method_1 t).
Proof.
  apply marks_method; [reflexivity|].
  unfold locator, sleep. quiet.
Qed.

Lemma marks_method_2 (t : str) : marks [2] (_try_compose_method_2 t).
Proof.
  apply marks_method; [reflexivity|].
  apply marks_bind; [apply marks_find_compose|].
  intros [l|]; [|apply marks_ret].
  unfold sleep. quiet.
Qed.

Lemma marks_method_3 (t : str) : marks [3] (_try_compose_method_3 t).
Proof.
  apply marks_method; [reflexivity|].
  apply marks_bind; [apply marks_find_compose|].
  intros [l|]; [|apply marks_ret].
  unfold sleep, log. quiet.
Qed.

Lemma marks_post_tweet_open (t : str) : marks [] (post_tweet_open t).
Proof.
  unfold post_tweet_open, log, sleep.
  apply marks_bind; [exact (marks_emit (Log INFO _))|]. intros _.
  apply marks_bind; [apply marks_call|]. intros url.
  destruct (contains (lit "home") url); quiet.
Qed.

Lemma method_never_raises (body : M bool) (failed : str) :
  never_raises (try_except body (fun e => log ERROR (failed ++ e);; ret false)).
Proof.
  apply never_raises_try_except. intros e.
  apply never_raises_bind; [apply never_raises_emit | intros; apply never_raises_ret].
Qed.

Lemma methods_never_raise (t : str) (m : M bool) :
  In m (methods t) -> never_raises m.
Proof.
  intros [<-|[<-|[<-|[]]]]; apply method_never_raises.
Qed.

Lemma post_tweet_total (t : str) : never_raises (post_tweet t).
Proof. apply method_never_raises. Qed.

Lemma try_except_total {A} (body : M A) (handler : str -> M A) (st : state) :
  never_raises body -> try_except body handler st = body st.
Proof.
  intros H. unfold try_except. now destruct (H st) as (a & st' & ->).
Qed.

Lemma submit_total (total : nat) (post_interval : N) (i : nat) (counts : nat * nat) (t : str) :
  never_raises (submit total post_interval i counts t).
Proof.
  unfold submit. destruct counts as [ok ko].
  apply never_raises_bind; [apply never_raises_emit | intros _].
  apply never_raises_bind; [apply post_tweet_total | intros posted].
  apply never_raises_bind.
  - destruct posted; (apply never_raises_bind; [apply never_raises_emit | intros _]);
      apply never_raises_ret.
  - intros counts'. apply never_raises_bind; [| intros _; apply never_raises_ret].
    destruct (i <? total); [| apply never_raises_ret].
    apply never_raises_bind; [apply never_raises_emit | intros _; apply never_raises_emit].
Qed.

(** What the guard hands on, as a value. *)
Definition guarded (tweet_text : str) : str :=
  if 280 <? len tweet_text then firstn 277 tweet_text ++ lit "..." else tweet_text.

Lemma length_guard_value (i : nat) (t : str) (st : state) :
  exists st', length_guard i t st = (Ok (guarded t), st') /\ page st' = page st.
Proof.
  unfold length_guard, guarded, slice_to.
  destruct (280 <? len t); [| now exists st].
  unfold bind, log, emit, ret. simpl. eauto.
Qed.

Lemma guarded_long (t : str) :
  280 < len t ->
  guarded t = firstn 277 t ++ lit "..." /\ len (guarded t) = 280 /\
  endswith (lit "...") (guarded t) = true.
Proof.
  intros H. unfold guarded. apply Nat.ltb_lt in H as Hb. rewrite Hb.
  repeat split.
  - rewrite length_app, length_firstn, Nat.min_l by lia. reflexivity.
  - apply endswith_app.
Qed.

Lemma guarded_short (t : str) : len t <= 280 -> guarded t = t.
Proof.
  intros H. unfold guarded.
  destruct (Nat.ltb_spec 280 (len t)); [lia | reflexivity].
Qed.

(** An iteration whose text is not empty is the guard followed by [submit]. *)
Lemma post_one_submits (total : nat) (post_interval : N) (i : nat)
    (tweet_data : tweet_record) (counts : nat * nat) (st : state) :
  is_empty (select_text tweet_data) = false ->
  exists st1,
    length_guard i (select_text tweet_data) st = (Ok (guarded (select_text tweet_data)), st1) /\
    post_one total post_interval i tweet_data counts st
    = submit total post_interval i counts (guarded (select_text tweet_data)) st1.
Proof.
  intros Hne.
  destruct (length_guard_value i (select_text tweet_data) st) as (st1 & Hg & _).
  exists st1. split; [exact Hg|].
  unfold post_one. rewrite Hne.
  unfold try_except, bind. rewrite Hg.
  destruct (submit_total total post_interval i counts (guarded (select_text tweet_data)) st1)
    as (c & st2 & ->).
  reflexivity.
Qed.

Lemma methods_split (t : str) (before after : list (M bool)) (winner : M bool) :
  methods t = before ++ winner :: after ->
  (before = [] /\ winner = _try_compose_method_1 t) \/
  (before = [_try_compose_method_1 t] /\ winner = _try_compose_method_2 t) \/
  (before = [_try_compose_method_1 t; _try_compose_method_2 t]
   /\ winner = _try_compose_method_3 t).
Proof.
  unfold methods. intros H.
  destruct before as [|a [|b [|c before]]]; simpl in H.
  - injection H as <- _. now left.
  - injection H as <- <- _. right. now left.
  - injection H as <- <- <- _. right. now right.
  - injection H as _ _ _ H. now destruct before.
Qed.

(** C2, as the code has it.  The strategies are tried in the order 1, 2, 3.
    When the strategies before [winner] have each returned [False] and
    [winner] returns [True], [post_tweet] returns [True] at once: the state
    it leaves is the one [winner] left, and the strategies invoked are
    exactly 1 up to the winner, none after it.  The value returned is the
    bare [True]; the winner's index ([len before]) is no part of it. *)
Theorem post_tweet_first_success (t : str) (st st0 st1 st2 : state)
    (before after : list (M bool)) (winner : M bool) :
  post_tweet_open t st = (Ok tt, st0) ->
  methods t = before ++ winner :: after ->
  all_failed before st0 st1 ->
  winner st1 = (Ok true, st2) ->
  post_tweet t st = (Ok true, st2) /\
  attempts (trace st2) = attempts (trace st) ++ seq 1 (S (len before)).
Proof.
  intros Hopen Hsplit Hfail Hwin.
  pose proof (marks_post_tweet_open t st) as Mo. rewrite Hopen in Mo. simpl in Mo.
  rewrite app_nil_r in Mo.
  unfold post_tweet, try_except, bind. rewrite Hopen.
  destruct (methods_split _ _ _ Hsplit) as [[-> ->]|[[-> ->]|[-> ->]]].
  - inversion Hfail; subst.
    pose proof (marks_method_1 t st1) as M1. rewrite Hwin in *. simpl in *.
    split; [reflexivity | congruence].
  - inversion Hfail as [|m ms s s1 s2 H1 Hrest]; subst. inversion Hrest; subst.
    pose proof (marks_method_1 t st0) as M1. rewrite H1 in *.
    pose proof (marks_method_2 t st1) as M2. rewrite Hwin in *. simpl in *.
    split; [reflexivity|]. rewrite M2, M1, Mo, <- app_assoc. reflexivity.
  - inversion Hfail as [|m ms s s1 s2 H1 Hrest]; subst.
    inversion Hrest as [|m' ms' s' s1' s2' H2 Hrest']; subst. inversion Hrest'; subst.
    pose proof (marks_method_1 t st0) as M1. rewrite H1 in *.
    pose proof (marks_method_2 t s1) as M2. rewrite H2 in *.
    pose proof (marks_method_3 t st1) as M3. rewrite Hwin in *. simpl in *.
    split; [reflexivity|]. rewrite M3, M2, M1, Mo, <- !app_assoc. reflexivity.
Qed.

(** C3.  [post_tweet] always returns a boolean to its caller; so does each
    of its three strategies, whatever the browser raises inside them.  When
    all three have returned [False] the result is [False], and so it is when
    the opening (the navigation to the home timeline) raises. *)
Theorem post_tweet_never_raises (t : str) (st : state) :
  (exists b st', post_tweet t st = (Ok b, st')) /\
  (forall m, In m (methods t) -> never_raises m) /\
  (forall st0 st3,
      post_tweet_open t st = (Ok tt, st0) ->
      all_failed (methods t) st0 st3 ->
      post_tweet t st
      = (Ok false, {| page := page st3;
                      trace := trace st3 ++ [Log ERROR (lit "All posting methods failed")] |})) /\
  (forall e st0,
      post_tweet_open t st = (Raise e, st0) ->
      post_tweet t st
      = (Ok false, {| page := page st0;
                      trace := trace st0 ++ [Log ERROR (lit "Failed to post tweet: " ++ e)] |})).
Proof.
  split; [apply post_tweet_total|].
  split; [apply methods_never_raise|].
  split.
  - intros st0 st3 Hopen Hfail. unfold methods in Hfail.
    inversion Hfail as [|m ms s s1 s2 H1 Hrest]; subst.
    inversion Hrest as [|m' ms' s' s1' s2' H2 Hrest']; subst.
    inversion Hrest' as [|m'' ms'' s'' s1'' s2'' H3 Hnil]; subst.
    inversion Hnil; subst.
    unfold post_tweet, try_except, bind. rewrite Hopen, H1, H2, H3. reflexivity.
  - intros e st0 Hopen.
    unfold post_tweet, try_except, bind. rewrite Hopen. reflexivity.
Qed.

(** C1.  When the text selected for a tweet is longer than 280 code points
    the guard hands on its first 277 code points followed by [...]: a text
    of exactly 280 code points that ends in [...]; a text of at most 280
    code points is handed on as it is.  What the guard hands on is what the
    iteration submits through [post_tweet]. *)
Theorem length_guard_truncates (total : nat) (post_interval : N) (i : nat)
    (tweet_data : tweet_record) (counts : nat * nat) (st : state) :
  let t := select_text tweet_data in
  is_empty t = false ->
  exists t' st1,
    length_guard i t st = (Ok t', st1) /\
    post_one total post_interval i tweet_data counts st
    = submit total post_interval i counts t' st1 /\
    (280 < len t ->
       t' = firstn 277 t ++ lit "..." /\ len t' = 280 /\ endswith (lit "...") t' = true) /\
    (len t <= 280 -> t' = t /\ st1 = st).
Proof.
  intros t Hne.
  destruct (post_one_submits total post_interval i tweet_data counts st Hne) as (st1 & Hg & Hp).
  exists (guarded t), st1. fold t in Hg, Hp.
  repeat split; try assumption.
  - now apply guarded_long.
  - now apply guarded_long.
  - now apply guarded_long.
  - now apply guarded_short.
  - unfold length_guard in Hg.
    destruct (Nat.ltb_spec 280 (len t)); [lia|]. unfold ret in Hg. congruence.
Qed.

(** C10.  The text of a record is the value of [tweet_with_hashtags] when
    the record has that field, the value of [tweet] when it has only that
    one, and the empty string when it has neither.  A record whose text is
    empty is skipped: the iteration calls nothing, leaves both counters as
    they were and logs one warning.  Otherwise the text goes through the
    length guard (which leaves a text of at most 280 code points as it is)
    and is submitted once through [post_tweet]. *)
Theorem post_one_selects_text (total : nat) (post_interval : N) (i : nat)
    (tweet_data : tweet_record) (counts : nat * nat) (st : state) :
  let t := select_text tweet_data in
  (forall v, lookup (lit "tweet_with_hashtags") tweet_data = Some v -> t = v) /\
  (forall v, lookup (lit "tweet_with_hashtags") tweet_data = None ->
             lookup (lit "tweet") tweet_data = Some v -> t = v) /\
  (lookup (lit "tweet_with_hashtags") tweet_data = None ->
   lookup (lit "tweet") tweet_data = None -> t = []) /\
  (is_empty t = true ->
     post_one total post_interval i tweet_data counts st
     = (Ok counts,
        {| page := page st;
           trace := trace st ++ [Log WARNING (lit "Empty tweet at index " ++ str_of_nat i
                                                 ++ lit ", skipping...")] |})) /\
  (is_empty t = false ->
     exists st1,
       length_guard i t st = (Ok (guarded t), st1) /\
       (len t <= 280 -> guarded t = t) /\
       post_one total post_interval i tweet_data counts st
       = submit total post_interval i counts (guarded t) st1).
Proof.
  intros t. subst t.
  repeat split.
  - unfold select_text, get, get_by, lookup. intros v ->. reflexivity.
  - unfold select_text, get, get_by, lookup. intros v -> ->. reflexivity.
  - unfold select_text, get, get_by, lookup. intros -> ->. reflexivity.
  - intros He. unfold post_one. rewrite He. reflexivity.
  - intros Hne.
    destruct (post_one_submits total post_interval i tweet_data counts st Hne) as (st1 & Hg & Hp).
    exists st1. repeat split; try assumption. apply guarded_short.
Qed.

(** ** More about the bot: what the loop counts, what it types, how
    [run_bot] ends, and what the compose-area loop leaves behind *)

(** [submit] counts the tweet once: as posted or as failed. *)
Lemma submit_counts (total : nat) (post_interval : N) (i : nat) (s f : nat) (t : str)
    (st : state) :
  exists c st',
    submit total post_interval i (s, f) t st = (Ok c, st') /\
    (c = (S s, f) \/ c = (s, S f)).
Proof.
  unfold submit, bind, log, sleep, emit, ret.
  destruct (post_tweet_total t
              {| page := page st;
                 trace := trace st ++ [Log INFO (lit "Posting tweet " ++ str_of_nat i
                                                   ++ lit "/" ++ str_of_nat total)] |})
    as (posted & st1 & ->).
  destruct posted; simpl; destruct (i <? total); simpl; eauto.
Qed.

Lemma post_one_counts (total : nat) (post_interval : N) (i : nat)
    (tweet_data : tweet_record) (s f : nat) (st : state) :
  exists c st',
    post_one total post_interval i tweet_data (s, f) st = (Ok c, st') /\
    if is_empty (select_text tweet_data) then c = (s, f)
    else c = (S s, f) \/ c = (s, S f).
Proof.
  destruct (is_empty (select_text tweet_data)) eqn:E.
  - unfold post_one. rewrite E. unfold try_except, bind, log, emit, ret. simpl. eauto.
  - destruct (post_one_submits total post_interval i tweet_data (s, f) st E)
      as (st1 & _ & ->).
    apply submit_counts.
Qed.

(** The records of a list that have a text to post. *)
Definition postable (tweets_data : list tweet_record) : list tweet_record :=
  filter (fun tweet_data => negb (is_empty (select_text tweet_data))) tweets_data.

(** X1.  The loop of [run_bot] never raises, and when it ends every record
    with a non-empty text has been counted exactly once, as posted or as
    failed; the records without a text are in neither counter. *)
Theorem post_all_counts_every_postable_record (total : nat) (post_interval : N) (i : nat)
    (tweets_data : list tweet_record) (s f : nat) (st : state) :
  exists s' f' st',
    post_all total post_interval i tweets_data (s, f) st = (Ok (s', f'), st') /\
    s <= s' /\ f <= f' /\
    s' + f' = s + f + len (postable tweets_data).
Proof.
  revert i s f st. induction tweets_data as [|tweet_data rest IH]; intros i s f st; simpl.
  - exists s, f, st. unfold ret. repeat split; lia.
  - unfold bind.
    destruct (post_one_counts total post_interval i tweet_data s f st) as (c & st1 & -> & Hc).
    unfold postable in *. simpl.
    destruct (is_empty (select_text tweet_data)); simpl.
    + subst c. destruct (IH (S i) s f st1) as (s' & f' & st' & -> & Hs & Hf & Hsum).
      exists s', f', st'. repeat split; lia.
    + destruct Hc as [-> | ->].
      * destruct (IH (S i) (S s) f st1) as (s' & f' & st' & -> & Hs & Hf & Hsum).
        exists s', f', st'. repeat split; lia.
      * destruct (IH (S i) s (S f) st1) as (s' & f' & st' & -> & Hs & Hf & Hsum).
        exists s', f', st'. repeat split; lia.
Qed.

(** [emits P m]: running [m] only adds events that satisfy [P]. *)
Definition emits (P : event -> Prop) {A} (m : M A) : Prop :=
  forall st, exists d, trace (snd (m st)) = trace st ++ d /\ Forall P d.

(** An event is fine when the text it types, if it types one, is. *)
Definition fills_ok (Q : str -> Prop) (e : event) : Prop :=
  match e with
  | Call (Fill _ text) _ => Q text
  | _ => True
  end.

Lemma emits_ret (P : event -> Prop) {A} (a : A) : emits P (ret a).
Proof. intros st. exists []. simpl. now rewrite app_nil_r. Qed.

Lemma emits_emit (P : event -> Prop) (e : event) : P e -> emits P (emit e).
Proof. intros H st. exists [e]. simpl. split; [reflexivity | now constructor]. Qed.

Lemma emits_call (P : event -> Prop) (a : action) :
  (forall o, P (Call a o)) -> emits P (call a).
Proof.
  intros H st. unfold call.
  destruct (perform a (page st)) as [[v|e] b]; simpl; eexists; split;
    try reflexivity; constructor; auto.
Qed.

(** Running [m] after a history that already is an extension by good events. *)
Lemma emits_after (P : event -> Prop) {A} (m : M A) (st st1 : state) (d1 : list event) :
  emits P m ->
  trace st1 = trace st ++ d1 -> Forall P d1 ->
  exists d, trace (snd (m st1)) = trace st ++ d /\ Forall P d.
Proof.
  intros Hm Ht Hd. destruct (Hm st1) as (d2 & -> & Hd2).
  exists (d1 ++ d2). rewrite Ht, app_assoc. split; [reflexivity|].
  apply Forall_app. now split.
Qed.

Lemma emits_bind_value (P : event -> Prop) {A B} (R : A -> Prop) (m : M A) (k : A -> M B) :
  (forall st a st', m st = (Ok a, st') -> R a) ->
  emits P m -> (forall a, R a -> emits P (k a)) -> emits P (bind m k).
Proof.
  intros Hv Hm Hk st. unfold bind. destruct (Hm st) as (d1 & Ht & Hd).
  destruct (m st) as [[a|e] st1] eqn:E; simpl in *.
  - eapply emits_after; [apply Hk, (Hv _ _ _ E) | exact Ht | exact Hd].
  - eauto.
Qed.

Lemma emits_bind (P : event -> Prop) {A B} (m : M A) (k : A -> M B) :
  emits P m -> (forall a, emits P (k a)) -> emits P (bind m k).
Proof.
  intros Hm Hk. apply (emits_bind_value (fun _ => True)); auto.
Qed.

Lemma emits_try_except (P : event -> Prop) {A} (body : M A) (handler : str -> M A) :
  emits P body -> (forall e, emits P (handler e)) -> emits P (try_except body handler).
Proof.
  intros Hb Hh st. unfold try_except. destruct (Hb st) as (d1 & Ht & Hd).
  destruct (body st) as [[a|e] st1] eqn:E; simpl in *.
  - eauto.
  - eapply emits_after; [apply Hh | exact Ht | exact Hd].
Qed.

Lemma emits_weaken (P Q : event -> Prop) {A} (m : M A) :
  (forall e, P e -> Q e) -> emits P m -> emits Q m.
Proof.
  intros H Hm st. destruct (Hm st) as (d & Ht & Hd). exists d. split; [exact Ht|].
  eapply Forall_impl; eauto.
Qed.

Create HintDb typing.

(** Closes [emits (fills_ok Q) m] for straight-line code whose only typed
    text is one that [Q] holds of by reflexivity or by assumption. *)
Ltac typing :=
  repeat first
    [ solve [auto with typing nocore]
    | apply emits_bind; [| intros ?]
    | apply emits_try_except; [| intros ?]
    | apply emits_ret
    | apply emits_emit; exact I
    | apply emits_call; intros ?; first [exact I | reflexivity | assumption] ].

Section Typing.

Variable t : str.

Lemma typing_click_post_button_1 (selectors : list str) :
  emits (fills_ok (eq t)) (click_post_button_1 selectors).
Proof.
  induction selectors as [|selector rest IH]; simpl.
  - apply emits_ret.
  - unfold locator, click_or_force, sleep, log. typing.
Qed.

Lemma typing_click_post_button_2 (selectors : list str) :
  emits (fills_ok (eq t)) (click_post_button_2 selectors).
Proof.
  induction selectors as [|selector rest IH]; simpl.
  - apply emits_ret.
  - unfold locator, click_or_force, sleep, log. typing.
Qed.

Lemma typing_find_compose (selectors : list str) (found : option str) :
  emits (fills_ok (eq t)) (find_compose selectors found).
Proof.
  revert found. induction selectors as [|selector rest IH]; intros found; simpl.
  - apply emits_ret.
  - intros st.
    assert (Hl : emits (fills_ok (eq t)) (locator selector)) by (unfold locator; typing).
    destruct (Hl st) as (d1 & Ht1 & Hd1).
    destruct (locator selector st) as [[l|e] st1]; simpl in *.
    + assert (Hw : emits (fills_ok (eq t)) (call (WaitFor l 5000))) by typing.
      destruct (@emits_after _ _ _ st st1 d1 Hw Ht1 Hd1) as (d2 & Ht2 & Hd2).
      destruct (call (WaitFor l 5000) st1) as [[v|e] st2]; simpl in *.
      * eauto.
      * eapply emits_after; [apply IH | exact Ht2 | exact Hd2].
    + eapply emits_after; [apply IH | exact Ht1 | exact Hd1].
Qed.

#[local] Hint Resolve typing_click_post_button_1 typing_click_post_button_2
  typing_find_compose : typing.

(** Whatever [post_tweet] types into a compose area is the text it was
    given. *)
Lemma typing_post_tweet : emits (fills_ok (eq t)) (post_tweet t).
Proof.
  unfold post_tweet. apply emits_try_except; [|intros e; unfold log; typing].
  apply emits_bind.
  { unfold post_tweet_open, log, sleep.
    apply emits_bind; [apply emits_emit; exact I|]. intros _.
    apply emits_bind; [typing|]. intros url. destruct (contains (lit "home") url); typing. }
  intros _. apply emits_bind.
  { unfold _try_compose_method_1, locator, sleep, log. typing. }
  intros [|]; [apply emits_ret|]. apply emits_bind.
  { unfold _try_compose_method_2, sleep, log.
    apply emits_try_except; [|intros e; typing].
    apply emits_bind; [apply emits_emit; exact I|]. intros _.
    apply emits_bind; [apply typing_find_compose|]. intros [l|]; typing. }
  intros [|]; [apply emits_ret|]. apply emits_bind.
  { unfold _try_compose_method_3, sleep, log.
    apply emits_try_except; [|intros e; typing].
    apply emits_bind; [apply emits_emit; exact I|]. intros _.
    apply emits_bind; [apply typing_find_compose|]. intros [l|]; typing. }
  intros [|]; [apply emits_ret|]. unfold log. typing.
Qed.

End Typing.

Lemma guarded_at_most_280 (t : str) : len (guarded t) <= 280.
Proof.
  unfold guarded. destruct (Nat.ltb_spec 280 (len t)); [|assumption].
  rewrite length_app, length_firstn, Nat.min_l by lia. simpl. lia.
Qed.

Lemma guarded_not_empty (t : str) : is_empty t = false -> guarded t <> [].
Proof.
  unfold guarded. destruct (Nat.ltb_spec 280 (len t)) as [H|H].
  - intros _ E. apply (f_equal (@Datatypes.length _)) in E.
    rewrite length_app, length_firstn, Nat.min_l in E by lia. simpl in E. lia.
  - now destruct t.
Qed.

(** The text of some record of the list, as the guard hands it on. *)
Definition text_of_record (tweets_data : list tweet_record) (text : str) : Prop :=
  exists tweet_data,
    In tweet_data tweets_data /\
    is_empty (select_text tweet_data) = false /\
    text = guarded (select_text tweet_data).

Lemma typing_post_one (total : nat) (post_interval : N) (i : nat)
    (tweets_data : list tweet_record) (tweet_data : tweet_record) (counts : nat * nat) :
  In tweet_data tweets_data ->
  emits (fills_ok (text_of_record tweets_data))
        (post_one total post_interval i tweet_data counts).
Proof.
  intros Hin. unfold post_one.
  apply emits_try_except; [|intros e; unfold log; typing].
  destruct (is_empty (select_text tweet_data)) eqn:E; [unfold log; typing|].
  apply (emits_bind_value (fun text => text = guarded (select_text tweet_data))).
  - intros st a st' H.
    destruct (length_guard_value i (select_text tweet_data) st) as (st1 & Hg & _).
    congruence.
  - unfold length_guard. destruct (280 <? len (select_text tweet_data)); unfold log; typing.
  - intros text ->. unfold submit. destruct counts as [s f]. unfold log, sleep.
    apply emits_bind; [apply emits_emit; exact I|]. intros _.
    apply emits_bind.
    { eapply emits_weaken; [|apply typing_post_tweet].
      intros [a o| |]; simpl; try tauto.
      destruct a; simpl; try tauto. intros <-. exists tweet_data. auto. }
    intros posted. apply emits_bind; [destruct posted; typing|]. intros c.
    apply emits_bind; [destruct (i <? total); typing|]. intros _. apply emits_ret.
Qed.

Lemma typing_post_all (total : nat) (post_interval : N) (all : list tweet_record)
    (tweets_data : list tweet_record) (i : nat) (counts : nat * nat) :
  incl tweets_data all ->
  emits (fills_ok (text_of_record all)) (post_all total post_interval i tweets_data counts).
Proof.
  revert i counts. induction tweets_data as [|tweet_data rest IH]; intros i counts Hincl; simpl.
  - apply emits_ret.
  - apply emits_bind.
    + apply typing_post_one. apply Hincl. now left.
    + intros c. apply IH. intros r Hr. apply Hincl. now right.
Qed.

(** X2.  Whatever the loop of [run_bot] types into a compose area is the
    text of one of its records after the length guard: it is never empty and
    never longer than 280 code points. *)
Theorem post_all_types_only_guarded_texts (total : nat) (post_interval : N) (i : nat)
    (tweets_data : list tweet_record) (counts : nat * nat) (st : state) :
  exists d,
    trace (snd (post_all total post_interval i tweets_data counts st)) = trace st ++ d /\
    forall selector text o,
      In (Call (Fill selector text) o) d ->
      len text <= 280 /\ text <> [] /\
      exists tweet_data,
        In tweet_data tweets_data /\ text = guarded (select_text tweet_data).
Proof.
  destruct (typing_post_all total post_interval i counts (incl_refl tweets_data) st)
    as (d & Ht & Hd).
  exists d. split; [exact Ht|].
  intros selector text o Hin. rewrite Forall_forall in Hd.
  destruct (Hd _ Hin) as (tweet_data & Hr & Hne & ->).
  split; [apply guarded_at_most_280|]. split; [now apply guarded_not_empty|]. eauto.
Qed.

(** X3.  [run_bot] contains every exception of the browser start-up, of the
    loading of the tweets, of the login and of the posting loop: whatever
    they do, it goes on to log that it keeps the browser open, waits 10
    seconds and calls [quit], and what [quit] does is what [run_bot] ends
    with.  So [run_bot] raises only if [quit] itself does. *)
Theorem run_bot_always_quits (setup_browser login_to_twitter quit : M unit)
    (load_tweets_from_json : str -> M (list tweet_record))
    (json_file_path : str) (post_interval : N) (max_tweets : option Z) (st : state) :
  (exists st1,
      run_bot setup_browser login_to_twitter quit load_tweets_from_json
              json_file_path post_interval max_tweets st
      = match quit {| page := page st1;
                      trace := (trace st1
                                ++ [Log INFO (lit "Keeping browser open for 10 seconds...")])
                               ++ [Sleep 10] |} with
        | (Ok _, st2) => (Ok tt, st2)
        | (Raise e, st2) => (Raise e, st2)
        end) /\
  (never_raises quit ->
   exists st2,
     run_bot setup_browser login_to_twitter quit load_tweets_from_json
             json_file_path post_interval max_tweets st = (Ok tt, st2)).
Proof.
  assert (Hrun : exists st1,
      run_bot setup_browser login_to_twitter quit load_tweets_from_json
              json_file_path post_interval max_tweets st
      = match quit {| page := page st1;
                      trace := (trace st1
                                ++ [Log INFO (lit "Keeping browser open for 10 seconds...")])
                               ++ [Sleep 10] |} with
        | (Ok _, st2) => (Ok tt, st2)
        | (Raise e, st2) => (Raise e, st2)
        end).
  { unfold run_bot, try_finally.
    match goal with |- context [try_except ?body ?handler st] =>
      destruct (@never_raises_try_except _ body handler) with (st := st) as ([] & st1 & ->)
    end.
    { intros e. apply never_raises_emit. }
    exists st1. unfold bind, log, sleep, emit. simpl.
    destruct (quit _) as [[[]|e] st2]; reflexivity. }
  split; [exact Hrun|].
  intros Hquit. destruct Hrun as (st1 & ->).
  destruct (Hquit {| page := page st1;
                     trace := (trace st1
                               ++ [Log INFO (lit "Keeping browser open for 10 seconds...")])
                              ++ [Sleep 10] |}) as ([] & st2 & ->).
  eauto.
Qed.

(** A call of [page.locator] that returned. *)
Definition locator_returned (e : event) : bool :=
  match e with
  | Call (Locator _) (Returned _) => true
  | _ => false
  end.

Lemma find_compose_keeps_locator (selectors : list str) (tweet_compose : option str)
    (st : state) :
  exists found st' d,
    find_compose selectors tweet_compose st = (Ok found, st') /\
    trace st' = trace st ++ d /\
    (found = None <-> tweet_compose = None /\ existsb locator_returned d = false) /\
    (forall l, found = Some l -> tweet_compose = Some l \/ In l selectors).
Proof.
  revert tweet_compose st.
  induction selectors as [|selector rest IH]; intros tweet_compose st; simpl.
  - exists tweet_compose, st, []. unfold ret. rewrite app_nil_r. simpl.
    repeat split; try tauto; intros l ->; now left.
  - unfold locator, bind, call, ret.
    destruct (perform (Locator selector) (page st)) as [[v|e] b]; simpl.
    + destruct (perform (WaitFor selector 5000) b) as [[v'|e'] b']; simpl.
      * eexists _, _, [_; _]. split; [reflexivity|]. simpl. rewrite <- app_assoc. simpl.
        split; [reflexivity|]. split.
        -- split; [discriminate | intros [_ H]; discriminate].
        -- intros l [= <-]. right. now left.
      * match goal with |- context [find_compose rest (Some selector) ?s] =>
          destruct (IH (Some selector) s) as (found & st' & d & -> & Ht & Hnone & Hsome)
        end.
        simpl in Ht. rewrite <- !app_assoc in Ht. simpl in Ht.
        eexists found, st', (_ :: _ :: d). split; [reflexivity|]. split; [exact Ht|]. split.
        -- simpl. split; [|intros [_ H]; discriminate].
           intros H. apply Hnone in H as [H _]. discriminate.
        -- intros l Hl. destruct (Hsome l Hl) as [[= <-]|H]; right; [now left | now right].
    + match goal with |- context [find_compose rest tweet_compose ?s] =>
        destruct (IH tweet_compose s) as (found & st' & d & -> & Ht & Hnone & Hsome)
      end.
      simpl in Ht. rewrite <- app_assoc in Ht. simpl in Ht.
      eexists found, st', (_ :: d). split; [reflexivity|]. split; [exact Ht|]. split.
      * simpl. exact Hnone.
      * intros l Hl. destruct (Hsome l Hl) as [H|H]; [now left | right; now right].
Qed.

(** X4.  The loop over the compose-area selectors of methods 2 and 3 never
    raises, and what it leaves in [tweet_compose] is the locator of one of
    the selectors.  It leaves [None] exactly when [page.locator] itself
    raised for every selector it tried: a [wait_for] that times out does not
    clear the variable, so after a time-out on every selector the method
    goes on with a locator and the test [if not tweet_compose] does not
    stop it. *)
Theorem find_compose_none_only_without_locator (selectors : list str) (st : state) :
  exists found st' d,
    find_compose selectors None st = (Ok found, st') /\
    trace st' = trace st ++ d /\
    (found = None <-> existsb locator_returned d = false) /\
    (forall l, found = Some l -> In l selectors).
Proof.
  destruct (find_compose_keeps_locator selectors None st)
    as (found & st' & d & Hf & Ht & Hnone & Hsome).
  exists found, st', d. split; [exact Hf|]. split; [exact Ht|]. split.
  - rewrite Hnone. tauto.
  - intros l Hl. destruct (Hsome l Hl) as [H|H]; [discriminate | exact H].
Qed.

(** ** What a reported success has behind it *)

(** [runs m Q]: a run of [m] only appends to the history, and when it
    returns [a], [Q a] holds of what it appended. *)
Definition runs {A} (m : M A) (Q : A -> list event -> Prop) : Prop :=
  forall st, exists d,
    trace (snd (m st)) = trace st ++ d /\ forall a, fst (m st) = Ok a -> Q a d.

Lemma runs_ret {A} (a : A) (Q : A -> list event -> Prop) : Q a [] -> runs (ret a) Q.
Proof.
  intros H st. exists []. simpl. rewrite app_nil_r. split; [reflexivity|].
  now intros a' [= <-].
Qed.

Lemma runs_weaken {A} (m : M A) (Q Q' : A -> list event -> Prop) :
  (forall a d, Q a d -> Q' a d) -> runs m Q -> runs m Q'.
Proof.
  intros H Hm st. destruct (Hm st) as (d & Ht & Hq). exists d. split; [exact Ht | auto].
Qed.

Lemma runs_of_emits (P : event -> Prop) {A} (m : M A) :
  emits P m -> runs m (fun _ _ => True).
Proof.
  intros Hm st. destruct (Hm st) as (d & Ht & _). exists d. split; [exact Ht | auto].
Qed.

Lemma runs_bind {A B} (m : M A) (k : A -> M B) (Q1 : A -> list event -> Prop)
    (Q : B -> list event -> Prop) :
  runs m Q1 ->
  (forall a d1, Q1 a d1 -> runs (k a) (fun b d2 => Q b (d1 ++ d2))) ->
  runs (bind m k) Q.
Proof.
  intros Hm Hk st. unfold bind. destruct (Hm st) as (d1 & Ht1 & Hq1).
  destruct (m st) as [[a|e] st1]; simpl in *.
  - destruct (Hk a d1 (Hq1 a eq_refl) st1) as (d2 & Ht2 & Hq2).
    exists (d1 ++ d2). rewrite Ht2, Ht1, app_assoc. split; [reflexivity | exact Hq2].
  - exists d1. split; [exact Ht1 | discriminate].
Qed.

Lemma runs_try_except {A} (body : M A) (handler : str -> M A)
    (Q : A -> list event -> Prop) :
  runs body Q ->
  (forall e d1, runs (handler e) (fun a d2 => Q a (d1 ++ d2))) ->
  runs (try_except body handler) Q.
Proof.
  intros Hb Hh st. unfold try_except. destruct (Hb st) as (d1 & Ht1 & Hq1).
  destruct (body st) as [[a|e] st1]; simpl in *.
  - exists d1. split; [exact Ht1 | exact Hq1].
  - destruct (Hh e d1 st1) as (d2 & Ht2 & Hq2).
    exists (d1 ++ d2). rewrite Ht2, Ht1, app_assoc. split; [reflexivity | exact Hq2].
Qed.

Lemma runs_call (a : action) :
  runs (call a) (fun v d => d = [Call a (Returned v)]).
Proof.
  intros st. unfold call. destruct (perform a (page st)) as [[v|e] b]; simpl.
  - exists [Call a (Returned v)]. split; [reflexivity|]. now intros v' [= <-].
  - exists [Call a (Raised e)]. split; [reflexivity | discriminate].
Qed.

Lemma runs_call_then {B} (a : action) (k : str -> M B) (Q : B -> list event -> Prop) :
  (forall v, runs (k v) (fun b d => Q b (Call a (Returned v) :: d))) ->
  runs (bind (call a) k) Q.
Proof.
  intros H. eapply runs_bind; [apply runs_call|]. intros v d1 ->. apply H.
Qed.

Lemma runs_emit_then {B} (e : event) (k : M B) (Q : B -> list event -> Prop) :
  runs k (fun b d => Q b (e :: d)) -> runs (bind (emit e) (fun _ => k)) Q.
Proof.
  intros H. apply runs_bind with (Q1 := fun _ d => d = [e]).
  - intros st. exists [e]. split; [reflexivity | reflexivity].
  - intros _ d1 ->. exact H.
Qed.

Lemma runs_locator_then {B} (selector : str) (k : str -> M B)
    (Q : B -> list event -> Prop) :
  (forall v, runs (k selector) (fun b d => Q b (Call (Locator selector) (Returned v) :: d))) ->
  runs (bind (locator selector) k) Q.
Proof.
  intros H. apply runs_bind with (Q1 := fun l d => l = selector /\ exists v, d = [Call (Locator selector) (Returned v)]).
  - unfold locator. apply runs_call_then. intros v. apply runs_ret. eauto.
  - intros l d1 [-> [v ->]]. apply H.
Qed.

(** The event is a click on one of [buttons], or the keyboard shortcut that
    posts, and the call returned. *)
Definition submits (buttons : list str) (e : event) : bool :=
  match e with
  | Call (Click post_button _) (Returned _) => mem post_button buttons
  | Call (KeyboardPress key) (Returned _) => str_eqb key (lit "Control+Enter")
  | _ => false
  end.

(** The event is a [fill] with [t] that returned. *)
Definition types (t : str) (e : event) : bool :=
  match e with
  | Call (Fill _ text) (Returned _) => str_eqb text t
  | _ => false
  end.

(** Some event of the history types [t] and a later one submits. *)
Fixpoint posted (buttons : list str) (t : str) (d : list event) : bool :=
  match d with
  | [] => false
  | e :: d' => (types t e && existsb (submits buttons) d') || posted buttons t d'
  end.

Lemma posted_here (buttons : list str) (t : str) (e : event) (d : list event) :
  types t e = true -> existsb (submits buttons) d = true -> posted buttons t (e :: d) = true.
Proof. intros H1 H2. simpl. now rewrite H1, H2. Qed.

Lemma posted_later (buttons : list str) (t : str) (e : event) (d : list event) :
  posted buttons t d = true -> posted buttons t (e :: d) = true.
Proof. intros H. simpl. rewrite H. apply orb_true_r. Qed.

Lemma posted_after (buttons : list str) (t : str) (d1 d2 : list event) :
  posted buttons t d2 = true -> posted buttons t (d1 ++ d2) = true.
Proof. intros H. induction d1 as [|e d1 IH]; [exact H | now apply posted_later]. Qed.

Lemma posted_before (buttons : list str) (t : str) (d1 d2 : list event) :
  posted buttons t d1 = true -> posted buttons t (d1 ++ d2) = true.
Proof.
  induction d1 as [|e d1 IH]; simpl; [discriminate|].
  intros H. apply orb_true_iff in H as [H|H].
  - apply andb_true_iff in H as [H1 H2]. rewrite H1, existsb_app, H2. reflexivity.
  - rewrite (IH H). apply orb_true_r.
Qed.

Lemma submits_later (buttons : list str) (e : event) (d : list event) :
  existsb (submits buttons) d = true -> existsb (submits buttons) (e :: d) = true.
Proof. intros H. simpl. rewrite H. apply orb_true_r. Qed.

Lemma submits_after (buttons : list str) (d1 d2 : list event) :
  existsb (submits buttons) d2 = true -> existsb (submits buttons) (d1 ++ d2) = true.
Proof. intros H. rewrite existsb_app, H. apply orb_true_r. Qed.

Lemma submits_before (buttons : list str) (d1 d2 : list event) :
  existsb (submits buttons) d1 = true -> existsb (submits buttons) (d1 ++ d2) = true.
Proof. intros H. now rewrite existsb_app, H. Qed.

Lemma mem_true (x : str) (l : list str) : mem x l = true <-> In x l.
Proof.
  unfold mem. rewrite existsb_exists. split.
  - intros (y & Hy & E). apply str_eqb_eq in E. now subst.
  - intros H. exists x. split; [exact H | apply str_eqb_refl].
Qed.

Lemma submits_more (buttons buttons' : list str) (d : list event) :
  incl buttons buttons' ->
  existsb (submits buttons) d = true -> existsb (submits buttons') d = true.
Proof.
  intros Hi H. apply existsb_exists in H as (e & He & Hs). apply existsb_exists.
  exists e. split; [exact He|].
  destruct e as [[] [v|x]| |]; simpl in *; try discriminate Hs; try exact Hs.
  apply mem_true. apply Hi. now apply mem_true.
Qed.

Lemma posted_more (buttons buttons' : list str) (t : str) (d : list event) :
  incl buttons buttons' -> posted buttons t d = true -> posted buttons' t d = true.
Proof.
  intros Hi. induction d as [|e d IH]; simpl; [discriminate|].
  intros H. apply orb_true_iff in H as [H|H].
  - apply andb_true_iff in H as [H1 H2].
    now rewrite H1, (submits_more _ Hi H2).
  - rewrite (IH H). apply orb_true_r.
Qed.

(** Finds the typing and the submitting event in a history given event by
    event. *)
Ltac submitted :=
  cbv beta;
  first
    [ assumption
    | apply submits_before; submitted
    | apply submits_after; submitted
    | apply submits_later; submitted
    | simpl; rewrite ?str_eqb_refl; rewrite ?orb_true_r; reflexivity ].

Ltac typed_then_submitted :=
  cbv beta;
  first
    [ assumption
    | apply posted_here; [simpl; apply str_eqb_refl | submitted]
    | apply posted_later; typed_then_submitted
    | apply posted_after; typed_then_submitted ].

(** Walks through straight-line code, event by event. *)
Ltac walk :=
  repeat first
    [ apply runs_locator_then; intros ?
    | apply runs_call_then; intros ?
    | apply runs_emit_then ].

Lemma runs_click_or_force (post_button : str) :
  runs (click_or_force post_button)
       (fun _ d => existsb (submits [post_button]) d = true).
Proof.
  unfold click_or_force. apply runs_try_except.
  - walk. apply runs_ret. submitted.
  - intros e d1. walk. apply runs_ret. submitted.
Qed.

Lemma runs_click_post_button_1 (selectors : list str) :
  runs (click_post_button_1 selectors)
       (fun posted_it d => posted_it = true -> existsb (submits selectors) d = true).
Proof.
  induction selectors as [|selector rest IH]; cbn [click_post_button_1].
  - apply runs_ret. discriminate.
  - unfold sleep, log. apply runs_try_except.
    + walk. eapply runs_bind; [apply runs_click_or_force|].
      intros [] d1 Hd1. walk. apply runs_ret. intros _.
      assert (existsb (submits (selector :: rest)) d1 = true)
        by (revert Hd1; apply submits_more; intros x [<-|[]]; now left).
      submitted.
    + intros e d1. eapply runs_weaken; [|exact IH]. intros b d H Hb.
      apply submits_after. specialize (H Hb). revert H.
      apply submits_more. intros x Hx. now right.
Qed.

Lemma runs_click_post_button_2 (selectors : list str) :
  runs (click_post_button_2 selectors)
       (fun posted_it d => posted_it = true -> existsb (submits selectors) d = true).
Proof.
  induction selectors as [|selector rest IH]; cbn [click_post_button_2].
  - apply runs_ret. discriminate.
  - unfold sleep, log. apply runs_try_except.
    + walk. eapply runs_bind; [apply runs_click_or_force|].
      intros [] d1 Hd1. walk. apply runs_ret. intros _.
      assert (existsb (submits (selector :: rest)) d1 = true)
        by (revert Hd1; apply submits_more; intros x [<-|[]]; now left).
      submitted.
    + intros e d1. eapply runs_weaken; [|exact IH]. intros b d H Hb.
      apply submits_after. specialize (H Hb). revert H.
      apply submits_more. intros x Hx. now right.
Qed.

Section Success.

Variable t : str.

Lemma runs_try_compose_method_1 :
  runs (_try_compose_method_1 t)
       (fun success d => success = true -> posted post_button_selectors t d = true).
Proof.
  unfold _try_compose_method_1, sleep, log. apply runs_try_except.
  - walk. eapply runs_weaken; [|apply runs_click_post_button_1].
    intros b d H Hb. specialize (H Hb). typed_then_submitted.
  - intros e d1. walk. apply runs_ret. discriminate.
Qed.

Lemma runs_try_compose_method_2 :
  runs (_try_compose_method_2 t)
       (fun success d => success = true -> posted post_selectors t d = true).
Proof.
  unfold _try_compose_method_2, sleep, log. apply runs_try_except.
  - walk. eapply runs_bind; [apply (runs_of_emits (typing_find_compose t _ _))|].
    intros [tweet_compose|] d1 _.
    + walk. eapply runs_weaken; [|apply runs_click_post_button_2].
      intros b d H Hb. specialize (H Hb). typed_then_submitted.
    + apply runs_ret. discriminate.
  - intros e d1. walk. apply runs_ret. discriminate.
Qed.

Lemma runs_try_compose_method_3 :
  runs (_try_compose_method_3 t)
       (fun success d => success = true -> posted [] t d = true).
Proof.
  unfold _try_compose_method_3, sleep, log. apply runs_try_except.
  - walk. eapply runs_bind; [apply (runs_of_emits (typing_find_compose t _ _))|].
    intros [tweet_compose|] d1 _.
    + walk. apply runs_ret. intros _. typed_then_submitted.
    + apply runs_ret. discriminate.
  - intros e d1. walk. apply runs_ret. discriminate.
Qed.

Definition post_buttons : list str := post_button_selectors ++ post_selectors.

Lemma runs_post_tweet :
  runs (post_tweet t) (fun success d => success = true -> posted post_buttons t d = true).
Proof.
  unfold post_tweet. apply runs_try_except.
  2:{ intros e d1. unfold log. walk. apply runs_ret. discriminate. }
  apply runs_bind with (Q1 := fun _ _ => True).
  { unfold post_tweet_open, log, sleep. apply runs_emit_then.
    apply runs_call_then. intros url.
    destruct (contains (lit "home") url); walk; now apply runs_ret. }
  intros ? d0 _.
  eapply runs_bind; [apply runs_try_compose_method_1|]. intros [|] d1 H1.
  { apply runs_ret. intros _. rewrite app_nil_r. apply posted_after.
    apply posted_more with (buttons := post_button_selectors); [|auto].
    apply incl_appl, incl_refl. }
  eapply runs_bind; [apply runs_try_compose_method_2|]. intros [|] d2 H2.
  { apply runs_ret. intros _. rewrite app_nil_r. do 2 apply posted_after.
    apply posted_more with (buttons := post_selectors); [|auto].
    apply incl_appr, incl_refl. }
  eapply runs_bind; [apply runs_try_compose_method_3|]. intros [|] d3 H3.
  { apply runs_ret. intros _. rewrite app_nil_r. do 3 apply posted_after.
    apply posted_more with (buttons := []); [|auto]. intros x []. }
  unfold log. walk. apply runs_ret. discriminate.
Qed.

End Success.

Lemma posted_split (buttons : list str) (t : str) (d : list event) :
  posted buttons t d = true ->
  exists d1 selector v d2 e d3,
    d = d1 ++ Call (Fill selector t) (Returned v) :: d2 ++ e :: d3 /\
    submits buttons e = true.
Proof.
  induction d as [|e0 d IH]; simpl; [discriminate|].
  intros H. apply orb_true_iff in H as [H|H].
  - apply andb_true_iff in H as [H1 H2].
    apply existsb_exists in H2 as (e & He & Hs).
    apply in_split in He as (d2 & d3 & ->).
    destruct e0 as [[] [v|x]| |]; simpl in H1; try discriminate H1.
    apply str_eqb_eq in H1. subst.
    exists [], selector, v, d2, e, d3. auto.
  - destruct (IH H) as (d1 & selector & v & d2 & e & d3 & -> & Hs).
    exists (e0 :: d1), selector, v, d2, e, d3. auto.
Qed.

(** X5.  [post_tweet] reports success only after the text was typed and
    submitted: when it returns [True], the history it added holds a [fill]
    with the very text it was given that returned and, later, a submission
    that returned, which is a click (plain or forced) on one of the post
    buttons of methods 1 and 2 or the key press [Control+Enter]. *)
Theorem post_tweet_true_only_after_submitting (t : str) (st st' : state) :
  post_tweet t st = (Ok true, st') ->
  exists d1 selector v d2 e d3,
    trace st' = trace st ++ d1 ++ Call (Fill selector t) (Returned v) :: d2 ++ e :: d3 /\
    ((exists post_button force w,
         e = Call (Click post_button force) (Returned w) /\
         In post_button (post_button_selectors ++ post_selectors)) \/
     (exists w, e = Call (KeyboardPress (lit "Control+Enter")) (Returned w))).
Proof.
  intros H. destruct (runs_post_tweet t st) as (d & Ht & Hq).
  rewrite H in Ht, Hq. simpl in Ht, Hq. specialize (Hq true eq_refl eq_refl).
  apply posted_split in Hq as (d1 & selector & v & d2 & e & d3 & -> & Hs).
  exists d1, selector, v, d2, e, d3. split; [exact Ht|].
  destruct e as [[] [w|x]| |]; cbn [submits] in Hs; try discriminate Hs.
  - left. apply mem_true in Hs. eauto.
  - right. apply str_eqb_eq in Hs. subst. eauto.
Qed.

End Bot.

(** ** Scripted browsers

    A browser whose answer depends on the call alone.  They give concrete
    runs of the bot. *)
Definition scripted (policy : action -> outcome) : action -> unit -> outcome * unit :=
  fun a _ => (policy a, tt).

Definition fresh : state unit := {| page := tt; trace := [] |}.

Definition home_url : str := lit "https://twitter.com/home".

(** Every call returns; the page is the home timeline. *)
Definition all_ok (a : action) : outcome :=
  match a with
  | PageUrl => Returned home_url
  | _ => Returned []
  end.

(** The text area of method 1 never shows up; every other call returns. *)
Definition textarea_missing (a : action) : outcome :=
  match a with
  | PageUrl => Returned home_url
  | WaitFor selector _ =>
      if str_eqb selector tweetTextarea_0 then Raised (lit "Timeout 10000ms exceeded.")
      else Returned []
  | _ => Returned []
  end.

(** The page is the home timeline and nothing on it can be reached. *)
Definition nothing_works (a : action) : outcome :=
  match a with
  | PageUrl => Returned home_url
  | _ => Raised (lit "Timeout exceeded.")
  end.

Definition hello : str := lit "hello".

(** A record whose only field is a tweet of 300 code points. *)
Definition long_record : tweet_record := [(lit "tweet", repeat 97%N 300)].

(** A record with both fields, and one with neither. *)
Definition both_record : tweet_record :=
  [(lit "tweet", lit "plain"); (lit "tweet_with_hashtags", lit "plain #tag")].
Definition empty_record : tweet_record := [(lit "id", lit "7")].

(** The spec's 300-character example: the guard hands on 280 code points
    that end in [...], and that is the text submitted. *)
Lemma length_guard_truncates_witness :
  len (select_text long_record) = 300 /\
  exists t' st1,
    length_guard 1 (select_text long_record) fresh = (Ok t', st1) /\
    post_one (scripted all_ok) 1 10 1 long_record (0, 0) fresh
    = submit (scripted all_ok) 1 10 1 (0, 0) t' st1 /\
    (280 < len (select_text long_record) ->
       t' = firstn 277 (select_text long_record) ++ lit "..." /\
       len t' = 280 /\ endswith (lit "...") t' = true) /\
    (len (select_text long_record) <= 280 -> t' = select_text long_record /\ st1 = fresh).
Proof.
  split; [reflexivity|].
  apply (length_guard_truncates (scripted all_ok) 1 10 1 long_record (0, 0) fresh).
  reflexivity.
Defined.

(** The spec's scenario [A fails, B succeeds, C untried]: method 1 returns
    [False], method 2 returns [True], and only 1 and 2 were invoked. *)
Lemma post_tweet_first_success_witness :
  let p := scripted textarea_missing in
  let st0 := snd (post_tweet_open p hello fresh) in
  let st1 := snd (_try_compose_method_1 p hello st0) in
  let st2 := snd (_try_compose_method_2 p hello st1) in
  post_tweet p hello fresh = (Ok true, st2) /\
  attempts (trace st2) = attempts (trace fresh) ++ seq 1 2.
Proof.
  intros p st0 st1 st2.
  apply (@post_tweet_first_success unit p hello fresh st0 st1 st2
           [_try_compose_method_1 p hello] [_try_compose_method_3 p hello]
           (_try_compose_method_2 p hello)).
  - vm_compute. reflexivity.
  - reflexivity.
  - apply all_failed_cons with (st1 := st1); [vm_compute; reflexivity | apply all_failed_nil].
  - vm_compute. reflexivity.
Defined.

(** C2 as the specification states it does not hold: no function of the
    value [post_tweet] returns can tell which strategy won.  With [all_ok] method 1 wins, with
    [textarea_missing] method 2 wins, and both runs return [True]. *)
Lemma post_tweet_result_has_no_index :
  ~ exists index_of : result bool -> nat,
      forall (policy : action -> outcome) (t : str) (st st0 st1 st2 : state unit)
             (before after : list (M unit bool)) (winner : M unit bool),
        post_tweet_open (scripted policy) t st = (Ok tt, st0) ->
        methods (scripted policy) t = before ++ winner :: after ->
        all_failed before st0 st1 ->
        winner st1 = (Ok true, st2) ->
        index_of (fst (post_tweet (scripted policy) t st)) = len before.
Proof.
  intros [index_of H].
  pose (p := scripted all_ok). pose (q := scripted textarea_missing).
  pose (a0 := snd (post_tweet_open p hello fresh)).
  pose (b0 := snd (post_tweet_open q hello fresh)).
  pose (b1 := snd (_try_compose_method_1 q hello b0)).
  assert (H1 : index_of (fst (post_tweet p hello fresh)) = 0).
  { apply (H all_ok hello fresh a0 a0 (snd (_try_compose_method_1 p hello a0))
             [] [_try_compose_method_2 p hello; _try_compose_method_3 p hello]
             (_try_compose_method_1 p hello)).
    - vm_compute. reflexivity.
    - reflexivity.
    - apply all_failed_nil.
    - vm_compute. reflexivity. }
  assert (H2 : index_of (fst (post_tweet q hello fresh)) = 1).
  { apply (H textarea_missing hello fresh b0 b1 (snd (_try_compose_method_2 q hello b1))
             [_try_compose_method_1 q hello] [_try_compose_method_3 q hello]
             (_try_compose_method_2 q hello)).
    - vm_compute. reflexivity.
    - reflexivity.
    - apply all_failed_cons with (st1 := b1); [vm_compute; reflexivity | apply all_failed_nil].
    - vm_compute. reflexivity. }
  assert (E1 : fst (post_tweet p hello fresh) = Ok true) by (vm_compute; reflexivity).
  assert (E2 : fst (post_tweet q hello fresh) = Ok true) by (vm_compute; reflexivity).
  rewrite E1 in H1. rewrite E2 in H2. congruence.
Qed.

(** All three strategies fail on a page where nothing can be reached, and
    [post_tweet] returns [False]. *)
Lemma post_tweet_never_raises_witness :
  let p := scripted nothing_works in
  let st0 := snd (post_tweet_open p hello fresh) in
  let st1 := snd (_try_compose_method_1 p hello st0) in
  let st2 := snd (_try_compose_method_2 p hello st1) in
  let st3 := snd (_try_compose_method_3 p hello st2) in
  post_tweet p hello fresh
  = (Ok false, {| page := page st3;
                  trace := trace st3 ++ [Log ERROR (lit "All posting methods failed")] |}).
Proof.
  intros p st0 st1 st2 st3.
  apply (proj1 (proj2 (proj2 (post_tweet_never_raises p hello fresh))) st0 st3).
  - vm_compute. reflexivity.
  - apply all_failed_cons with (st1 := st1); [vm_compute; reflexivity|].
    apply all_failed_cons with (st1 := st2); [vm_compute; reflexivity|].
    apply all_failed_cons with (st1 := st3); [vm_compute; reflexivity|].
    apply all_failed_nil.
Defined.

(** A record with both fields is posted with [tweet_with_hashtags]; a record
    with neither is skipped with the counters untouched. *)
Lemma post_one_selects_text_witness :
  select_text both_record = lit "plain #tag" /\
  post_one (scripted all_ok) 2 10 1 empty_record (3, 1) fresh
  = (Ok (3, 1),
     {| page := tt;
        trace := [Log WARNING (lit "Empty tweet at index 1, skipping...")] |}).
Proof.
  split.
  - apply (proj1 (post_one_selects_text (scripted all_ok) 2 10 1 both_record (0, 0) fresh)).
    reflexivity.
  - apply (proj1 (proj2 (proj2 (proj2
             (post_one_selects_text (scripted all_ok) 2 10 1 empty_record (3, 1) fresh))))).
    reflexivity.
Defined.

(** On a page where every call returns, [post_tweet] returns [True], and the
    history shows the text typed and a post button clicked. *)
Lemma post_tweet_true_only_after_submitting_witness :
  exists d1 selector v d2 e d3,
    trace (snd (post_tweet (scripted all_ok) hello fresh))
    = trace fresh ++ d1 ++ Call (Fill selector hello) (Returned v) :: d2 ++ e :: d3 /\
    ((exists post_button force w,
         e = Call (Click post_button force) (Returned w) /\
         In post_button (post_button_selectors ++ post_selectors)) \/
     (exists w, e = Call (KeyboardPress (lit "Control+Enter")) (Returned w))).
Proof.
  apply (@post_tweet_true_only_after_submitting unit (scripted all_ok) hello fresh
           (snd (post_tweet (scripted all_ok) hello fresh))).
  vm_compute. reflexivity.
Defined.

End Posting.

(* ===================================================================== *)
(** * Crawler_code_guardian.py *)
(* ===================================================================== *)

Module Crawler.
Import Py.

(** An element of a parsed page, as far as the crawler reads it. *)
Record element : Type := {
  href : option str;        (* link.get('href') *)
  get_text : str            (* elem.get_text(strip=True) *)
}.

(** A parsed page: [soup.select(selector)]. *)
Definition soup : Type := str -> list element.

(** [soup.select_one(selector)] *)
Definition select_one (page : soup) (selector : str) : option element :=
  hd_error (page selector).

(** The dictionary [extract_single_article] builds, with the keys
    [analyze_single_article] adds later.  [title] and the added keys hold
    whatever the language model's JSON held. *)
Record article : Type := {
  url : str;
  title : value;
  content : str;
  extracted_at : str;
  word_count : nat;
  category : str;
  ai_analysis : option value;
  summary : option value;
  topics : option value;
  sentiment : option value;
  urgency : option value
}.

(** ** [is_valid_article_url] and [categorize_url] *)

Definition exclude_patterns : list str :=
  map lit
    [ "/live/"; "/gallery/"; "/video/"; "/audio/";
      "/newsletters/"; "/membership/"; "/help/"; "/info/";
      "/privacy/"; "/terms/"; "/contact/"; "/jobs/";
      ".json"; ".xml"; ".css"; ".js"; ".png"; ".jpg";
      "#"; "mailto:"; "tel:"; "/crosswords/"; "/games/";
      "/weather/"; "/travel/offers/"; "/guardian-live-events/" ]%string.

Definition valid_patterns : list str :=
  map lit
    [ "/2024/"; "/2025/"; "/world/"; "/uk-news/"; "/politics/";
      "/business/"; "/environment/"; "/science/"; "/culture/";
      "/sport/"; "/technology/"; "/society/"; "/education/" ]%string.

Definition categorize_url (url : str) : str :=
  if is_empty url then lit "unknown"
  else if contains (lit "/world/") url then lit "world"
  else if contains (lit "/uk-news/") url then lit "uk"
  else if contains (lit "/politics/") url then lit "politics"
  else if contains (lit "/business/") url then lit "business"
  else if contains (lit "/environment/") url then lit "environment"
  else if contains (lit "/science/") url then lit "science"
  else if contains (lit "/technology/") url then lit "technology"
  else if contains (lit "/culture/") url || contains (lit "/film/") url
          || contains (lit "/books/") url then lit "culture"
  else if contains (lit "/sport/") url || contains (lit "/football/") url then lit "sport"
  else if contains (lit "/society/") url then lit "society"
  else if contains (lit "/education/") url then lit "education"
  else lit "general".

Definition link_selectors : list str :=
  [ lit "a[data-link-name=" ++ quoted "article" ++ lit "]";
    lit ".fc-item__link";
    lit ".u-faux-block-link__overlay";
    lit "a[href*=" ++ quoted "/2024/" ++ lit "], a[href*=" ++ quoted "/2025/" ++ lit "]";
    lit ".fc-item__content a";
    lit ".card__link";
    lit ".headline a";
    lit "h3 a[href], h4 a[href]";
    lit ".fc-item__header a";
    lit "a[data-component=" ++ quoted "LinkTo" ++ lit "]" ].

Definition title_selectors : list str :=
  [ lit "h1[data-gu-name=" ++ quoted "headline" ++ lit "]";
    lit "h1.content__headline";
    lit ".content__main h1";
    lit "h1.headline";
    lit "h1";
    lit ".article-header h1" ].

Definition content_selectors : list str :=
  [ lit ".article-body-commercial-selector p";
    lit ".content__article-body p";
    lit "[data-gu-name=" ++ quoted "body" ++ lit "] p";
    lit ".article-body p";
    lit ".content__main-column p";
    lit "div[data-component=" ++ quoted "body" ++ lit "] p";
    lit ".prose p" ].

(** ** Counting in a dictionary and sorting its items

    [extract_top_topics] counts with [d[k] = d.get(k, 0) + 1] and sorts the
    items by count.  The facts below hold for any key type whose equality is
    an equivalence, as [==] is on hashable values. *)

(** [sorted(items, key=lambda x: x[1], reverse=True)].  Python's sort is
    stable, also under [reverse=True]: items with equal counts keep the order
    they had.  A stable sort has one possible result, computed here by
    insertion: an item goes behind the items with a strictly larger count. *)
Fixpoint insert_desc {K} (x : K * nat) (l : list (K * nat)) : list (K * nat) :=
  match l with
  | [] => [x]
  | y :: l' => if snd x <? snd y then y :: insert_desc x l' else x :: l
  end.

Definition sorted_by_count_desc {K} (items : list (K * nat)) : list (K * nat) :=
  fold_right insert_desc [] items.

Section Tally.

Variables (K : Type) (eqb : K -> K -> bool).
Hypothesis eqb_refl : forall x, eqb x x = true.
Hypothesis eqb_sym : forall x y, eqb x y = eqb y x.
Hypothesis eqb_trans : forall x y z, eqb x y = true -> eqb y z = true -> eqb x z = true.

(** [d[k] = d.get(k, 0) + 1] *)
Definition bump (d : list (K * nat)) (k : K) : list (K * nat) :=
  set_by eqb d k (get_by eqb d k 0 + 1).

Definition tally (ks : list K) (d : list (K * nat)) : list (K * nat) :=
  fold_left bump ks d.

(** How often [k] occurs in [ks]. *)
Fixpoint occurrences (k : K) (ks : list K) : nat :=
  match ks with
  | [] => 0
  | x :: ks' => (if eqb k x then 1 else 0) + occurrences k ks'
  end.

(** The position at which [k] first occurs in [ks] ([len ks] if it never
    does). *)
Fixpoint first_seen (k : K) (ks : list K) : nat :=
  match ks with
  | [] => 0
  | x :: ks' => if eqb k x then 0 else S (first_seen k ks')
  end.

(** The order of the ranking: a larger count first, and among equal counts
    the key seen first. *)
Definition ranks_before (ks : list K) (p q : K * nat) : Prop :=
  snd q < snd p \/ (snd p = snd q /\ first_seen (fst p) ks < first_seen (fst q) ks).

Lemma eqb_cong (k k' x : K) : eqb k k' = true -> eqb k x = eqb k' x.
Proof.
  intros H. destruct (eqb k' x) eqn:E.
  - eapply eqb_trans; eassumption.
  - destruct (eqb k x) eqn:E'; [|reflexivity].
    rewrite eqb_sym in H. rewrite <- E. symmetry. eapply eqb_trans; eassumption.
Qed.

Lemma occurrences_app (k : K) (a b : list K) :
  occurrences k (a ++ b) = occurrences k a + occurrences k b.
Proof. induction a as [|x a IH]; simpl; [reflexivity | rewrite IH; lia]. Qed.

Lemma occurrences_cong (k k' : K) (l : list K) :
  eqb k k' = true -> occurrences k l = occurrences k' l.
Proof.
  intros H. induction l as [|x l IH]; simpl; [reflexivity|].
  now rewrite IH, (eqb_cong x H).
Qed.

Lemma first_seen_cong (k k' : K) (l : list K) :
  eqb k k' = true -> first_seen k l = first_seen k' l.
Proof.
  intros H. induction l as [|x l IH]; simpl; [reflexivity|].
  now rewrite IH, (eqb_cong x H).
Qed.

Lemma first_seen_le (k : K) (l : list K) : first_seen k l <= len l.
Proof. induction l as [|x l IH]; simpl; [lia | destruct (eqb k x); lia]. Qed.

Lemma first_seen_present (k : K) (l : list K) :
  0 < occurrences k l -> first_seen k l < len l.
Proof.
  induction l as [|x l IH]; simpl; [lia|].
  destruct (eqb k x); simpl; [lia|]. intros H. apply IH in H. lia.
Qed.

Lemma first_seen_absent (k : K) (l : list K) :
  occurrences k l = 0 -> first_seen k l = len l.
Proof.
  induction l as [|x l IH]; simpl; [reflexivity|].
  destruct (eqb k x); simpl; [lia|]. intros H. now rewrite IH.
Qed.

Lemma first_seen_app_present (k : K) (a b : list K) :
  0 < occurrences k a -> first_seen k (a ++ b) = first_seen k a.
Proof.
  induction a as [|x a IH]; simpl; [lia|].
  destruct (eqb k x); simpl; [reflexivity|]. intros H. now rewrite IH.
Qed.

Lemma first_seen_app_absent (k : K) (a b : list K) :
  occurrences k a = 0 -> first_seen k (a ++ b) = len a + first_seen k b.
Proof.
  induction a as [|x a IH]; simpl; [reflexivity|].
  destruct (eqb k x); simpl; [lia|]. intros H. now rewrite IH.
Qed.

(** What [bump] does to a dictionary, by whether the key is in it. *)
Lemma bump_cases (d : list (K * nat)) (k : K) :
  (Forall (fun p => eqb k (fst p) = false) d /\ bump d k = d ++ [(k, 1)]) \/
  (exists d1 k' c d2,
      d = d1 ++ (k', c) :: d2 /\ eqb k k' = true /\
      Forall (fun p => eqb k (fst p) = false) d1 /\
      bump d k = d1 ++ (k', c + 1) :: d2).
Proof.
  unfold bump, get_by. induction d as [|[k0 c0] d IH]; simpl.
  - left. split; [constructor | reflexivity].
  - destruct (eqb k k0) eqn:E.
    + right. exists [], k0, c0, d.
      split; [reflexivity|]. split; [exact E|]. split; [constructor | reflexivity].
    + destruct IH as [[Hall Hb]|(d1 & k' & c & d2 & Hd & Hk & Hall & Hb)].
      * left. split; [constructor; assumption|].
        destruct (lookup_by eqb k d); simpl in *; now rewrite Hb.
      * right. exists ((k0, c0) :: d1), k', c, d2. subst d.
        split; [reflexivity|]. split; [exact Hk|]. split; [constructor; assumption|].
        simpl. destruct (lookup_by eqb k (d1 ++ (k', c) :: d2)); simpl in *; now rewrite Hb.
Qed.

(** The dictionary after the keys [seen] have been counted. *)
Record counted (d : list (K * nat)) (seen : list K) : Prop := {
  counted_counts : Forall (fun p => snd p = occurrences (fst p) seen /\ 0 < snd p) d;
  counted_order :
    StronglySorted (fun k1 k2 => first_seen k1 seen < first_seen k2 seen) (map fst d);
  counted_all :
    forall x, 0 < occurrences x seen -> exists p, In p d /\ eqb x (fst p) = true
}.

Lemma StronglySorted_weaken {A} (R R' : A -> A -> Prop) (l : list A) :
  (forall a b, In a l -> In b l -> R a b -> R' a b) ->
  StronglySorted R l -> StronglySorted R' l.
Proof.
  intros H S. induction S as [|a l S IH Hall]; constructor.
  - apply IH. intros x y Hx Hy. apply H; now right.
  - rewrite Forall_forall in *. intros b Hb. apply H; [now left | now right | auto].
Qed.

Lemma StronglySorted_snoc {A} (R : A -> A -> Prop) (l : list A) (x : A) :
  StronglySorted R l -> Forall (fun a => R a x) l -> StronglySorted R (l ++ [x]).
Proof.
  intros S. induction S as [|a l S IH Hall]; intros Hx; simpl.
  - repeat constructor.
  - inversion Hx; subst. constructor; [auto|].
    apply Forall_app. split; [assumption | now constructor].
Qed.

Lemma StronglySorted_suffix {A} (R : A -> A -> Prop) (a b : list A) :
  StronglySorted R (a ++ b) -> StronglySorted R b.
Proof.
  induction a as [|x a IH]; simpl; [auto|].
  intros S. apply StronglySorted_inv in S as [S _]. auto.
Qed.

Lemma in_firstn {A} (n : nat) (l : list A) (x : A) : In x (firstn n l) -> In x l.
Proof.
  revert n. induction l as [|y l IH]; intros [|n]; simpl; try tauto.
  intros [H|H]; [now left | right; eauto].
Qed.

Lemma StronglySorted_firstn {A} (R : A -> A -> Prop) (n : nat) (l : list A) :
  StronglySorted R l -> StronglySorted R (firstn n l).
Proof.
  intros S. revert n. induction S as [|a l S IH Hall]; intros [|n]; simpl;
    try constructor.
  - apply IH.
  - rewrite Forall_forall in *. intros b Hb. apply Hall.
    eapply in_firstn; eauto.
Qed.

Lemma counted_nil : counted [] [].
Proof.
  constructor; simpl; [constructor | constructor | intros x H; lia].
Qed.

Lemma counted_key_seen (d : list (K * nat)) (seen : list K) (p : K * nat) :
  counted d seen -> In p d -> 0 < occurrences (fst p) seen.
Proof.
  intros [Hc _ _] Hin. rewrite Forall_forall in Hc.
  destruct (Hc p Hin) as [<- Hpos]. exact Hpos.
Qed.

Lemma counted_bump (d : list (K * nat)) (seen : list K) (x : K) :
  counted d seen -> counted (bump d x) (seen ++ [x]).
Proof.
  intros W. pose proof W as [Hc Ho Ha].
  assert (Hkeep : forall p, In p d -> eqb x (fst p) = false ->
            snd p = occurrences (fst p) (seen ++ [x]) /\ 0 < snd p).
  { intros p Hin Hne. rewrite Forall_forall in Hc. destruct (Hc p Hin) as [Hs Hpos].
    split; [|exact Hpos]. rewrite occurrences_app. simpl.
    rewrite eqb_sym, Hne. lia. }
  assert (Hfs : forall k1 k2, In k1 (map fst d) -> In k2 (map fst d) ->
            first_seen k1 seen < first_seen k2 seen ->
            first_seen k1 (seen ++ [x]) < first_seen k2 (seen ++ [x])).
  { intros k1 k2 H1 H2 Hlt. apply in_map_iff in H1 as (p1 & <- & H1).
    apply in_map_iff in H2 as (p2 & <- & H2).
    rewrite !first_seen_app_present; eauto using counted_key_seen. }
  destruct (bump_cases d x) as [[Hall Hb]|(d1 & k' & c & d2 & Hd & Hk & Hall & Hb)];
    rewrite Hb.
  - (* a new key *)
    assert (Hx : occurrences x seen = 0).
    { destruct (occurrences x seen) eqn:E; [reflexivity|].
      destruct (Ha x) as (p & Hin & Hp); [lia|].
      rewrite Forall_forall in Hall. rewrite (Hall p Hin) in Hp. discriminate. }
    constructor.
    + apply Forall_app. split.
      * rewrite Forall_forall in *. intros p Hin. apply Hkeep; auto.
      * constructor; [|constructor]. simpl. rewrite occurrences_app, Hx. simpl.
        rewrite eqb_refl. lia.
    + rewrite map_app. simpl. apply StronglySorted_snoc.
      * eapply StronglySorted_weaken; [|exact Ho]. exact Hfs.
      * rewrite Forall_forall. intros k Hk. apply in_map_iff in Hk as (p & <- & Hin).
        rewrite first_seen_app_present by eauto using counted_key_seen.
        rewrite first_seen_app_absent by exact Hx. simpl. rewrite eqb_refl.
        pose proof (first_seen_present _ _ (counted_key_seen _ W Hin)). lia.
    + intros y Hy. rewrite occurrences_app in Hy. simpl in Hy.
      destruct (eqb y x) eqn:E.
      * exists (x, 1). split; [apply in_or_app; right; now left | exact E].
      * destruct (Ha y) as (p & Hin & Hp); [lia|].
        exists p. split; [apply in_or_app; now left | exact Hp].
  - (* a key already counted *)
    subst d.
    assert (Hd2 : Forall (fun p => eqb x (fst p) = false) d2).
    { rewrite Forall_forall. intros p Hin.
      destruct (eqb x (fst p)) eqn:E; [|reflexivity]. exfalso.
      rewrite map_app in Ho. simpl in Ho.
      apply StronglySorted_suffix in Ho. apply StronglySorted_inv in Ho as [_ Hlt].
      rewrite Forall_forall in Hlt. specialize (Hlt (fst p) (in_map fst _ _ Hin)).
      assert (eqb k' (fst p) = true).
      { rewrite eqb_sym in Hk. eapply eqb_trans; eassumption. }
      rewrite (first_seen_cong seen H) in Hlt. lia. }
    assert (Hkeys : map fst (d1 ++ (k', c + 1) :: d2) = map fst (d1 ++ (k', c) :: d2)).
    { rewrite !map_app. reflexivity. }
    constructor.
    + rewrite Forall_forall in *. intros p Hin.
      apply in_app_or in Hin as [Hin|[<-|Hin]].
      * apply Hkeep; [apply in_or_app; now left | auto].
      * simpl. destruct (Hc (k', c)) as [Hs Hpos]; [apply in_or_app; right; now left|].
        simpl in Hs. split; [|lia]. rewrite occurrences_app. simpl.
        rewrite eqb_sym, Hk. lia.
      * apply Hkeep; [apply in_or_app; right; now right | auto].
    + rewrite Hkeys. eapply StronglySorted_weaken; [|exact Ho]. exact Hfs.
    + intros y Hy. rewrite occurrences_app in Hy. simpl in Hy.
      assert (Hold : forall p, In p (d1 ++ (k', c) :: d2) ->
                exists q, In q (d1 ++ (k', c + 1) :: d2) /\ fst q = fst p).
      { intros p Hin. apply in_app_or in Hin as [Hin|[<-|Hin]].
        - exists p. split; [apply in_or_app; now left | reflexivity].
        - exists (k', c + 1). split; [apply in_or_app; right; now left | reflexivity].
        - exists p. split; [apply in_or_app; right; now right | reflexivity]. }
      destruct (eqb y x) eqn:E.
      * exists (k', c + 1). split; [apply in_or_app; right; now left|].
        simpl. eapply eqb_trans; eassumption.
      * destruct (Ha y) as (p & Hin & Hp); [lia|].
        destruct (Hold p Hin) as (q & Hq & Hfst). exists q. now rewrite Hfst.
Qed.

Lemma counted_tally (ks : list K) (d : list (K * nat)) (seen : list K) :
  counted d seen -> counted (tally ks d) (seen ++ ks).
Proof.
  revert d seen. induction ks as [|k ks IH]; intros d seen W; simpl.
  - now rewrite app_nil_r.
  - replace (seen ++ k :: ks) with ((seen ++ [k]) ++ ks) by now rewrite <- app_assoc.
    apply IH, counted_bump, W.
Qed.

(** Sorting by count keeps the items, and turns the order of first
    occurrence into the ranking. *)
Lemma insert_desc_perm (x : K * nat) (l : list (K * nat)) :
  Permutation (insert_desc x l) (x :: l).
Proof.
  induction l as [|y l IH]; simpl; [reflexivity|].
  destruct (snd x <? snd y); [|reflexivity].
  rewrite IH. apply perm_swap.
Qed.

Lemma sorted_by_count_desc_perm (l : list (K * nat)) :
  Permutation (sorted_by_count_desc l) l.
Proof.
  induction l as [|x l IH]; simpl; [reflexivity|].
  rewrite insert_desc_perm. now constructor.
Qed.

Lemma insert_desc_ranked (ks : list K) (x : K * nat) (l : list (K * nat)) :
  StronglySorted (ranks_before ks) l ->
  Forall (fun q => first_seen (fst x) ks < first_seen (fst q) ks) l ->
  StronglySorted (ranks_before ks) (insert_desc x l).
Proof.
  intros S. induction S as [|y l S IH Hall]; intros Hx; simpl.
  - repeat constructor.
  - inversion Hx as [|? ? Hxy Hxl]; subst.
    destruct (Nat.ltb_spec (snd x) (snd y)) as [Hlt|Hge].
    + constructor; [auto|].
      rewrite (Forall_forall _ (insert_desc x l)). intros q Hq.
      apply (Permutation_in _ (insert_desc_perm x l)) in Hq as [<-|Hq].
      * now left.
      * rewrite Forall_forall in Hall. auto.
    + constructor; [now constructor|]. constructor.
      * unfold ranks_before. lia.
      * rewrite Forall_forall in *. intros q Hq.
        specialize (Hall q Hq). specialize (Hxl q Hq).
        unfold ranks_before in *. lia.
Qed.

Lemma sorted_by_count_desc_ranked (ks : list K) (l : list (K * nat)) :
  StronglySorted (fun k1 k2 => first_seen k1 ks < first_seen k2 ks) (map fst l) ->
  StronglySorted (ranks_before ks) (sorted_by_count_desc l).
Proof.
  induction l as [|x l IH]; simpl; intros S; [constructor|].
  apply StronglySorted_inv in S as [S Hall].
  apply insert_desc_ranked; [auto|].
  rewrite Forall_forall in *. intros q Hq.
  apply (Permutation_in _ (sorted_by_count_desc_perm l)) in Hq.
  apply Hall, in_map, Hq.
Qed.

End Tally.

Section Pipeline.

(** What the crawler takes from its libraries and from the world.

    - [lower]: [str.lower];
    - [urljoin]: [urllib.parse.urljoin], which raises on a malformed URL;
    - [http_get url timeout]: [session.get], [raise_for_status] and the
      parse by BeautifulSoup, as one step that returns the page or raises;
    - [now url]: [datetime.now().isoformat()] at the moment [url] is read;
    - [chat prompt]: the content of the model's reply, or an exception;
    - [json_loads]: [json.loads];
    - [set_iter eqb l]: [list(set(l))], the members of the set built from
      [l] in the order this interpreter iterates them;
    - [as_completed]: the order in which the futures of a pool complete. *)
Variable lower : str -> str.
Variable urljoin : str -> str -> result str.
Variable http_get : str -> N -> result soup.
Variable now : str -> str.
Variable chat : str -> result str.
Variable json_loads : str -> result value.
Variable set_iter : forall K : Type, (K -> K -> bool) -> list K -> list K.
Variable as_completed : forall A : Type, list A -> list A.

Definition is_valid_article_url (url : str) : bool :=
  if is_empty url || negb (contains (lit "theguardian.com") url) then false
  else if existsb (fun pattern => contains pattern (lower url)) exclude_patterns then false
  else existsb (fun pattern => contains pattern url) valid_patterns.

(** ** [discover_article_urls] *)

(** [for link in links]: [found_links] is the set under construction, kept
    as the sequence of its [add] calls. *)
Fixpoint add_links (url : str) (links : list element) (found_links : list str)
  : result (list str) :=
  match links with
  | [] => Ok found_links
  | link :: rest =>
      match href link with
      | None => add_links url rest found_links
      | Some h =>
          if is_empty h then add_links url rest found_links
          else
            match urljoin url h with
            | Raise e => Raise e
            | Ok full_url =>
                add_links url rest
                  (if is_valid_article_url full_url then found_links ++ [full_url]
                   else found_links)
            end
      end
  end.

(** [for selector in link_selectors] *)
Fixpoint scan_selectors (url : str) (page : soup) (selectors : list str)
    (found_links : list str) : result (list str) :=
  match selectors with
  | [] => Ok found_links
  | selector :: rest =>
      match add_links url (page selector) found_links with
      | Raise e => Raise e
      | Ok found_links' => scan_selectors url page rest found_links'
      end
  end.

Definition fetch_single_category (max_per_category : Z) (url : str) : list str :=
  match http_get url 15 with
  | Raise _ => []
  | Ok page =>
      match scan_selectors url page link_selectors [] with
      | Raise _ => []
      | Ok found_links => slice_list max_per_category (set_iter str_eqb found_links)
      end
  end.

Definition discover_article_urls (base_urls : list str) (max_per_category : Z) : list str :=
  let all_articles := concat (as_completed (map (fetch_single_category max_per_category) base_urls)) in
  set_iter str_eqb all_articles.

(** ** [extract_content_direct] *)

(** The title loop: the text of the first selector that matches. *)
Fixpoint pick_title (page : soup) (selectors : list str) : str :=
  match selectors with
  | [] => []
  | selector :: rest =>
      match select_one page selector with
      | Some title_elem => get_text title_elem
      | None => pick_title page rest
      end
  end.

(** The filter on paragraphs. *)
Definition keep_paragraph (text : str) (content_parts : list str) : bool :=
  (20 <? len text) && negb (mem text content_parts)
  && negb (startswith (lit "Guardian") text)
  && negb (contains (lit "advertisement") (lower text))
  && negb (contains (lit "subscribe") (lower text))
  && negb (contains (lit "premium") (lower text)).

(** [for elem in elements] *)
Fixpoint add_paragraphs (elements : list element) (content_parts : list str) : list str :=
  match elements with
  | [] => content_parts
  | elem :: rest =>
      let text := get_text elem in
      add_paragraphs rest
        (if keep_paragraph text content_parts then content_parts ++ [text] else content_parts)
  end.

(** [for selector in content_selectors], left once five paragraphs are in. *)
Fixpoint gather_content (page : soup) (selectors : list str) (content_parts : list str)
  : list str :=
  match selectors with
  | [] => content_parts
  | selector :: rest =>
      let content_parts := add_paragraphs (page selector) content_parts in
      if 5 <=? len content_parts then content_parts
      else gather_content page rest content_parts
  end.

(** [' '.join(content_parts)] for a page. *)
Definition joined_content (page : soup) : str :=
  join (lit " ") (gather_content page content_selectors []).

Definition extract_single_article (url0 : str) : option article :=
  match http_get url0 20 with
  | Raise _ => None
  | Ok page =>
      let title0 := pick_title page title_selectors in
      let content0 := joined_content page in
      if len content0 <? 100 then None
      else
        Some {| url := url0;
                title := VStr (if is_empty title0 then lit "No title found" else title0);
                content := slice_to 3000 content0;
                extracted_at := now url0;
                word_count := len (split content0);
                category := categorize_url url0;
                ai_analysis := None;
                summary := None;
                topics := None;
                sentiment := None;
                urgency := None |}
  end.

(** [if article: articles.append(article)], over the completed futures. *)
Definition extract_content_direct (urls : list str) : list article :=
  flat_map (fun extracted => match extracted with Some a => [a] | None => [] end)
           (as_completed (map extract_single_article urls)).

(** ** [analyze_with_ollama_fast] *)

Definition newline : str := [10%N].

(** The prompt, an f-string over [category] and [content[:800]]. *)
Definition prompt_for (content0 category0 : str) : str :=
  lit "Analyze this Guardian " ++ category0 ++ lit " article briefly. Return only JSON:"
  ++ newline ++ newline
  ++ lit "Content: " ++ slice_to 800 content0 ++ lit "..."
  ++ newline ++ newline
  ++ lit "{" ++ quoted "headline" ++ lit ":" ++ quoted "Main headline" ++ lit ","
  ++ quoted "summary" ++ lit ":" ++ quoted "Brief summary" ++ lit ","
  ++ quoted "key_topics" ++ lit ":[" ++ quoted "topic1" ++ lit "," ++ quoted "topic2" ++ lit "],"
  ++ quoted "sentiment" ++ lit ":" ++ quoted "positive/negative/neutral" ++ lit ","
  ++ quoted "urgency" ++ lit ":" ++ quoted "high/medium/low" ++ lit "}".

Definition open_brace : char := 123%N.
Definition close_brace : char := 125%N.

(** The regular expression [\{[^}]*\}] tried at the start of [s]: an opening
    brace, the longest run of code points other than a closing brace, and a
    closing brace. *)
Fixpoint up_to_close (s : str) : option str :=
  match s with
  | [] => None
  | c :: s' =>
      if char_eqb c close_brace then Some [c]
      else option_map (cons c) (up_to_close s')
  end.

Definition match_object_here (s : str) : option str :=
  match s with
  | c :: s' => if char_eqb c open_brace then option_map (cons c) (up_to_close s') else None
  | [] => None
  end.

(** [re.search(r'\{[^}]*\}', s)]: the match at the leftmost position that
    has one; [json_match.group()] is the matched text. *)
Fixpoint re_search_object (s : str) : option str :=
  match match_object_here s with
  | Some m => Some m
  | None =>
      match s with
      | [] => None
      | _ :: s' => re_search_object s'
      end
  end.

(** The object of the "fast fallback". *)
Definition default_analysis : value :=
  VDict [ (lit "headline", VStr (lit "Analysis failed"));
          (lit "summary", VStr (lit "Could not analyze content"));
          (lit "key_topics", VList []);
          (lit "sentiment", VStr (lit "neutral"));
          (lit "urgency", VStr (lit "medium")) ].

(** The quick extraction: [json.loads] on the whole reply, tried only when
    the reply starts with an opening brace.  [None]: fall through ([pass]). *)
Definition direct_parse (response_text : str) : option value :=
  if startswith [open_brace] response_text then
    match json_loads response_text with
    | Ok v => Some v
    | Raise _ => None
    end
  else None.

(** The fallback extraction: [json.loads] on the first embedded object. *)
Definition embedded_parse (response_text : str) : option value :=
  match re_search_object response_text with
  | Some json_match =>
      match json_loads json_match with
      | Ok v => Some v
      | Raise _ => None
      end
  | None => None
  end.

(** The [try] block: [Ok (Some v)] is [return v] from inside it, [Ok None]
    is falling out of it, [Raise e] is an exception for the [except]. *)
Definition analysis_attempt (content0 category0 : str) : result (option value) :=
  match chat (prompt_for content0 category0) with
  | Raise e => Raise e
  | Ok response =>
      let response_text := strip response in
      match direct_parse response_text with
      | Some v => Ok (Some v)
      | None => Ok (embedded_parse response_text)
      end
  end.

Definition analyze_with_ollama_fast (content0 category0 : str) : result value :=
  match analysis_attempt content0 category0 with
  | Ok (Some v) => Ok v
  | Ok None => Ok default_analysis
  | Raise _ => Ok default_analysis
  end.

(** ** [process_articles_parallel] *)

(** [analysis.get(key, default)]: an [AttributeError] on anything that is
    not a dictionary. *)
Definition analysis_get (analysis : value) (key : str) (default : value) : result value :=
  match analysis with
  | VDict fields => Ok (get fields key default)
  | _ => Raise (lit "AttributeError: object has no attribute 'get'")
  end.

Definition set_ai_analysis (a : article) (v : value) : article :=
  {| url := url a; title := title a; content := content a; extracted_at := extracted_at a;
     word_count := word_count a; category := category a;
     ai_analysis := Some v; summary := summary a; topics := topics a;
     sentiment := sentiment a; urgency := urgency a |}.

Definition set_title (a : article) (v : value) : article :=
  {| url := url a; title := v; content := content a; extracted_at := extracted_at a;
     word_count := word_count a; category := category a;
     ai_analysis := ai_analysis a; summary := summary a; topics := topics a;
     sentiment := sentiment a; urgency := urgency a |}.

Definition set_summary (a : article) (v : value) : article :=
  {| url := url a; title := title a; content := content a; extracted_at := extracted_at a;
     word_count := word_count a; category := category a;
     ai_analysis := ai_analysis a; summary := Some v; topics := topics a;
     sentiment := sentiment a; urgency := urgency a |}.

Definition set_topics (a : article) (v : value) : article :=
  {| url := url a; title := title a; content := content a; extracted_at := extracted_at a;
     word_count := word_count a; category := category a;
     ai_analysis := ai_analysis a; summary := summary a; topics := Some v;
     sentiment := sentiment a; urgency := urgency a |}.

Definition set_sentiment (a : article) (v : value) : article :=
  {| url := url a; title := title a; content := content a; extracted_at := extracted_at a;
     word_count := word_count a; category := category a;
     ai_analysis := ai_analysis a; summary := summary a; topics := topics a;
     sentiment := Some v; urgency := urgency a |}.

Definition set_urgency (a : article) (v : value) : article :=
  {| url := url a; title := title a; content := content a; extracted_at := extracted_at a;
     word_count := word_count a; category := category a;
     ai_analysis := ai_analysis a; summary := summary a; topics := topics a;
     sentiment := sentiment a; urgency := Some v |}.

(** The assignments of [analyze_single_article] after the analysis is in,
    one after the other on the same dictionary.  The result pairs the
    dictionary as the last completed assignment left it with the exception,
    if any, that stopped the sequence. *)
Definition merge_analysis (a : article) (analysis : value) : article * option str :=
  let a := set_ai_analysis a analysis in
  (* if not article.get('title') and analysis.get('headline'): ... *)
  let step_title :=
    if truthy (title a) then Ok a
    else
      match analysis_get analysis (lit "headline") VNone with
      | Raise e => Raise e
      | Ok headline => Ok (if truthy headline then set_title a headline else a)
      end in
  match step_title with
  | Raise e => (a, Some e)
  | Ok a =>
      match analysis_get analysis (lit "summary") (VStr []) with
      | Raise e => (a, Some e)
      | Ok v =>
          let a := set_summary a v in
          match analysis_get analysis (lit "key_topics") (VList []) with
          | Raise e => (a, Some e)
          | Ok v =>
              let a := set_topics a v in
              match analysis_get analysis (lit "sentiment") (VStr (lit "neutral")) with
              | Raise e => (a, Some e)
              | Ok v =>
                  let a := set_sentiment a v in
                  match analysis_get analysis (lit "urgency") (VStr (lit "medium")) with
                  | Raise e => (a, Some e)
                  | Ok v => (set_urgency a v, None)
                  end
              end
          end
      end
  end.

(** Both exits of [analyze_single_article] return the same dictionary
    object, in the state the exception (if any) found it. *)
Definition analyze_single_article (a : article) : article :=
  match analyze_with_ollama_fast (content a) (category a) with
  | Raise _ => a
  | Ok analysis => fst (merge_analysis a analysis)
  end.

Definition process_articles_parallel (articles : list article) : list article :=
  as_completed (map analyze_single_article articles).

(** ** Aggregation *)

Definition empty_distribution : dict nat :=
  [ (lit "positive", 0); (lit "negative", 0); (lit "neutral", 0) ].

(** [if sentiment in distribution: distribution[sentiment] += 1].  The
    membership test hashes [sentiment]; only a string can equal a key. *)
Definition count_sentiment (distribution : dict nat) (sentiment0 : value)
  : result (dict nat) :=
  match to_hkey sentiment0 with
  | Raise e => Raise e
  | Ok (HStr s) =>
      match lookup s distribution with
      | Some n => Ok (set_by str_eqb distribution s (n + 1))
      | None => Ok distribution
      end
  | Ok _ => Ok distribution
  end.

Fixpoint count_sentiments (sentiments : list value) (distribution : dict nat)
  : result (dict nat) :=
  match sentiments with
  | [] => Ok distribution
  | sentiment0 :: rest =>
      match count_sentiment distribution sentiment0 with
      | Raise e => Raise e
      | Ok distribution' => count_sentiments rest distribution'
      end
  end.

Definition calculate_sentiment_distribution (articles : list article) : result (dict nat) :=
  let sentiments :=
    flat_map (fun a => match sentiment a with
                       | Some v => if truthy v then [v] else []
                       | None => []
                       end) articles in
  count_sentiments sentiments empty_distribution.

(** [for article in articles: all_topics.extend(article.get('topics', []))] *)
Fixpoint extend_topics (articles : list article) (all_topics : list value)
  : result (list value) :=
  match articles with
  | [] => Ok all_topics
  | a :: rest =>
      match iterate (match topics a with Some v => v | None => VList [] end) with
      | Raise e => Raise e
      | Ok ts => extend_topics rest (all_topics ++ ts)
      end
  end.

(** [for topic in all_topics: topic_counts[topic] = topic_counts.get(topic, 0) + 1] *)
Fixpoint count_topics (all_topics : list value) (topic_counts : list (hkey * nat))
  : result (list (hkey * nat)) :=
  match all_topics with
  | [] => Ok topic_counts
  | topic :: rest =>
      match to_hkey topic with
      | Raise e => Raise e
      | Ok k =>
          count_topics rest
            (set_by hkey_eqb topic_counts k (get_by hkey_eqb topic_counts k 0 + 1))
      end
  end.

Definition extract_top_topics (articles : list article) : result (list (hkey * nat)) :=
  match extend_topics articles [] with
  | Raise e => Raise e
  | Ok all_topics =>
      match count_topics all_topics [] with
      | Raise e => Raise e
      | Ok topic_counts => Ok (firstn 10 (sorted_by_count_desc topic_counts))
      end
  end.

(** [set(all_topics)]: every member is hashed. *)
Fixpoint hash_all (l : list value) : result (list hkey) :=
  match l with
  | [] => Ok []
  | v :: rest =>
      match to_hkey v with
      | Raise e => Raise e
      | Ok k =>
          match hash_all rest with
          | Raise e => Raise e
          | Ok ks => Ok (k :: ks)
          end
      end
  end.

(** An average word count: the integer [0] of the [else] branch, or the
    float [dividend / divisor] of two integers. *)
Inductive average : Type :=
| IntZero
| TrueDiv (dividend divisor : nat).

(** [sum(a.get('word_count', 0) for a in articles) / len(articles) if articles else 0] *)
Definition average_word_count (articles : list article) : average :=
  match articles with
  | [] => IntZero
  | _ :: _ => TrueDiv (list_sum (map word_count articles)) (len articles)
  end.

Record summary_stats : Type := {
  total_articles : nat;
  total_categories : nat;
  avg_word_count : average;
  global_sentiment : dict nat;
  unique_topics : nat;
  all_topics : list hkey
}.

(** [generate_summary]; [Ok None] is the empty dictionary it returns for no
    articles. *)
Definition generate_summary (all_articles : list article) : result (option summary_stats) :=
  match all_articles with
  | [] => Ok None
  | _ :: _ =>
      let sentiments :=
        map (fun a => match sentiment a with Some v => v | None => VStr (lit "neutral") end)
            all_articles in
      match count_sentiments sentiments empty_distribution with
      | Raise e => Raise e
      | Ok sentiment_dist =>
          match extend_topics all_articles [] with
          | Raise e => Raise e
          | Ok topic_values =>
              match hash_all topic_values with
              | Raise e => Raise e
              | Ok topic_keys =>
                  Ok (Some
                    {| total_articles := len all_articles;
                       total_categories := len (set_iter str_eqb (map category all_articles));
                       avg_word_count := average_word_count all_articles;
                       global_sentiment := sentiment_dist;
                       unique_topics := len (set_iter hkey_eqb topic_keys);
                       all_topics := firstn 20 (set_iter hkey_eqb topic_keys) |})
              end
          end
      end
  end.

(** ** [crawl_all_content] *)

Record category_statistics : Type := {
  category_avg_word_count : average;
  sentiment_distribution : dict nat;
  top_topics : list (hkey * nat)
}.

Record category_data : Type := {
  category_name : str;
  category_total_articles : nat;
  articles_of : list article;
  statistics : category_statistics
}.

(** The statistics of one category, as the dictionary literal evaluates
    them. *)
Definition category_statistics_of (processed_articles : list article)
  : result category_statistics :=
  match calculate_sentiment_distribution processed_articles with
  | Raise e => Raise e
  | Ok distribution =>
      match extract_top_topics processed_articles with
      | Raise e => Raise e
      | Ok top =>
          Ok {| category_avg_word_count := average_word_count processed_articles;
                sentiment_distribution := distribution;
                top_topics := top |}
      end
  end.

(** The body of the [try] in the loop over categories.  [Ok None]: nothing
    was stored for the category. *)
Definition process_category (category0 : str) (urls : list str)
  : result (option category_data) :=
  match discover_article_urls urls 5 with
  | [] => Ok None
  | (_ :: _) as article_urls =>
      match extract_content_direct article_urls with
      | [] => Ok None
      | (_ :: _) as articles =>
          let processed_articles := process_articles_parallel articles in
          match category_statistics_of processed_articles with
          | Raise e => Raise e
          | Ok stats =>
              Ok (Some {| category_name := category0;
                          category_total_articles := len processed_articles;
                          articles_of := processed_articles;
                          statistics := stats |})
          end
      end
  end.

Definition url_patterns : dict (list str) :=
  [ (lit "world", map lit [ "https://www.theguardian.com/world";
                            "https://www.theguardian.com/world/europe-news";
                            "https://www.theguardian.com/world/americas";
                            "https://www.theguardian.com/world/asia-pacific" ]%string);
    (lit "uk", map lit [ "https://www.theguardian.com/uk-news";
                         "https://www.theguardian.com/politics";
                         "https://www.theguardian.com/society" ]%string);
    (lit "business", map lit [ "https://www.theguardian.com/business";
                               "https://www.theguardian.com/business/economics";
                               "https://www.theguardian.com/technology" ]%string);
    (lit "environment", map lit [ "https://www.theguardian.com/environment";
                                  "https://www.theguardian.com/environment/climate-change" ]%string);
    (lit "science", map lit [ "https://www.theguardian.com/science";
                              "https://www.theguardian.com/science/medical-research" ]%string);
    (lit "culture", map lit [ "https://www.theguardian.com/culture";
                              "https://www.theguardian.com/film";
                              "https://www.theguardian.com/books" ]%string);
    (lit "sport", map lit [ "https://www.theguardian.com/sport";
                            "https://www.theguardian.com/football" ]%string) ].

Record crawl_data : Type := {
  categories : dict category_data;
  crawl_summary : option summary_stats;
  all_articles : list article;
  success : bool
}.

(** [for category, urls in self.url_patterns.items()]: a category whose
    processing raises is skipped. *)
Fixpoint crawl_categories (patterns : dict (list str))
    (stored : dict category_data) (total : list article)
  : dict category_data * list article :=
  match patterns with
  | [] => (stored, total)
  | (category0, urls) :: rest =>
      match process_category category0 urls with
      | Ok (Some data) =>
          crawl_categories rest (set_by str_eqb stored category0 data)
                           (total ++ articles_of data)
      | Ok None | Raise _ => crawl_categories rest stored total
      end
  end.

Definition crawl_all_content : result crawl_data :=
  let '(stored, total) := crawl_categories url_patterns [] [] in
  match generate_summary total with
  | Raise e => Raise e
  | Ok summary0 =>
      Ok {| categories := stored;
            crawl_summary := summary0;
            all_articles := total;
            success := 0 <? len total |}
  end.

(** ** Enrichment never raises and falls back in three steps *)

(** C5.  For every content string and category the enrichment call returns
    a value, never an exception.  When the stripped reply starts with an
    opening brace and [json.loads] parses it, the value is that object (the
    direct parse).  When the direct parse fails (the reply does not start
    with an opening brace, or [json.loads] raises on it), and [re.search]
    finds an embedded [{...}] that [json.loads] parses, the value is that
    object.  When both fail, or the model call itself raises, the value is
    the fixed default object. *)
Theorem analyze_with_ollama_fast_never_raises (content0 category0 : str) :
  exists v,
    analyze_with_ollama_fast content0 category0 = Ok v /\
    (forall e, chat (prompt_for content0 category0) = Raise e -> v = default_analysis) /\
    (forall response,
        chat (prompt_for content0 category0) = Ok response ->
        let response_text := strip response in
        let direct_failed :=
          startswith [open_brace] response_text = false \/
          exists e, json_loads response_text = Raise e in
        (forall parsed,
            startswith [open_brace] response_text = true ->
            json_loads response_text = Ok parsed ->
            v = parsed) /\
        (forall json_match parsed,
            direct_failed ->
            re_search_object response_text = Some json_match ->
            json_loads json_match = Ok parsed ->
            v = parsed) /\
        (direct_failed ->
         re_search_object response_text = None \/
         (exists json_match e,
             re_search_object response_text = Some json_match /\
             json_loads json_match = Raise e) ->
         v = default_analysis)) /\
    default_analysis
    = VDict [ (lit "headline", VStr (lit "Analysis failed"));
              (lit "summary", VStr (lit "Could not analyze content"));
              (lit "key_topics", VList []);
              (lit "sentiment", VStr (lit "neutral"));
              (lit "urgency", VStr (lit "medium")) ].
Proof.
  unfold analyze_with_ollama_fast, analysis_attempt, direct_parse, embedded_parse.
  destruct (chat (prompt_for content0 category0)) as [response|e0].
  2:{ exists default_analysis. split; [reflexivity|]. split; [reflexivity|].
      split; [discriminate | reflexivity]. }
  assert (Hcases :
            (exists parsed,
                startswith [open_brace] (strip response) = true /\
                json_loads (strip response) = Ok parsed) \/
            (startswith [open_brace] (strip response) = false \/
             exists e, json_loads (strip response) = Raise e)).
  { destruct (startswith [open_brace] (strip response)); [|now right; left].
    destruct (json_loads (strip response)) as [parsed|e]; [left | right; right]; eauto. }
  destruct Hcases as [(parsed & Hs & Hj)|Hfailed].
  - rewrite Hs, Hj. exists parsed. split; [reflexivity|]. split; [discriminate|].
    split; [|reflexivity]. intros r [= <-]. cbv zeta. split; [|split].
    + intros p _ Hp. congruence.
    + intros m p [Hf|[e Hf]]; congruence.
    + intros [Hf|[e Hf]]; congruence.
  - assert (Hdirect :
              (if startswith [open_brace] (strip response)
               then match json_loads (strip response) with
                    | Ok v => Some v
                    | Raise _ => None
                    end
               else None) = None).
    { destruct Hfailed as [->|[e ->]]; [reflexivity|].
      now destruct (startswith [open_brace] (strip response)). }
    rewrite Hdirect.
    destruct (re_search_object (strip response)) as [json_match|] eqn:Er.
    + destruct (json_loads json_match) as [parsed|e1] eqn:Ej.
      * exists parsed. split; [reflexivity|]. split; [discriminate|].
        split; [|reflexivity]. intros r [= <-]. cbv zeta. split; [|split].
        -- intros p Hs Hp. destruct Hfailed as [Hf|[e Hf]]; congruence.
        -- intros m p _ Hm Hp. congruence.
        -- intros _ [Hn|(m & e & Hm & He)]; congruence.
      * exists default_analysis. split; [reflexivity|]. split; [reflexivity|].
        split; [|reflexivity]. intros r [= <-]. cbv zeta. split; [|split].
        -- intros p Hs Hp. destruct Hfailed as [Hf|[e Hf]]; congruence.
        -- intros m p _ Hm Hp. congruence.
        -- reflexivity.
    + exists default_analysis. split; [reflexivity|]. split; [reflexivity|].
      split; [|reflexivity]. intros r [= <-]. cbv zeta. split; [|split].
      * intros p Hs Hp. destruct Hfailed as [Hf|[e Hf]]; congruence.
      * intros m p _ Hm. congruence.
      * reflexivity.
Qed.

Lemma analyze_with_ollama_fast_ok (content0 category0 : str) :
  exists v, analyze_with_ollama_fast content0 category0 = Ok v.
Proof.
  unfold analyze_with_ollama_fast.
  destruct (analysis_attempt content0 category0) as [[v|]|e]; eauto.
Qed.

(** The analysis of a dictionary fills every field. *)
Lemma merge_analysis_dict (a : article) (fields : dict value) :
  let a' := fst (merge_analysis a (VDict fields)) in
  ai_analysis a' = Some (VDict fields) /\
  summary a' = Some (get fields (lit "summary") (VStr [])) /\
  topics a' = Some (get fields (lit "key_topics") (VList [])) /\
  sentiment a' = Some (get fields (lit "sentiment") (VStr (lit "neutral"))) /\
  urgency a' = Some (get fields (lit "urgency") (VStr (lit "medium"))) /\
  content a' = content a /\ url a' = url a /\ category a' = category a /\
  word_count a' = word_count a.
Proof.
  unfold merge_analysis, analysis_get. simpl.
  destruct (truthy (title a)); simpl.
  - repeat split.
  - destruct (truthy (get fields (lit "headline") VNone)); simpl; repeat split.
Qed.

(** Whatever the analysis is, the extracted fields stay as they were. *)
Lemma merge_analysis_keeps (a : article) (analysis : value) :
  let a' := fst (merge_analysis a analysis) in
  content a' = content a /\ url a' = url a /\ category a' = category a /\
  word_count a' = word_count a.
Proof.
  unfold merge_analysis, analysis_get.
  destruct analysis as [| b | n | s | items | fields]; simpl;
    destruct (truthy (title a)); simpl;
    try destruct (truthy (get fields (lit "headline") VNone)); simpl;
    repeat split.
Qed.

Lemma analyze_single_article_keeps (a : article) :
  content (analyze_single_article a) = content a /\
  url (analyze_single_article a) = url a /\
  category (analyze_single_article a) = category a /\
  word_count (analyze_single_article a) = word_count a.
Proof.
  unfold analyze_single_article.
  destruct (analyze_with_ollama_fast (content a) (category a)) as [analysis|e].
  - apply merge_analysis_keeps.
  - repeat split.
Qed.

(** C6, as the code has it.  The sentiment and the urgency of an enriched
    article are whatever the analysis object holds under [sentiment] and
    [urgency], with [neutral] and [medium] standing in for a missing key:
    nothing checks them against the two enumerations.  They are [neutral]
    and [medium] whenever the analysis is the default object. *)
Theorem analyze_single_article_copies_fields (a : article) :
  exists analysis,
    analyze_with_ollama_fast (content a) (category a) = Ok analysis /\
    match analysis with
    | VDict fields =>
        sentiment (analyze_single_article a)
        = Some (get fields (lit "sentiment") (VStr (lit "neutral"))) /\
        urgency (analyze_single_article a)
        = Some (get fields (lit "urgency") (VStr (lit "medium")))
    | _ =>
        sentiment (analyze_single_article a) = sentiment a /\
        urgency (analyze_single_article a) = urgency a
    end /\
    (analysis = default_analysis ->
       sentiment (analyze_single_article a) = Some (VStr (lit "neutral")) /\
       urgency (analyze_single_article a) = Some (VStr (lit "medium"))).
Proof.
  destruct (analyze_with_ollama_fast_ok (content a) (category a)) as (analysis & Ha).
  exists analysis. split; [exact Ha|].
  unfold analyze_single_article. rewrite Ha.
  split.
  - destruct analysis as [| b | n | s | items | fields];
      [ | | | | | pose proof (merge_analysis_dict a fields) as H; cbv zeta in H;
                  destruct H as (_ & _ & _ & Hs & Hu & _); split; [exact Hs | exact Hu] ];
      unfold merge_analysis, analysis_get; simpl;
      destruct (truthy (title a)); simpl; split; reflexivity.
  - intros ->. unfold default_analysis.
    pose proof (merge_analysis_dict a
      [ (lit "headline", VStr (lit "Analysis failed"));
        (lit "summary", VStr (lit "Could not analyze content"));
        (lit "key_topics", VList []);
        (lit "sentiment", VStr (lit "neutral"));
        (lit "urgency", VStr (lit "medium")) ]) as H.
    cbv zeta in H. destruct H as (_ & _ & _ & Hs & Hu & _).
    split; [exact Hs | exact Hu].
Qed.

(** ** Extraction drops short content *)

Lemma extract_single_article_some (url0 : str) (a : article) :
  extract_single_article url0 = Some a ->
  exists page,
    http_get url0 20 = Ok page /\
    100 <= len (joined_content page) /\
    url a = url0 /\
    content a = firstn 3000 (joined_content page).
Proof.
  unfold extract_single_article.
  destruct (http_get url0 20) as [page|e]; [|discriminate].
  destruct (Nat.ltb_spec (len (joined_content page)) 100); [discriminate|].
  intros [= <-]. exists page. simpl. repeat split. assumption.
Qed.

Section Completion.

(** The futures of a pool complete in some order: every one of them, once. *)
Hypothesis as_completed_perm :
  forall (A : Type) (l : list A), Permutation (as_completed l) l.

Lemma in_as_completed {A} (l : list A) (x : A) : In x (as_completed l) <-> In x l.
Proof.
  split; apply Permutation_in; [|symmetry]; apply as_completed_perm.
Qed.

Lemma in_extract_content_direct (urls : list str) (a : article) :
  In a (extract_content_direct urls) <->
  exists url0, In url0 urls /\ extract_single_article url0 = Some a.
Proof.
  unfold extract_content_direct. rewrite in_flat_map. split.
  - intros ([a'|] & Hin & Ha); [|destruct Ha].
    destruct Ha as [<-|[]].
    apply in_as_completed, in_map_iff in Hin.
    destruct Hin as (url0 & He & Hu). eauto.
  - intros (url0 & Hu & He). exists (Some a). split; [|now left].
    apply in_as_completed, in_map_iff. eauto.
Qed.

(** C4.  When the joined content of a page is shorter than 100 code points
    [extract_single_article] returns [None], and its URL contributes
    nothing to what extraction hands on.  Every article extraction hands on
    comes from a page whose joined content has at least 100 code points and
    carries the first 3000 of them; enrichment is run on those articles only
    and leaves their content as it is, so every enriched article has a
    content of at least 100 code points. *)
Theorem short_content_never_enriched :
  (forall url0 page,
      http_get url0 20 = Ok page ->
      len (joined_content page) < 100 ->
      extract_single_article url0 = None) /\
  (forall urls a,
      In a (extract_content_direct urls) ->
      exists page,
        In (url a) urls /\ http_get (url a) 20 = Ok page /\
        100 <= len (joined_content page) /\
        content a = firstn 3000 (joined_content page) /\
        100 <= len (content a)) /\
  (forall urls enriched,
      In enriched (process_articles_parallel (extract_content_direct urls)) ->
      exists a,
        In a (extract_content_direct urls) /\
        enriched = analyze_single_article a /\
        content enriched = content a /\
        100 <= len (content enriched)) /\
  (forall category0 urls data,
      process_category category0 urls = Ok (Some data) ->
      forall enriched, In enriched (articles_of data) -> 100 <= len (content enriched)).
Proof.
  assert (Hextract : forall urls a,
      In a (extract_content_direct urls) ->
      exists page,
        In (url a) urls /\ http_get (url a) 20 = Ok page /\
        100 <= len (joined_content page) /\
        content a = firstn 3000 (joined_content page) /\
        100 <= len (content a)).
  { intros urls a Hin. apply in_extract_content_direct in Hin.
    destruct Hin as (url0 & Hu & He).
    destruct (extract_single_article_some _ He) as (page & Hget & Hlen & Hurl & Hc).
    exists page. rewrite Hurl. repeat split; try assumption.
    rewrite Hc, length_firstn. lia. }
  assert (Henriched : forall urls enriched,
      In enriched (process_articles_parallel (extract_content_direct urls)) ->
      exists a,
        In a (extract_content_direct urls) /\
        enriched = analyze_single_article a /\
        content enriched = content a /\
        100 <= len (content enriched)).
  { intros urls enriched Hin. unfold process_articles_parallel in Hin.
    apply in_as_completed, in_map_iff in Hin. destruct Hin as (a & <- & Ha).
    exists a. destruct (analyze_single_article_keeps a) as (Hc & _).
    repeat split; try assumption.
    rewrite Hc. destruct (Hextract urls a Ha) as (page & _ & _ & _ & _ & Hlen). exact Hlen. }
  split; [|split; [exact Hextract|split; [exact Henriched|]]].
  - intros url0 page Hget Hshort. unfold extract_single_article. rewrite Hget.
    apply Nat.ltb_lt in Hshort. now rewrite Hshort.
  - intros category0 urls data. unfold process_category.
    destruct (discover_article_urls urls 5) as [|u article_urls]; [discriminate|].
    destruct (extract_content_direct (u :: article_urls)) as [|a articles] eqn:E;
      [discriminate|].
    destruct (category_statistics_of _) as [stats|e]; [|discriminate].
    intros [= <-] enriched Hin. simpl in Hin. rewrite <- E in Hin.
    destruct (Henriched _ _ Hin) as (a' & _ & _ & _ & Hlen). exact Hlen.
Qed.

(** ** Discovery returns each URL once *)

(** [list(set(l))] for strings: the distinct members of [l], each once. *)
Hypothesis set_iter_NoDup : forall l : list str, NoDup (set_iter str_eqb l).
Hypothesis set_iter_In : forall (l : list str) (x : str), In x (set_iter str_eqb l) <-> In x l.

Definition str_eq_dec : forall a b : str, {a = b} + {a <> b} := list_eq_dec N.eq_dec.

(** C7.  The list discovery returns has no duplicate, and holds exactly the
    URLs that some seed surfaced; a URL that two seeds both surface is in it
    once. *)
Theorem discover_article_urls_dedupes (base_urls : list str) (max_per_category : Z) :
  NoDup (discover_article_urls base_urls max_per_category) /\
  (forall u,
      In u (discover_article_urls base_urls max_per_category) <->
      exists seed, In seed base_urls /\ In u (fetch_single_category max_per_category seed)) /\
  (forall u seed1 seed2,
      In seed1 base_urls -> In seed2 base_urls ->
      In u (fetch_single_category max_per_category seed1) ->
      In u (fetch_single_category max_per_category seed2) ->
      count_occ str_eq_dec (discover_article_urls base_urls max_per_category) u = 1).
Proof.
  assert (Hin : forall u,
      In u (discover_article_urls base_urls max_per_category) <->
      exists seed, In seed base_urls /\ In u (fetch_single_category max_per_category seed)).
  { intros u. unfold discover_article_urls. rewrite set_iter_In, in_concat. split.
    - intros (found & Hf & Hu). apply in_as_completed, in_map_iff in Hf.
      destruct Hf as (seed & <- & Hs). eauto.
    - intros (seed & Hs & Hu). exists (fetch_single_category max_per_category seed).
      split; [|exact Hu]. apply in_as_completed, in_map_iff. eauto. }
  assert (Hnd : NoDup (discover_article_urls base_urls max_per_category))
    by apply set_iter_NoDup.
  split; [exact Hnd|]. split; [exact Hin|].
  intros u seed1 seed2 H1 _ Hu _.
  apply NoDup_count_occ'; [exact Hnd|]. apply Hin. eauto.
Qed.

End Completion.

(** ** The top topics *)

Lemma hkey_eqb_refl (x : hkey) : hkey_eqb x x = true.
Proof.
  destruct x as [| b | n | s]; simpl.
  - reflexivity.
  - apply Z.eqb_refl.
  - apply Z.eqb_refl.
  - apply str_eqb_refl.
Qed.

Lemma str_eqb_sym (a b : str) : str_eqb a b = str_eqb b a.
Proof.
  destruct (str_eqb a b) eqn:E.
  - apply str_eqb_eq in E as ->. symmetry. apply str_eqb_refl.
  - destruct (str_eqb b a) eqn:E'; [|reflexivity].
    apply str_eqb_eq in E' as ->. now rewrite str_eqb_refl in E.
Qed.

Lemma hkey_eqb_sym (x y : hkey) : hkey_eqb x y = hkey_eqb y x.
Proof.
  destruct x as [| b | n | s], y as [| b' | n' | s']; simpl;
    try reflexivity; try apply Z.eqb_sym.
  apply str_eqb_sym.
Qed.

Lemma hkey_eqb_trans (x y z : hkey) :
  hkey_eqb x y = true -> hkey_eqb y z = true -> hkey_eqb x z = true.
Proof.
  destruct x as [| b | n | s], y as [| b' | n' | s'], z as [| b'' | n'' | s'']; simpl;
    try discriminate; try reflexivity;
    rewrite ?Z.eqb_eq, ?str_eqb_eq; congruence.
Qed.

(** The key sequence [extract_top_topics] counts: the topics of the
    articles, in order, each hashed. *)
Definition topic_keys (articles : list article) : result (list hkey) :=
  match extend_topics articles [] with
  | Raise e => Raise e
  | Ok topic_values => hash_all topic_values
  end.

Lemma count_topics_tally (vs : list value) (d : list (hkey * nat)) :
  match hash_all vs with
  | Ok ks => count_topics vs d = Ok (tally hkey_eqb ks d)
  | Raise _ => exists e, count_topics vs d = Raise e
  end.
Proof.
  revert d. induction vs as [|v vs IH]; intros d; simpl; [reflexivity|].
  destruct (to_hkey v) as [k|e]; [|eauto].
  specialize (IH (set_by hkey_eqb d k (get_by hkey_eqb d k 0 + 1))).
  destruct (hash_all vs) as [ks|e]; exact IH.
Qed.

Lemma occurrences_in (x : hkey) (ks : list hkey) :
  In x ks -> 0 < occurrences hkey_eqb x ks.
Proof.
  induction ks as [|k ks IH]; simpl; [tauto|].
  intros [->|H]; [rewrite hkey_eqb_refl; lia | apply IH in H; lia].
Qed.

(** An article whose topics, if it has any, are a list of strings. *)
Definition topics_are_strings (a : article) : Prop :=
  topics a = None \/ exists l, topics a = Some (VList (map VStr l)).

Lemma extend_topics_strings (articles : list article) (acc : list str) :
  (forall a, In a articles -> topics_are_strings a) ->
  exists l, extend_topics articles (map VStr acc) = Ok (map VStr l).
Proof.
  revert acc. induction articles as [|a articles IH]; intros acc H; simpl.
  - now exists acc.
  - destruct (H a (or_introl eq_refl)) as [-> | (l & ->)]; simpl.
    + rewrite app_nil_r. apply IH. intros; apply H; now right.
    + rewrite <- map_app. apply IH. intros; apply H; now right.
Qed.

Lemma hash_all_strings (l : list str) : hash_all (map VStr l) = Ok (map HStr l).
Proof. induction l as [|s l IH]; simpl; [reflexivity | now rewrite IH]. Qed.

Lemma extract_top_topics_total (articles : list article) :
  (forall a, In a articles -> topics_are_strings a) ->
  exists top, extract_top_topics articles = Ok top.
Proof.
  intros Hs. unfold extract_top_topics.
  destruct (extend_topics_strings articles [] Hs) as (l & Hl). simpl in Hl. rewrite Hl.
  pose proof (count_topics_tally (map VStr l) []) as Hc.
  rewrite hash_all_strings in Hc. rewrite Hc. eauto.
Qed.

(** C8.  Whenever [extract_top_topics] returns, what it returns is the
    first ten entries of the ranking of the distinct topics: at most ten
    (topic, count) pairs, each count the number of occurrences of the topic
    in the articles' topic lists read in order, a larger count before a
    smaller one and, among equal counts, the topic that was seen first
    before the other.  It does return when the topics of every article are
    a list of strings. *)
Theorem extract_top_topics_ranked (articles : list article) :
  ((forall a, In a articles -> topics_are_strings a) ->
   exists top, extract_top_topics articles = Ok top) /\
  (forall top,
      extract_top_topics articles = Ok top ->
      exists keys ranking,
        topic_keys articles = Ok keys /\
        top = firstn 10 ranking /\
        len top <= 10 /\
        StronglySorted (ranks_before hkey_eqb keys) top /\
        StronglySorted (ranks_before hkey_eqb keys) ranking /\
        (forall k c, In (k, c) ranking -> c = occurrences hkey_eqb k keys /\ 0 < c) /\
        (forall x, In x keys -> exists k c, In (k, c) ranking /\ hkey_eqb x k = true)).
Proof.
  split.
  - apply extract_top_topics_total.
  - intros top. unfold extract_top_topics, topic_keys.
    destruct (extend_topics articles []) as [vs|e]; [|discriminate].
    pose proof (count_topics_tally vs []) as Hc.
    destruct (hash_all vs) as [keys|e].
    2:{ destruct Hc as (e' & ->). discriminate. }
    rewrite Hc. intros Htop.
    assert (top = firstn 10 (sorted_by_count_desc (tally hkey_eqb keys []))) as ->
      by congruence.
    clear Htop.
    pose proof (counted_tally hkey_eqb_refl hkey_eqb_sym hkey_eqb_trans keys
                  (counted_nil hkey_eqb)) as W. simpl in W.
    pose proof (sorted_by_count_desc_ranked hkey_eqb keys (tally hkey_eqb keys [])
                  (counted_order W)) as S.
    exists keys, (sorted_by_count_desc (tally hkey_eqb keys [])).
    split; [reflexivity|]. split; [reflexivity|].
    split; [apply firstn_le_length|].
    split; [now apply StronglySorted_firstn|].
    split; [exact S|].
    split.
    + intros k c H.
      apply (Permutation_in _ (sorted_by_count_desc_perm _)) in H.
      pose proof (counted_counts W) as Hall. rewrite Forall_forall in Hall.
      apply (Hall _ H).
    + intros x Hx. destruct (counted_all W x (occurrences_in _ _ Hx)) as ([k c] & Hin & Hk).
      exists k, c. split; [|exact Hk].
      apply (Permutation_in _ (Permutation_sym (sorted_by_count_desc_perm _))), Hin.
Qed.

(** ** Aggregation run twice *)

(** An enriched article as the data model has it: the topics, when present,
    are a list of strings and the sentiment, when present, is a string. *)
Definition well_typed (a : article) : Prop :=
  topics_are_strings a /\ (sentiment a = None \/ exists s, sentiment a = Some (VStr s)).

Lemma count_sentiments_strings (l : list str) (distribution : dict nat) :
  exists distribution', count_sentiments (map VStr l) distribution = Ok distribution'.
Proof.
  revert distribution. induction l as [|s l IH]; intros distribution; simpl; [eauto|].
  unfold count_sentiment. simpl. destruct (lookup s distribution); apply IH.
Qed.

Lemma sentiments_strings (f : article -> list value) (articles : list article) :
  (forall a, In a articles -> exists l, f a = map VStr l) ->
  exists l, flat_map f articles = map VStr l.
Proof.
  induction articles as [|a articles IH]; intros H; simpl; [now exists []|].
  destruct (H a (or_introl eq_refl)) as (l1 & ->).
  destruct IH as (l2 & ->); [intros; apply H; now right|].
  exists (l1 ++ l2). now rewrite map_app.
Qed.

Lemma calculate_sentiment_distribution_total (articles : list article) :
  (forall a, In a articles -> well_typed a) ->
  exists distribution, calculate_sentiment_distribution articles = Ok distribution.
Proof.
  intros H. unfold calculate_sentiment_distribution.
  match goal with |- context [flat_map ?f articles] =>
    destruct (sentiments_strings f articles) as (l & ->) end.
  - intros a Ha. destruct (H a Ha) as [_ [-> | (s & ->)]].
    + now exists [].
    + destruct (truthy (VStr s)); [now exists [s] | now exists []].
  - apply count_sentiments_strings.
Qed.


Lemma generate_summary_total (articles : list article) :
  (forall a, In a articles -> well_typed a) ->
  exists summary0, generate_summary articles = Ok summary0.
Proof.
  intros H. unfold generate_summary.
  destruct articles as [|a0 rest] eqn:E; [eauto|]. rewrite <- E in *. clear E a0 rest.
  assert (Hs : exists l,
             map (fun a => match sentiment a with
                           | Some v => v
                           | None => VStr (lit "neutral")
                           end) articles = map VStr l).
  { clear -H. induction articles as [|a articles IH]; simpl; [now exists []|].
    destruct IH as (l & ->); [intros; apply H; now right|].
    destruct (H a (or_introl eq_refl)) as [_ [-> | (s & ->)]].
    - now exists (lit "neutral" :: l).
    - now exists (s :: l). }
  destruct Hs as (l & ->).
  destruct (count_sentiments_strings l empty_distribution) as (distribution & ->).
  destruct (extend_topics_strings articles []) as (ts & Hts).
  { intros a Ha. apply (H a Ha). }
  simpl in Hts. rewrite Hts, hash_all_strings. eauto.
Qed.

(** ** More about discovery and extraction *)

Lemma in_slice_list {A} (n : Z) (l : list A) (x : A) : In x (slice_list n l) -> In x l.
Proof.
  unfold slice_list. destruct (0 <=? n)%Z; apply in_firstn.
Qed.

Lemma length_slice_list {A} (n : Z) (l : list A) :
  (0 <= n)%Z -> len (slice_list n l) <= Z.to_nat n.
Proof.
  intros H. unfold slice_list. apply Z.leb_le in H. rewrite H. apply firstn_le_length.
Qed.

(** An accepted URL names the Guardian, matches a content pattern and,
    in lower case, no excluded pattern. *)
Lemma is_valid_article_url_true (u : str) :
  is_valid_article_url u = true ->
  u <> [] /\
  contains (lit "theguardian.com") u = true /\
  (forall pattern, In pattern exclude_patterns -> contains pattern (lower u) = false) /\
  (exists pattern, In pattern valid_patterns /\ contains pattern u = true).
Proof.
  unfold is_valid_article_url. intros Hv.
  destruct (is_empty u) eqn:Eu; cbn [orb negb] in Hv; [discriminate Hv|].
  destruct (contains (lit "theguardian.com") u) eqn:Eg; cbn [orb negb] in Hv;
    [|discriminate Hv].
  destruct (existsb (fun pattern => contains pattern (lower u)) exclude_patterns) eqn:Ex;
    [discriminate Hv|]. split; [now destruct u|]. split; [reflexivity|]. split.
  - intros pattern Hin. destruct (contains pattern (lower u)) eqn:E; [|reflexivity].
    assert (existsb (fun pattern => contains pattern (lower u)) exclude_patterns = true)
      by (apply existsb_exists; eauto).
    congruence.
  - apply existsb_exists in Hv. exact Hv.
Qed.

(** ** The category of an accepted URL *)

(** X6.  The content patterns of [is_valid_article_url] other than the two
    years are all paths that [categorize_url] knows: an accepted URL is never
    categorised [unknown], and it is categorised [general] only if it
    contains [/2024/] or [/2025/]. *)
Theorem accepted_url_is_categorised (u : str) :
  is_valid_article_url u = true ->
  categorize_url u <> lit "unknown" /\
  (categorize_url u = lit "general" ->
   contains (lit "/2024/") u = true \/ contains (lit "/2025/") u = true).
Proof.
  intros Hv. apply is_valid_article_url_true in Hv as (Hne & _ & _ & pattern & Hp & Hc).
  assert (He : is_empty u = false) by (destruct u; [contradiction | reflexivity]).
  split.
  - unfold categorize_url. rewrite He.
    repeat match goal with
           | |- context [if ?c then _ else _] => destruct c
           end;
      intros H; vm_compute in H; discriminate H.
  - cbn [valid_patterns map In] in Hp.
    destruct Hp as [<-|[<-|Hp]]; [auto | auto |].
    unfold categorize_url. rewrite He.
    repeat match goal with
           | |- context [if ?c then _ else _] => destruct c eqn:?
           end;
      try (intros H; vm_compute in H; discriminate H).
    repeat match goal with
           | H : _ || _ = false |- _ => apply orb_false_iff in H as [? ?]
           end.
    repeat (destruct Hp as [<-|Hp]; [congruence|]). destruct Hp.
Qed.

(** [u] is what a link of [links] joins to, and it is an accepted URL. *)
Definition linked (url0 : str) (links : list element) (u : str) : Prop :=
  is_valid_article_url u = true /\
  exists link h,
    In link links /\ href link = Some h /\ h <> [] /\ urljoin url0 h = Ok u.

Lemma add_links_linked (url0 : str) (links : list element) (found found' : list str) :
  add_links url0 links found = Ok found' ->
  forall u, In u found' -> In u found \/ linked url0 links u.
Proof.
  revert found. induction links as [|link rest IH]; intros found; simpl.
  - intros [= <-]. auto.
  - assert (Hrest : forall acc,
              add_links url0 rest acc = Ok found' ->
              (forall u, In u acc -> In u found \/ linked url0 (link :: rest) u) ->
              forall u, In u found' -> In u found \/ linked url0 (link :: rest) u).
    { intros acc Ha Hacc u Hu. destruct (IH acc Ha u Hu) as [H|(Hv & l & h & Hl & Hh)].
      - auto.
      - right. split; [exact Hv|]. exists l, h. split; [now right | exact Hh]. }
    destruct (href link) as [h|] eqn:Eh; [|intros H; apply (Hrest found H); auto].
    destruct (is_empty h) eqn:Ee; [intros H; apply (Hrest found H); auto|].
    destruct (urljoin url0 h) as [full_url|e] eqn:Ej; [|discriminate].
    destruct (is_valid_article_url full_url) eqn:Ev.
    + intros H. apply (Hrest _ H). intros u Hu.
      apply in_app_or in Hu as [Hu|[<-|[]]]; [auto|].
      right. split; [exact Ev|]. exists link, h.
      split; [now left|]. split; [exact Eh|]. split; [now destruct h | exact Ej].
    + intros H. apply (Hrest found H); auto.
Qed.

(** [u] is an accepted URL that a link of the page of [seed] joins to. *)
Definition surfaced (seed u : str) : Prop :=
  exists page selector,
    http_get seed 15 = Ok page /\ In selector link_selectors /\
    linked seed (page selector) u.

Lemma scan_selectors_linked (url0 : str) (page : soup) (selectors : list str)
    (found found' : list str) :
  scan_selectors url0 page selectors found = Ok found' ->
  forall u, In u found' ->
    In u found \/ exists selector, In selector selectors /\ linked url0 (page selector) u.
Proof.
  revert found. induction selectors as [|selector rest IH]; intros found; simpl.
  - intros [= <-]. auto.
  - destruct (add_links url0 (page selector) found) as [found1|e] eqn:Ea; [|discriminate].
    intros H u Hu. destruct (IH found1 H u Hu) as [Hin|(s & Hs & Hl)].
    + destruct (add_links_linked _ _ _ Ea u Hin) as [Hf|Hl]; [auto|].
      right. exists selector. split; [now left | exact Hl].
    + right. exists s. split; [now right | exact Hl].
Qed.

Lemma length_concat_bound {A} (ls : list (list A)) (n : nat) :
  Forall (fun l => len l <= n) ls -> len (concat ls) <= len ls * n.
Proof.
  induction 1 as [|l ls Hl _ IH]; simpl; [lia|]. rewrite length_app. lia.
Qed.

Lemma mem_In (text : str) (l : list str) : mem text l = true <-> In text l.
Proof.
  unfold mem. rewrite existsb_exists. split.
  - intros (y & Hy & E). apply str_eqb_eq in E. now subst.
  - intros H. exists text. split; [exact H | apply str_eqb_refl].
Qed.

(** A paragraph the filter of [extract_single_article] lets through. *)
Definition content_paragraph (text : str) : Prop :=
  20 < len text /\
  startswith (lit "Guardian") text = false /\
  contains (lit "advertisement") (lower text) = false /\
  contains (lit "subscribe") (lower text) = false /\
  contains (lit "premium") (lower text) = false.

Lemma keep_paragraph_true (text : str) (content_parts : list str) :
  keep_paragraph text content_parts = true ->
  ~ In text content_parts /\ content_paragraph text.
Proof.
  unfold keep_paragraph, content_paragraph. rewrite !andb_true_iff, !negb_true_iff.
  intros [[[[[Hlen Hmem] Hg] Ha] Hs] Hp]. split.
  - intros Hin. apply mem_In in Hin. congruence.
  - apply Nat.ltb_lt in Hlen. auto.
Qed.

Lemma add_paragraphs_distinct (elements : list element) (content_parts : list str) :
  NoDup content_parts ->
  NoDup (add_paragraphs elements content_parts) /\
  (forall text, In text (add_paragraphs elements content_parts) ->
     In text content_parts \/
     (content_paragraph text /\ exists elem, In elem elements /\ get_text elem = text)).
Proof.
  revert content_parts. induction elements as [|elem rest IH]; intros content_parts Hnd; simpl.
  - auto.
  - destruct (keep_paragraph (get_text elem) content_parts) eqn:E.
    + apply keep_paragraph_true in E as [Hnew Hgood].
      destruct (IH (content_parts ++ [get_text elem])) as [Hnd' Hin'].
      { apply NoDup_app; [exact Hnd | repeat constructor; auto |].
        intros x Hx [<-|[]]. contradiction. }
      split; [exact Hnd'|]. intros text Ht.
      destruct (Hin' text Ht) as [H|(Hg & e & He & Hte)].
      * apply in_app_or in H as [H|[<-|[]]]; [auto|].
        right. split; [exact Hgood|]. exists elem. split; [now left | reflexivity].
      * right. split; [exact Hg|]. exists e. split; [now right | exact Hte].
    + destruct (IH content_parts Hnd) as [Hnd' Hin']. split; [exact Hnd'|].
      intros text Ht. destruct (Hin' text Ht) as [H|(Hg & e & He & Hte)]; [auto|].
      right. split; [exact Hg|]. exists e. split; [now right | exact Hte].
Qed.

Lemma gather_content_distinct (page : soup) (selectors : list str) (content_parts : list str) :
  NoDup content_parts ->
  NoDup (gather_content page selectors content_parts) /\
  (forall text, In text (gather_content page selectors content_parts) ->
     In text content_parts \/
     (content_paragraph text /\
      exists selector elem,
        In selector selectors /\ In elem (page selector) /\ get_text elem = text)).
Proof.
  revert content_parts. induction selectors as [|selector rest IH]; intros content_parts Hnd;
    cbn [gather_content].
  - auto.
  - destruct (add_paragraphs_distinct (page selector) Hnd) as [Hnd1 Hin1].
    assert (Hstep : forall text,
              In text (add_paragraphs (page selector) content_parts) ->
              In text content_parts \/
              (content_paragraph text /\
               exists s elem,
                 In s (selector :: rest) /\ In elem (page s) /\ get_text elem = text)).
    { intros text Ht. destruct (Hin1 text Ht) as [H|(Hg & e & He & Hte)]; [auto|].
      right. split; [exact Hg|]. exists selector, e. split; [now left | auto]. }
    destruct (5 <=? len (add_paragraphs (page selector) content_parts)).
    + split; [exact Hnd1 | exact Hstep].
    + destruct (IH _ Hnd1) as [Hnd2 Hin2]. split; [exact Hnd2|].
      intros text Ht. destruct (Hin2 text Ht) as [H|(Hg & s & e & Hs & He & Hte)].
      * apply Hstep, H.
      * right. split; [exact Hg|]. exists s, e. split; [now right | auto].
Qed.

(** X9.  The paragraphs that [extract_single_article] joins into the content
    of a page are pairwise distinct; each one is the text of an element one
    of the content selectors matched, is longer than 20 code points, does not
    start with [Guardian] and, in lower case, contains none of
    [advertisement], [subscribe] and [premium]. *)
Theorem gather_content_keeps_distinct_content_paragraphs (page : soup) :
  NoDup (gather_content page content_selectors []) /\
  (forall text,
      In text (gather_content page content_selectors []) ->
      content_paragraph text /\
      exists selector elem,
        In selector content_selectors /\ In elem (page selector) /\ get_text elem = text).
Proof.
  destruct (gather_content_distinct page content_selectors (NoDup_nil str)) as [Hnd Hin].
  split; [exact Hnd|]. intros text Ht. destruct (Hin text Ht) as [[]|H]. exact H.
Qed.

(** ** More about enrichment *)

(** X10.  An article that extraction hands on has a title that is a
    non-empty string (the page's, or [No title found]), so enrichment never
    replaces it: whatever the analysis holds under [headline], the title
    after [analyze_single_article] is the extracted one. *)
Theorem extracted_title_never_replaced (url0 : str) (a : article) :
  extract_single_article url0 = Some a ->
  (exists s, title a = VStr s /\ s <> []) /\
  (forall analysis, title (fst (merge_analysis a analysis)) = title a) /\
  title (analyze_single_article a) = title a.
Proof.
  intros He.
  assert (Ht : exists s, title a = VStr s /\ s <> []).
  { unfold extract_single_article in He.
    destruct (http_get url0 20) as [page|e]; [|discriminate].
    destruct (len (joined_content page) <? 100); [discriminate|].
    remember (pick_title page title_selectors) as title0 eqn:Et in He. clear Et.
    injection He as <-. cbn [title].
    destruct title0 as [|c s]; cbn [is_empty].
    - eexists. split; [reflexivity | intros H; vm_compute in H; discriminate H].
    - eexists. split; [reflexivity | discriminate]. }
  assert (Hm : forall analysis, title (fst (merge_analysis a analysis)) = title a).
  { intros analysis. destruct Ht as (s & Hs & Hne).
    assert (Htruthy : truthy (title (set_ai_analysis a analysis)) = true).
    { simpl. rewrite Hs. simpl. now destruct s. }
    unfold merge_analysis. rewrite Htruthy. unfold analysis_get.
    destruct analysis; reflexivity. }
  split; [exact Ht|]. split; [exact Hm|].
  unfold analyze_single_article.
  destruct (analyze_with_ollama_fast (content a) (category a)); [apply Hm | reflexivity].
Qed.

Lemma char_eqb_eq (a b : char) : char_eqb a b = true <-> a = b.
Proof. apply N.eqb_eq. Qed.

Lemma up_to_close_some (s m : str) :
  up_to_close s = Some m ->
  exists body post,
    s = body ++ close_brace :: post /\ m = body ++ [close_brace] /\ ~ In close_brace body.
Proof.
  revert m. induction s as [|c s IH]; intros m; simpl; [discriminate|].
  destruct (char_eqb c close_brace) eqn:E.
  - apply char_eqb_eq in E. subst c. intros [= <-]. exists [], s. simpl. auto.
  - destruct (up_to_close s) as [m'|]; [|discriminate]. simpl. intros [= <-].
    destruct (IH m' eq_refl) as (body & post & -> & -> & Hn).
    exists (c :: body), post. repeat split. intros [H|H]; [|contradiction].
    subst c. unfold char_eqb in E. now rewrite N.eqb_refl in E.
Qed.

Lemma up_to_close_none (s : str) : up_to_close s = None -> ~ In close_brace s.
Proof.
  induction s as [|c s IH]; simpl; [tauto|].
  destruct (char_eqb c close_brace) eqn:E; [discriminate|].
  destruct (up_to_close s); [discriminate|]. intros _ [H|H].
  - subst c. unfold char_eqb in E. now rewrite N.eqb_refl in E.
  - now apply IH.
Qed.

(** X11.  [re_search_object] finds the first opening brace and returns the
    text from it up to the first closing brace after it: the match holds no
    closing brace before its last code point (a nested object is cut at its
    first closing brace) and nothing before it is an opening brace.  It
    finds nothing exactly when no opening brace is followed by a closing
    one. *)
Theorem re_search_object_first_brace_pair (s : str) :
  match re_search_object s with
  | Some m =>
      exists pre body post,
        s = pre ++ open_brace :: body ++ close_brace :: post /\
        m = open_brace :: body ++ [close_brace] /\
        ~ In close_brace body /\ ~ In open_brace pre
  | None =>
      forall pre rest, s = pre ++ open_brace :: rest -> ~ In close_brace rest
  end.
Proof.
  induction s as [|c s IH].
  - simpl. intros [|x pre] rest H; discriminate H.
  - cbn [re_search_object match_object_here].
    destruct (char_eqb c open_brace) eqn:Ec.
    + apply char_eqb_eq in Ec. subst c.
      destruct (up_to_close s) as [m|] eqn:Eu; cbn [option_map].
      * destruct (up_to_close_some _ Eu) as (body & post & -> & -> & Hn).
        exists [], body, post. simpl. auto.
      * apply up_to_close_none in Eu.
        destruct (re_search_object s) as [m|].
        -- destruct IH as (pre & body & post & Hs & _).
           exfalso. apply Eu. rewrite Hs. apply in_or_app. right. right.
           apply in_or_app. right. now left.
        -- intros [|x pre] rest H.
           ++ injection H as <-. exact Eu.
           ++ injection H as _ ->. eapply IH. reflexivity.
    + destruct (re_search_object s) as [m|].
      * destruct IH as (pre & body & post & -> & -> & Hb & Hp).
        exists (c :: pre), body, post. repeat split; [exact Hb|].
        intros [H|H]; [|contradiction]. subst c.
        unfold char_eqb in Ec. now rewrite N.eqb_refl in Ec.
      * intros [|x pre] rest H.
        -- injection H as -> _. unfold char_eqb in Ec. now rewrite N.eqb_refl in Ec.
        -- injection H as _ ->. eapply IH. reflexivity.
Qed.

(** ** More about aggregation *)

(** A sentiment value that is the string [label]. *)
Definition is_label (label : str) (v : value) : bool :=
  match v with
  | VStr s => str_eqb s label
  | _ => false
  end.

(** A value [hash] raises on. *)
Definition unhashable (v : value) : bool :=
  match v with
  | VList _ | VDict _ => true
  | _ => false
  end.

Definition has_sentiment (label : str) (a : article) : bool :=
  match sentiment a with
  | Some v => is_label label v
  | None => false
  end.

Definition no_sentiment (a : article) : bool :=
  match sentiment a with
  | Some _ => false
  | None => true
  end.

(** The number of articles whose sentiment is the string [label]. *)
Definition tallied (label : str) (articles : list article) : nat :=
  len (filter (has_sentiment label) articles).

Definition distribution_of (positive negative neutral : nat) : dict nat :=
  [ (lit "positive", positive); (lit "negative", negative); (lit "neutral", neutral) ].

Lemma distribution_of_eq (p n u p' n' u' : nat) :
  p = p' -> n = n' -> u = u' ->
  @Ok (dict nat) (distribution_of p n u) = Ok (distribution_of p' n' u').
Proof. congruence. Qed.

Lemma count_sentiment_cases (v : value) (p n u : nat) :
  (unhashable v = true /\ exists e, count_sentiment (distribution_of p n u) v = Raise e) \/
  (unhashable v = false /\
   count_sentiment (distribution_of p n u) v
   = Ok (distribution_of (p + Nat.b2n (is_label (lit "positive") v))
                         (n + Nat.b2n (is_label (lit "negative") v))
                         (u + Nat.b2n (is_label (lit "neutral") v)))).
Proof.
  destruct v as [| b | z | s | items | fields];
    try (right; split; [reflexivity|]; unfold count_sentiment; simpl;
         now rewrite !Nat.add_0_r);
    try (left; split; [reflexivity|]; unfold count_sentiment; simpl; eauto).
  right. split; [reflexivity|].
  unfold count_sentiment, distribution_of, lookup. cbn [to_hkey lookup_by set_by is_label].
  destruct (str_eqb s (lit "positive")) eqn:E1.
  { apply str_eqb_eq in E1. subst s. cbn. now rewrite !Nat.add_0_r. }
  destruct (str_eqb s (lit "negative")) eqn:E2.
  { apply str_eqb_eq in E2. subst s. cbn. now rewrite !Nat.add_0_r. }
  destruct (str_eqb s (lit "neutral")) eqn:E3.
  { cbn [Nat.b2n]. now rewrite !Nat.add_0_r. }
  cbn. now rewrite !Nat.add_0_r.
Qed.

Definition labelled (label : str) (sentiments : list value) : nat :=
  len (filter (is_label label) sentiments).

Lemma count_sentiments_counts (sentiments : list value) (p n u : nat) :
  (Exists (fun v => unhashable v = true) sentiments /\
   exists e, count_sentiments sentiments (distribution_of p n u) = Raise e) \/
  (Forall (fun v => unhashable v = false) sentiments /\
   count_sentiments sentiments (distribution_of p n u)
   = Ok (distribution_of (p + labelled (lit "positive") sentiments)
                         (n + labelled (lit "negative") sentiments)
                         (u + labelled (lit "neutral") sentiments))).
Proof.
  revert p n u. induction sentiments as [|v rest IH]; intros p n u.
  - right. split; [constructor|]. unfold labelled. simpl. now rewrite !Nat.add_0_r.
  - cbn [count_sentiments].
    destruct (count_sentiment_cases v p n u) as [[Hv [e ->]]|[Hv ->]].
    + left. split; [now left | eauto].
    + destruct (IH (p + Nat.b2n (is_label (lit "positive") v))
                   (n + Nat.b2n (is_label (lit "negative") v))
                   (u + Nat.b2n (is_label (lit "neutral") v))) as [[Hx He]|[Hf ->]].
      * left. split; [now right | exact He].
      * right. split; [now constructor|]. unfold labelled. cbn [filter].
        destruct (is_label (lit "positive") v), (is_label (lit "negative") v),
          (is_label (lit "neutral") v); cbn [Nat.b2n Datatypes.length];
          apply distribution_of_eq; lia.
Qed.

Lemma labelled_truthy (label : str) (articles : list article) :
  label <> [] ->
  labelled label
    (flat_map (fun a => match sentiment a with
                        | Some v => if truthy v then [v] else []
                        | None => []
                        end) articles)
  = tallied label articles.
Proof.
  intros Hl. unfold labelled, tallied.
  induction articles as [|a articles IH]; [reflexivity|].
  cbn [flat_map filter]. rewrite filter_app, length_app, IH. unfold has_sentiment.
  destruct (sentiment a) as [v|]; [|reflexivity].
  destruct (is_label label v) eqn:E.
  - assert (truthy v = true) as ->.
    { destruct v; try discriminate E. simpl in E. apply str_eqb_eq in E. subst.
      simpl. now destruct label. }
    simpl. now rewrite E.
  - destruct (truthy v); simpl; [now rewrite E | reflexivity].
Qed.

(** X12.  When [calculate_sentiment_distribution] returns, it returns the
    three keys [positive], [negative], [neutral] in that order, each with the
    number of articles whose sentiment is that very string; any other
    sentiment, and an article without one, is counted nowhere.  It raises
    exactly when some article has a non-empty list or dictionary as its
    sentiment. *)
Theorem calculate_sentiment_distribution_counts (articles : list article) :
  (forall distribution,
      calculate_sentiment_distribution articles = Ok distribution ->
      distribution
      = [ (lit "positive", tallied (lit "positive") articles);
          (lit "negative", tallied (lit "negative") articles);
          (lit "neutral", tallied (lit "neutral") articles) ]) /\
  ((exists e, calculate_sentiment_distribution articles = Raise e) <->
   (exists a v, In a articles /\ sentiment a = Some v /\
                truthy v = true /\ unhashable v = true)).
Proof.
  unfold calculate_sentiment_distribution.
  set (sentiments := flat_map _ articles).
  assert (Hin : forall v, In v sentiments <->
                          exists a, In a articles /\ sentiment a = Some v /\ truthy v = true).
  { intros v. unfold sentiments. rewrite in_flat_map. split.
    - intros (a & Ha & Hv). exists a. split; [exact Ha|].
      destruct (sentiment a) as [w|]; [|destruct Hv].
      destruct (truthy w) eqn:Et; [|destruct Hv].
      destruct Hv as [<-|[]]. auto.
    - intros (a & Ha & Hs & Ht). exists a. split; [exact Ha|].
      rewrite Hs, Ht. now left. }
  assert (Hp : labelled (lit "positive") sentiments = tallied (lit "positive") articles)
    by (apply labelled_truthy; discriminate).
  assert (Hn : labelled (lit "negative") sentiments = tallied (lit "negative") articles)
    by (apply labelled_truthy; discriminate).
  assert (Hu : labelled (lit "neutral") sentiments = tallied (lit "neutral") articles)
    by (apply labelled_truthy; discriminate).
  change empty_distribution with (distribution_of 0 0 0).
  destruct (count_sentiments_counts sentiments 0 0 0) as [[Hx [e He]]|[Hf Hok]].
  - rewrite He. split; [discriminate|]. split; [|eauto]. intros _.
    apply Exists_exists in Hx as (v & Hv & Hun).
    apply Hin in Hv as (a & Ha & Hs & Ht). eauto 6.
  - rewrite Hok, Hp, Hn, Hu. split; [now intros distribution [= <-]|].
    split; [intros [e He]; discriminate He|].
    intros (a & v & Ha & Hs & Ht & Hun). exfalso.
    rewrite Forall_forall in Hf. specialize (Hf v). rewrite Hf in Hun; [discriminate|].
    apply Hin. eauto.
Qed.

Lemma labelled_defaulted (label : str) (articles : list article) :
  labelled label
    (map (fun a => match sentiment a with Some v => v | None => VStr (lit "neutral") end)
         articles)
  = tallied label articles
    + (if str_eqb (lit "neutral") label then len (filter no_sentiment articles) else 0).
Proof.
  unfold labelled, tallied.
  induction articles as [|a articles IH]; [now destruct (str_eqb _ label)|].
  cbn [map filter]. unfold has_sentiment, no_sentiment at 1.
  unfold has_sentiment in IH.
  destruct (sentiment a) as [v|].
  - destruct (is_label label v); cbn [Datatypes.length]; rewrite IH; reflexivity.
  - cbn [is_label]. destruct (str_eqb (lit "neutral") label);
      cbn [Datatypes.length]; rewrite IH; lia.
Qed.

(** X13.  The global distribution of [generate_summary] counts an article
    without a sentiment as [neutral], which the distribution of a category
    does not; and [generate_summary] raises on any list or dictionary as a
    sentiment, also on an empty one, which the distribution of a category
    skips. *)
Theorem generate_summary_counts_missing_sentiment_as_neutral (articles : list article) :
  (forall summary0,
      generate_summary articles = Ok (Some summary0) ->
      global_sentiment summary0
      = [ (lit "positive", tallied (lit "positive") articles);
          (lit "negative", tallied (lit "negative") articles);
          (lit "neutral",
           tallied (lit "neutral") articles + len (filter no_sentiment articles)) ]) /\
  (forall a v,
      In a articles -> sentiment a = Some v -> unhashable v = true ->
      exists e, generate_summary articles = Raise e).
Proof.
  unfold generate_summary.
  destruct articles as [|a0 rest] eqn:E; [split; [discriminate | intros a v []]|].
  rewrite <- E. clear E a0 rest.
  set (sentiments := map _ articles).
  change empty_distribution with (distribution_of 0 0 0).
  destruct (count_sentiments_counts sentiments 0 0 0) as [[Hx [e He]]|[Hf Hok]].
  - rewrite He. split; [discriminate | eauto].
  - rewrite Hok. split.
    + destruct (extend_topics articles []) as [topic_values|e]; [|discriminate].
      destruct (hash_all topic_values) as [keys|e]; [|discriminate].
      intros summary0 [= <-]. cbn [global_sentiment]. unfold sentiments.
      rewrite !labelled_defaulted.
      replace (str_eqb (lit "neutral") (lit "positive")) with false by reflexivity.
      replace (str_eqb (lit "neutral") (lit "negative")) with false by reflexivity.
      replace (str_eqb (lit "neutral") (lit "neutral")) with true by reflexivity.
      unfold distribution_of. cbn [Nat.add]. now rewrite !Nat.add_0_r.
    + intros a v Ha Hs Hun. exfalso.
      rewrite Forall_forall in Hf. specialize (Hf v). rewrite Hf in Hun; [discriminate|].
      unfold sentiments. apply in_map_iff. exists a. now rewrite Hs.
Qed.

Section Coverage.

Hypothesis pool_completes :
  forall (A : Type) (l : list A), Permutation (as_completed l) l.
Hypothesis set_members : forall (l : list str) (x : str), In x (set_iter str_eqb l) -> In x l.

Lemma in_fetch_single_category (max_per_category : Z) (seed u : str) :
  In u (fetch_single_category max_per_category seed) ->
  is_valid_article_url u = true /\ surfaced seed u.
Proof.
  unfold fetch_single_category, surfaced.
  destruct (http_get seed 15) as [page|e] eqn:Eg; [|intros []].
  destruct (scan_selectors seed page link_selectors []) as [found|e] eqn:Es; [|intros []].
  intros Hin. apply in_slice_list, set_members in Hin.
  destruct (scan_selectors_linked _ _ _ _ Es u Hin) as [[]|(selector & Hs & Hl)].
  split; [apply Hl|]. exists page, selector. auto.
Qed.

(** X7.  Every URL discovery returns was accepted by [is_valid_article_url]
    (it names the Guardian, matches a content pattern and no excluded
    pattern) and is what [urljoin] made of a non-empty [href] found by one
    of the link selectors on the page of one of the seeds. *)
Theorem discover_article_urls_only_valid_links (base_urls : list str)
    (max_per_category : Z) (u : str) :
  In u (discover_article_urls base_urls max_per_category) ->
  is_valid_article_url u = true /\
  contains (lit "theguardian.com") u = true /\
  (forall pattern, In pattern exclude_patterns -> contains pattern (lower u) = false) /\
  exists seed, In seed base_urls /\ surfaced seed u.
Proof.
  unfold discover_article_urls. intros Hin.
  apply set_members, in_concat in Hin. destruct Hin as (found & Hf & Hu).
  apply (Permutation_in _ (pool_completes _)), in_map_iff in Hf.
  destruct Hf as (seed & <- & Hseed).
  destruct (in_fetch_single_category _ _ _ Hu) as [Hv Hs].
  destruct (is_valid_article_url_true _ Hv) as (_ & Hg & Hx & _).
  repeat split; try assumption. eauto.
Qed.

(** ** The report of a crawl *)

Lemma set_by_absent {V} (d : dict V) (key : str) (v : V) :
  ~ In key (map fst d) -> set_by str_eqb d key v = d ++ [(key, v)].
Proof.
  induction d as [|[k w] d IH]; simpl; [reflexivity|]. intros Hn.
  destruct (str_eqb key k) eqn:E.
  - apply str_eqb_eq in E. exfalso. apply Hn. now left.
  - rewrite IH; [reflexivity|]. intros H. apply Hn. now right.
Qed.

Lemma process_category_some (category0 : str) (urls : list str) (data : category_data) :
  process_category category0 urls = Ok (Some data) ->
  category_name data = category0 /\
  category_total_articles data = len (articles_of data) /\
  articles_of data
  = process_articles_parallel (extract_content_direct (discover_article_urls urls 5)) /\
  extract_content_direct (discover_article_urls urls 5) <> [].
Proof.
  unfold process_category.
  destruct (discover_article_urls urls 5) as [|u article_urls]; [discriminate|].
  destruct (extract_content_direct (u :: article_urls)) as [|a articles]; [discriminate|].
  destruct (category_statistics_of (process_articles_parallel (a :: articles)));
    [|discriminate].
  intros [= <-]. simpl. repeat split. discriminate.
Qed.

Lemma crawl_categories_stores (patterns : dict (list str))
    (stored stored' : dict category_data) (total total' : list article) :
  crawl_categories patterns stored total = (stored', total') ->
  NoDup (map fst patterns) ->
  (forall k, In k (map fst patterns) -> ~ In k (map fst stored)) ->
  exists kept,
    stored' = stored ++ kept /\
    total' = total ++ flat_map articles_of (map snd kept) /\
    (forall k data,
        In (k, data) kept ->
        exists urls, In (k, urls) patterns /\ process_category k urls = Ok (Some data)).
Proof.
  revert stored total.
  induction patterns as [|[category0 urls] rest IH]; intros stored total; cbn [crawl_categories].
  - intros [= <- <-] _ _. exists []. rewrite !app_nil_r. repeat split. intros k data [].
  - intros H Hnd Hfresh. cbn [map fst] in Hnd. apply NoDup_cons_iff in Hnd as [Hc Hnd].
    assert (Hskip : crawl_categories rest stored total = (stored', total') ->
                    exists kept,
                      stored' = stored ++ kept /\
                      total' = total ++ flat_map articles_of (map snd kept) /\
                      (forall k data,
                          In (k, data) kept ->
                          exists urls0, In (k, urls0) ((category0, urls) :: rest) /\
                                        process_category k urls0 = Ok (Some data))).
    { intros H'. destruct (IH _ _ H' Hnd) as (kept & Hs & Ht & Hk).
      - intros k Hin. apply Hfresh. now right.
      - exists kept. repeat split; try assumption.
        intros k data Hin. destruct (Hk k data Hin) as (urls0 & Hu & Hp).
        exists urls0. split; [now right | exact Hp]. }
    destruct (process_category category0 urls) as [[data|]|e] eqn:Ep; try exact (Hskip H).
    rewrite set_by_absent in H by (apply Hfresh; now left).
    destruct (IH _ _ H Hnd) as (kept & Hs & Ht & Hk).
    + intros k Hin Hst. rewrite map_app in Hst. apply in_app_or in Hst as [Hst|[<-|[]]].
      * apply (Hfresh k); [now right | exact Hst].
      * exact (Hc Hin).
    + exists ((category0, data) :: kept). rewrite <- !app_assoc in *. repeat split.
      * exact Hs.
      * exact Ht.
      * intros k d [[= <- <-]|Hin].
        -- exists urls. split; [now left | exact Ep].
        -- destruct (Hk k d Hin) as (urls0 & Hu & Hp).
           exists urls0. split; [now right | exact Hp].
Qed.

Lemma url_patterns_distinct : NoDup (map fst url_patterns).
Proof.
  cbn [map fst url_patterns].
  repeat (constructor;
          [intros H; cbn [In] in H;
           repeat (destruct H as [H|H]; [vm_compute in H; discriminate H|]); exact H|]).
  constructor.
Qed.

(** X14.  In the report of a crawl the flat list of articles is the
    concatenation, in order, of the article lists of the stored categories.
    A category is stored under its own name, with at least one article and
    the number of its articles, and only if its processing did not raise.
    Every reported article is the enrichment of an article that extraction
    handed on, so its content has at least 100 code points: a failed
    extraction is never reported.  The success flag is set exactly when some
    article is reported. *)
Theorem crawl_all_content_reports_extracted_articles (data : crawl_data) :
  crawl_all_content = Ok data ->
  all_articles data = flat_map articles_of (map snd (categories data)) /\
  (forall k stored,
      In (k, stored) (categories data) ->
      category_name stored = k /\
      category_total_articles stored = len (articles_of stored) /\
      articles_of stored <> [] /\
      exists urls, In (k, urls) url_patterns /\ process_category k urls = Ok (Some stored)) /\
  (forall a,
      In a (all_articles data) ->
      100 <= len (content a) /\
      exists url0 extracted,
        extract_single_article url0 = Some extracted /\
        a = analyze_single_article extracted) /\
  (success data = true <-> all_articles data <> []).
Proof.
  unfold crawl_all_content.
  destruct (crawl_categories url_patterns [] []) as [stored total] eqn:Ec.
  destruct (generate_summary total) as [summary0|e]; [|discriminate].
  intros [= <-]. cbn [all_articles categories success].
  destruct (crawl_categories_stores _ _ _ Ec url_patterns_distinct) as (kept & Hs & Ht & Hk).
  { intros k _ []. }
  simpl in Hs, Ht. subst stored total.
  assert (Hcat : forall k data,
             In (k, data) kept ->
             category_name data = k /\
             category_total_articles data = len (articles_of data) /\
             articles_of data <> [] /\
             exists urls, In (k, urls) url_patterns /\ process_category k urls = Ok (Some data)).
  { intros k data Hin. destruct (Hk k data Hin) as (urls & Hu & Hp).
    destruct (process_category_some _ _ Hp) as (Hn & Hl & Ha & Hne).
    repeat split; try assumption; [|eauto].
    rewrite Ha. unfold process_articles_parallel. intros Hnil.
    pose proof (pool_completes
                  (map analyze_single_article
                       (extract_content_direct (discover_article_urls urls 5)))) as Hperm.
    rewrite Hnil in Hperm. apply Permutation_nil in Hperm.
    apply map_eq_nil in Hperm. contradiction. }
  split; [reflexivity|]. split; [exact Hcat|]. split.
  - intros a Hin. apply in_flat_map in Hin as (data & Hd & Ha).
    apply in_map_iff in Hd as ([k d] & Hsnd & Hd). simpl in Hsnd. subst d.
    destruct (Hk k data Hd) as (urls & _ & Hp).
    destruct (process_category_some _ _ Hp) as (_ & _ & Harts & _).
    rewrite Harts in Ha. unfold process_articles_parallel in Ha.
    apply (Permutation_in _ (pool_completes _)), in_map_iff in Ha.
    destruct Ha as (extracted & <- & He).
    apply (in_extract_content_direct pool_completes) in He as (url0 & _ & He).
    destruct (extract_single_article_some _ He) as (page & _ & Hlen & _ & Hcontent).
    destruct (analyze_single_article_keeps extracted) as (Hkeep & _).
    split; [|eauto].
    rewrite Hkeep, Hcontent, length_firstn. lia.
  - rewrite Nat.ltb_lt. destruct (flat_map articles_of (map snd kept)); simpl.
    + split; [lia | congruence].
    + split; [discriminate | lia].
Qed.

Lemma merge_analysis_records (a : article) (analysis : value) :
  ai_analysis (fst (merge_analysis a analysis)) = Some analysis.
Proof.
  unfold merge_analysis, analysis_get.
  destruct analysis as [| b | n | s | items | fields]; simpl;
    destruct (truthy (title a)); simpl;
    try destruct (truthy (get fields (lit "headline") VNone)); reflexivity.
Qed.

(** X15.  Enrichment drops nothing and adds nothing: the pool returns the
    enrichment of every article it was given, once each, so as many articles
    come back as went in, with the same URLs; and every one of them carries
    an analysis, whatever the model answered. *)
Theorem process_articles_parallel_returns_every_article (articles : list article) :
  Permutation (process_articles_parallel articles) (map analyze_single_article articles) /\
  len (process_articles_parallel articles) = len articles /\
  Permutation (map url (process_articles_parallel articles)) (map url articles) /\
  (forall a, In a (process_articles_parallel articles) -> exists v, ai_analysis a = Some v).
Proof.
  unfold process_articles_parallel.
  pose proof (pool_completes (map analyze_single_article articles)) as Hperm.
  split; [exact Hperm|]. split; [|split].
  - rewrite (Permutation_length Hperm). apply length_map.
  - rewrite (Permutation_map url Hperm), map_map.
    erewrite map_ext; [reflexivity|]. intros a. apply analyze_single_article_keeps.
  - intros a Hin. apply (Permutation_in _ Hperm), in_map_iff in Hin.
    destruct Hin as (a0 & <- & _). unfold analyze_single_article.
    destruct (analyze_with_ollama_fast_ok (content a0) (category a0)) as (v & ->).
    exists v. apply merge_analysis_records.
Qed.

Hypothesis set_distinct : forall l : list str, NoDup (set_iter str_eqb l).

(** X8.  With a cap that is not negative, a seed contributes at most
    [max_per_category] URLs, so discovery returns at most [max_per_category]
    URLs per seed. *)
Theorem discover_article_urls_capped (base_urls : list str) (max_per_category : Z) :
  (0 <= max_per_category)%Z ->
  (forall seed, len (fetch_single_category max_per_category seed) <= Z.to_nat max_per_category) /\
  len (discover_article_urls base_urls max_per_category)
  <= len base_urls * Z.to_nat max_per_category.
Proof.
  intros Hmax.
  assert (Hseed : forall seed,
             len (fetch_single_category max_per_category seed) <= Z.to_nat max_per_category).
  { intros seed. unfold fetch_single_category.
    destruct (http_get seed 15) as [page|e]; [|simpl; lia].
    destruct (scan_selectors seed page link_selectors []) as [found|e]; [|simpl; lia].
    now apply length_slice_list. }
  split; [exact Hseed|].
  unfold discover_article_urls.
  etransitivity.
  { apply NoDup_incl_length; [apply set_distinct | intros x; apply set_members]. }
  etransitivity.
  { apply length_concat_bound with (n := Z.to_nat max_per_category).
    eapply Permutation_Forall; [symmetry; apply pool_completes|].
    apply Forall_forall. intros l Hl. apply in_map_iff in Hl as (seed & <- & _).
    apply Hseed. }
  rewrite (Permutation_length (pool_completes _)), length_map. lia.
Qed.

End Coverage.

End Pipeline.

(** ** A JSON reader

    [json.loads] for the texts used in the examples below: objects, arrays,
    strings with the single-character escapes and [\uXXXX] outside the
    surrogate range, integers, [true], [false] and [null].  It raises on
    everything [json.loads] raises on; it also raises on a number with a
    fraction or an exponent, for which [value] has no counterpart. *)

Definition json_space (c : char) : bool :=
  ((c =? 32) || (c =? 9) || (c =? 10) || (c =? 13))%N.

Fixpoint skip_space (s : str) : str :=
  match s with
  | c :: s' => if json_space c then skip_space s' else s
  | [] => []
  end.

Definition is_digit (c : char) : bool := ((48 <=? c) && (c <=? 57))%N.

Definition hex_digit (c : char) : option N :=
  if is_digit c then Some (c - 48)%N
  else if ((97 <=? c) && (c <=? 102))%N then Some (c - 87)%N
  else if ((65 <=? c) && (c <=? 70))%N then Some (c - 55)%N
  else None.

(** The character a backslash and [c] stand for. *)
Definition unescape (c : char) : option char :=
  (if c =? 34 then Some 34 else if c =? 92 then Some 92 else if c =? 47 then Some 47
   else if c =? 98 then Some 8 else if c =? 102 then Some 12 else if c =? 110 then Some 10
   else if c =? 114 then Some 13 else if c =? 116 then Some 9 else None)%N.

(** A string after its opening quote: its content and what follows the
    closing quote.  [acc] is the content read so far, in reverse. *)
Fixpoint read_string (s : str) (acc : str) : option (str * str) :=
  match s with
  | [] => None
  | c :: s' =>
      if (c =? 34)%N then Some (rev acc, s')
      else if (c =? 92)%N then
        match s' with
        | [] => None
        | e :: s'' =>
            if (e =? 117)%N then
              match s'' with
              | h1 :: h2 :: h3 :: h4 :: s5 =>
                  match hex_digit h1, hex_digit h2, hex_digit h3, hex_digit h4 with
                  | Some a, Some b, Some c', Some d =>
                      let code := (a * 4096 + b * 256 + c' * 16 + d)%N in
                      if ((55296 <=? code) && (code <=? 57343))%N then None
                      else read_string s5 (code :: acc)
                  | _, _, _, _ => None
                  end
              | _ => None
              end
            else
              match unescape e with
              | Some ch => read_string s'' (ch :: acc)
              | None => None
              end
        end
      else if (c <? 32)%N then None
      else read_string s' (c :: acc)
  end.

(** A run of digits: its value and what follows. *)
Fixpoint read_digits (s : str) (acc : N) : N * str :=
  match s with
  | c :: s' => if is_digit c then read_digits s' (acc * 10 + (c - 48))%N else (acc, s)
  | [] => (acc, [])
  end.

(** An integer after its sign: [0], or a digit from 1 to 9 and more digits;
    no fraction and no exponent may follow. *)
Definition read_natural (s : str) : option (N * str) :=
  match s with
  | c :: s' =>
      if is_digit c then
        let '(n, rest) := if (c =? 48)%N then (0%N, s') else read_digits s 0%N in
        match rest with
        | d :: _ => if ((d =? 46) || (d =? 101) || (d =? 69))%N then None else Some (n, rest)
        | [] => Some (n, rest)
        end
      else None
  | [] => None
  end.

Definition read_literal (s : str) : option (value * str) :=
  if startswith (lit "true") s then Some (VBool true, skipn 4 s)
  else if startswith (lit "false") s then Some (VBool false, skipn 5 s)
  else if startswith (lit "null") s then Some (VNone, skipn 4 s)
  else
    match s with
    | c :: s' =>
        if (c =? 45)%N then
          option_map (fun '(n, rest) => (VInt (- Z.of_N n), rest)) (read_natural s')
        else option_map (fun '(n, rest) => (VInt (Z.of_N n), rest)) (read_natural s)
    | [] => None
    end.

(** A value at the head of [s] (no leading white space), the members of an
    object from a key's opening quote on, and the elements of an array from
    an element on.  A repeated key keeps its first place and takes the last
    value, as in a Python [dict]. *)
Fixpoint read_value (fuel : nat) (s : str) : option (value * str) :=
  match fuel with
  | 0 => None
  | S fuel' =>
      match s with
      | [] => None
      | c :: r =>
          if (c =? 123)%N then
            match skip_space r with
            | c' :: r' =>
                if (c' =? 125)%N then Some (VDict [], r')
                else read_members fuel' (c' :: r') []
            | [] => None
            end
          else if (c =? 91)%N then
            match skip_space r with
            | c' :: r' =>
                if (c' =? 93)%N then Some (VList [], r')
                else read_elements fuel' (c' :: r') []
            | [] => None
            end
          else if (c =? 34)%N then
            option_map (fun '(text, rest) => (VStr text, rest)) (read_string r [])
          else read_literal s
      end
  end
with read_members (fuel : nat) (s : str) (acc : dict value) : option (value * str) :=
  match fuel with
  | 0 => None
  | S fuel' =>
      match s with
      | [] => None
      | q :: r =>
          if (q =? 34)%N then
            match read_string r [] with
            | None => None
            | Some (key, r1) =>
                match skip_space r1 with
                | [] => None
                | colon :: r2 =>
                    if (colon =? 58)%N then
                      match read_value fuel' (skip_space r2) with
                      | None => None
                      | Some (v, r3) =>
                          let acc' := set_by str_eqb acc key v in
                          match skip_space r3 with
                          | [] => None
                          | c :: r4 =>
                              if (c =? 44)%N then read_members fuel' (skip_space r4) acc'
                              else if (c =? 125)%N then Some (VDict acc', r4)
                              else None
                          end
                      end
                    else None
                end
            end
          else None
      end
  end
with read_elements (fuel : nat) (s : str) (acc : list value) : option (value * str) :=
  match fuel with
  | 0 => None
  | S fuel' =>
      match read_value fuel' s with
      | None => None
      | Some (v, r1) =>
          match skip_space r1 with
          | [] => None
          | c :: r2 =>
              if (c =? 44)%N then read_elements fuel' (skip_space r2) (acc ++ [v])
              else if (c =? 93)%N then Some (VList (acc ++ [v]), r2)
              else None
          end
      end
  end.

Definition read_json (s : str) : result value :=
  match read_value (S (len s)) (skip_space s) with
  | Some (v, rest) =>
      if is_empty (skip_space rest) then Ok v else Raise (lit "JSONDecodeError: Extra data")
  | None => Raise (lit "JSONDecodeError")
  end.

(** ** Library stand-ins for concrete runs *)

(** [str.lower] on ASCII text. *)
Definition ascii_lower (s : str) : str :=
  map (fun c => if ((65 <=? c) && (c <=? 90))%N then (c + 32)%N else c) s.

(** [urljoin] on an absolute [https] or [http] reference, which it returns
    as it is. *)
Definition urljoin_absolute (base reference : str) : result str :=
  if startswith (lit "https://") reference || startswith (lit "http://") reference
  then Ok reference
  else Raise (lit "relative reference").

(** A [set] that iterates in order of first insertion. *)
Fixpoint first_occurrences {K} (eqb : K -> K -> bool) (l : list K) : list K :=
  match l with
  | [] => []
  | x :: l' => x :: filter (fun y => negb (eqb x y)) (first_occurrences eqb l')
  end.

(** A pool whose futures complete in the order of submission. *)
Definition in_order {A} (l : list A) : list A := l.

Lemma in_order_perm (A : Type) (l : list A) : Permutation (in_order l) l.
Proof. reflexivity. Qed.

Lemma first_occurrences_In (l : list str) (x : str) :
  In x (first_occurrences str_eqb l) <-> In x l.
Proof.
  induction l as [|y l IH]; simpl; [tauto|].
  rewrite filter_In, IH. split.
  - intros [H|[H _]]; auto.
  - intros [H|H]; [now left|].
    destruct (str_eqb y x) eqn:E.
    + apply str_eqb_eq in E. now left.
    + right. now split.
Qed.

Lemma first_occurrences_NoDup (l : list str) : NoDup (first_occurrences str_eqb l).
Proof.
  induction l as [|y l IH]; simpl; constructor.
  - rewrite filter_In. intros [_ H]. now rewrite str_eqb_refl in H.
  - now apply NoDup_filter.
Qed.

(** ** Two runs of aggregation *)

(** What Python guarantees of [list(set(l))]: its members are the first
    occurrences of [l] (an element equal to one that is already in the set is
    not added), in an order that is the interpreter's business.  For strings
    the order changes with the hash seed of the process. *)
Definition iterates_set (set_iter : forall K : Type, (K -> K -> bool) -> list K -> list K)
  : Prop :=
  (forall l : list str, Permutation (set_iter _ str_eqb l) (first_occurrences str_eqb l)) /\
  (forall l : list hkey, Permutation (set_iter _ hkey_eqb l) (first_occurrences hkey_eqb l)).

(** One run of aggregation over the enriched articles, in a process whose
    sets iterate as [set_iter] says: the sentiment distribution, the top
    topics and the global summary, each a value or the exception that
    stopped it. *)
Definition aggregate (set_iter : forall K : Type, (K -> K -> bool) -> list K -> list K)
    (articles : list article)
  : result (dict nat) * result (list (hkey * nat)) * result (option summary_stats) :=
  (calculate_sentiment_distribution articles,
   extract_top_topics articles,
   generate_summary set_iter articles).

(** A set iterated last insertion first. *)
Definition last_inserted_first {K} (eqb : K -> K -> bool) (l : list K) : list K :=
  rev (first_occurrences eqb l).

Lemma iterates_set_first_occurrences : iterates_set (@first_occurrences).
Proof. split; intros l; reflexivity. Qed.

Lemma iterates_set_last_inserted_first : iterates_set (@last_inserted_first).
Proof. split; intros l; symmetry; apply Permutation_rev. Qed.

Lemma iterates_set_length (set_iter1 set_iter2 : forall K : Type, (K -> K -> bool) -> list K -> list K) :
  iterates_set set_iter1 -> iterates_set set_iter2 ->
  (forall l : list str, len (set_iter1 _ str_eqb l) = len (set_iter2 _ str_eqb l)) /\
  (forall l : list hkey, Permutation (set_iter1 _ hkey_eqb l) (set_iter2 _ hkey_eqb l)).
Proof.
  intros [Hs1 Hk1] [Hs2 Hk2]. split; intros l.
  - now rewrite (Permutation_length (Hs1 l)), (Permutation_length (Hs2 l)).
  - now rewrite (Hk1 l), (Hk2 l).
Qed.

(** The summary of a run, spelled out over the keys of the topics. *)
Lemma generate_summary_unfolded
    (set_iter : forall K : Type, (K -> K -> bool) -> list K -> list K)
    (articles : list article) :
  generate_summary set_iter articles
  = match articles with
    | [] => Ok None
    | _ :: _ =>
        match count_sentiments
                (map (fun a => match sentiment a with
                               | Some v => v
                               | None => VStr (lit "neutral")
                               end) articles)
                empty_distribution with
        | Raise e => Raise e
        | Ok sentiment_dist =>
            match topic_keys articles with
            | Raise e => Raise e
            | Ok keys =>
                Ok (Some {| total_articles := len articles;
                            total_categories :=
                              len (set_iter _ str_eqb (map category articles));
                            avg_word_count := average_word_count articles;
                            global_sentiment := sentiment_dist;
                            unique_topics := len (set_iter _ hkey_eqb keys);
                            all_topics := firstn 20 (set_iter _ hkey_eqb keys) |})
            end
        end
    end.
Proof.
  unfold generate_summary, topic_keys. destruct articles as [|a0 rest]; [reflexivity|].
  destruct (count_sentiments _ empty_distribution); [|reflexivity].
  destruct (extend_topics (a0 :: rest) []); reflexivity.
Qed.

(** C9, as the code has it.  Two runs of aggregation over the same articles,
    each in a process with its own iteration order of sets, give the same
    sentiment distribution and the same top topics, and summaries that raise
    the same exception or agree on [total_articles], [total_categories],
    [avg_word_count], [global_sentiment] and [unique_topics].  The field
    [all_topics] is the first 20 of the run's own iteration of the topic set:
    the two runs agree on it, and so on the whole summary, when they iterate
    that set in the same order, and with at most 20 unique topics they list
    the same topics.  On articles typed as the data model has them every
    statistic of both runs is a value. *)
Theorem aggregation_idempotent
    (set_iter1 set_iter2 : forall K : Type, (K -> K -> bool) -> list K -> list K)
    (articles : list article) :
  iterates_set set_iter1 ->
  iterates_set set_iter2 ->
  fst (aggregate set_iter1 articles) = fst (aggregate set_iter2 articles) /\
  match snd (aggregate set_iter1 articles), snd (aggregate set_iter2 articles) with
  | Ok (Some first), Ok (Some second) =>
      total_articles first = total_articles second /\
      total_categories first = total_categories second /\
      avg_word_count first = avg_word_count second /\
      global_sentiment first = global_sentiment second /\
      unique_topics first = unique_topics second /\
      exists keys,
        topic_keys articles = Ok keys /\
        all_topics first = firstn 20 (set_iter1 _ hkey_eqb keys) /\
        all_topics second = firstn 20 (set_iter2 _ hkey_eqb keys) /\
        Permutation (set_iter1 _ hkey_eqb keys) (set_iter2 _ hkey_eqb keys) /\
        (set_iter1 _ hkey_eqb keys = set_iter2 _ hkey_eqb keys -> first = second) /\
        (unique_topics first <= 20 -> Permutation (all_topics first) (all_topics second))
  | Ok None, Ok None => articles = []
  | Raise e1, Raise e2 => e1 = e2
  | _, _ => False
  end /\
  ((forall a, In a articles -> well_typed a) ->
   exists distribution top summary1 summary2,
     aggregate set_iter1 articles = (Ok distribution, Ok top, Ok summary1) /\
     aggregate set_iter2 articles = (Ok distribution, Ok top, Ok summary2)).
Proof.
  intros H1 H2. destruct (iterates_set_length H1 H2) as [Hcats Hkeys].
  unfold aggregate. cbn [fst snd]. split; [reflexivity|]. split.
  - rewrite !generate_summary_unfolded.
    destruct articles as [|a0 rest] eqn:E; [reflexivity|]. rewrite <- E. clear E a0 rest.
    destruct (count_sentiments _ empty_distribution) as [sentiment_dist|e]; [|reflexivity].
    destruct (topic_keys articles) as [keys|e]; [|reflexivity].
    cbn [total_articles total_categories avg_word_count global_sentiment unique_topics
         all_topics].
    split; [reflexivity|]. split; [apply Hcats|]. split; [reflexivity|].
    split; [reflexivity|]. split; [apply Permutation_length, Hkeys|].
    exists keys. split; [reflexivity|]. split; [reflexivity|]. split; [reflexivity|].
    split; [apply Hkeys|]. split.
    + intros Hsame. rewrite Hsame, (Hcats (map category articles)). reflexivity.
    + intros Hfew.
      rewrite !firstn_all2; [apply Hkeys | | exact Hfew].
      rewrite <- (Permutation_length (Hkeys keys)). exact Hfew.
  - intros Hty.
    destruct (calculate_sentiment_distribution_total articles Hty) as (distribution & ->).
    destruct (extract_top_topics_total articles) as (top & ->).
    { intros a Ha. apply (Hty a Ha). }
    destruct (generate_summary_total set_iter1 articles Hty) as (summary1 & ->).
    destruct (generate_summary_total set_iter2 articles Hty) as (summary2 & ->).
    eauto 6.
Qed.

(** ** A small site and a model reply, for concrete runs *)

Definition paragraph (text : string) : element := {| href := None; get_text := lit text |}.
Definition link (target : str) : element := {| href := Some target; get_text := [] |}.

Definition seed_world : str := lit "https://www.theguardian.com/world".
Definition seed_europe : str := lit "https://www.theguardian.com/world/europe-news".
Definition story_url : str := lit "https://www.theguardian.com/world/2025/jan/01/storm".
Definition stub_url : str := lit "https://www.theguardian.com/world/2025/jan/02/stub".

(** Both seeds link to the story; the story has two paragraphs (123 code
    points once joined), the stub one short paragraph. *)
Definition demo_site (url0 : str) (timeout : N) : result soup :=
  if str_eqb url0 seed_world then
    Ok (fun selector =>
          if str_eqb selector (lit ".fc-item__link") then [link story_url; link stub_url]
          else [])
  else if str_eqb url0 seed_europe then
    Ok (fun selector =>
          if str_eqb selector (lit ".card__link") then [link story_url] else [])
  else if str_eqb url0 story_url then
    Ok (fun selector =>
          if str_eqb selector (lit "h1") then [paragraph "Storm hits the coast"]
          else if str_eqb selector (lit ".article-body p") then
            [ paragraph "The storm reached the northern coast early on Monday morning.";
              paragraph "Thousands of homes were left without power across the region." ]
          else [])
  else if str_eqb url0 stub_url then
    Ok (fun selector =>
          if str_eqb selector (lit ".prose p") then
            [paragraph "A short placeholder paragraph."]
          else [])
  else Raise (lit "404 Client Error").

Definition demo_now (url0 : str) : str := lit "2025-01-01T09:00:00".

(** A reply that is one JSON object whose sentiment and urgency are not
    among the values the prompt lists. *)
Definition mixed_reply : str :=
  lit "{" ++ quoted "headline" ++ lit ":" ++ quoted "Storm" ++ lit ","
  ++ quoted "summary" ++ lit ":" ++ quoted "A storm hit the coast." ++ lit ","
  ++ quoted "key_topics" ++ lit ":[" ++ quoted "weather" ++ lit "," ++ quoted "energy" ++ lit "],"
  ++ quoted "sentiment" ++ lit ":" ++ quoted "mixed" ++ lit ","
  ++ quoted "urgency" ++ lit ":" ++ quoted "critical" ++ lit "}".

Definition mixed_chat (prompt : str) : result str := Ok mixed_reply.

(** A reply that wraps the object in prose, and a model that is down. *)
Definition wrapped_chat (prompt : str) : result str :=
  Ok (lit "Sure, here it is: {" ++ quoted "sentiment" ++ lit ":" ++ quoted "positive"
      ++ lit "} Hope this helps.").

Definition failing_chat (prompt : str) : result str := Raise (lit "connection refused").

(** A reply without any object in it. *)
Definition plain_chat (prompt : str) : result str :=
  Ok (lit "I cannot analyse this article.").

(** The enriched articles of a crawl of the story and the stub. *)
Definition demo_enriched : list article :=
  process_articles_parallel mixed_chat read_json (@in_order)
    (extract_content_direct ascii_lower demo_site demo_now (@in_order) [story_url; stub_url]).

Definition sentiment_in_enumeration (a : article) : Prop :=
  sentiment a = Some (VStr (lit "positive")) \/
  sentiment a = Some (VStr (lit "negative")) \/
  sentiment a = Some (VStr (lit "neutral")).

Definition urgency_in_enumeration (a : article) : Prop :=
  urgency a = Some (VStr (lit "high")) \/
  urgency a = Some (VStr (lit "medium")) \/
  urgency a = Some (VStr (lit "low")).

(** C6 as the specification states it does not hold: the story is enriched
    with the sentiment [mixed] and the urgency [critical] of the model's
    reply. *)
Lemma enriched_fields_outside_enumerations :
  ~ (forall a, In a demo_enriched ->
               sentiment_in_enumeration a /\ urgency_in_enumeration a).
Proof.
  intros H.
  assert (Hin : exists a, In a demo_enriched /\
                          sentiment a = Some (VStr (lit "mixed")) /\
                          urgency a = Some (VStr (lit "critical"))).
  { eexists. split; [left; reflexivity|]. split; vm_compute; reflexivity. }
  destruct Hin as (a & Ha & Hs & Hu).
  destruct (H a Ha) as [[E|[E|E]] _]; rewrite Hs in E; vm_compute in E; discriminate.
Qed.

(** The ways the enrichment call ends: the whole reply parsed, an embedded
    object parsed, no object in the reply, the model down. *)
Lemma analyze_with_ollama_fast_never_raises_witness :
  analyze_with_ollama_fast mixed_chat read_json (lit "text") (lit "world")
  = Ok (VDict [ (lit "headline", VStr (lit "Storm"));
                (lit "summary", VStr (lit "A storm hit the coast."));
                (lit "key_topics", VList [VStr (lit "weather"); VStr (lit "energy")]);
                (lit "sentiment", VStr (lit "mixed"));
                (lit "urgency", VStr (lit "critical")) ]) /\
  analyze_with_ollama_fast wrapped_chat read_json (lit "text") (lit "world")
  = Ok (VDict [(lit "sentiment", VStr (lit "positive"))]) /\
  analyze_with_ollama_fast plain_chat read_json (lit "text") (lit "world")
  = Ok default_analysis /\
  analyze_with_ollama_fast failing_chat read_json (lit "text") (lit "world")
  = Ok default_analysis.
Proof.
  split; [|split; [|split]].
  - destruct (analyze_with_ollama_fast_never_raises mixed_chat read_json
                (lit "text") (lit "world")) as (v & -> & _ & Hreply & _).
    destruct (Hreply mixed_reply eq_refl) as (Hdirect & _ & _).
    f_equal. apply Hdirect; vm_compute; reflexivity.
  - destruct (analyze_with_ollama_fast_never_raises wrapped_chat read_json
                (lit "text") (lit "world")) as (v & -> & _ & Hreply & _).
    destruct (Hreply _ eq_refl) as (_ & Hembedded & _).
    f_equal. eapply Hembedded.
    + left. vm_compute. reflexivity.
    + vm_compute. reflexivity.
    + vm_compute. reflexivity.
  - destruct (analyze_with_ollama_fast_never_raises plain_chat read_json
                (lit "text") (lit "world")) as (v & -> & _ & Hreply & _).
    destruct (Hreply _ eq_refl) as (_ & _ & Hdefault).
    f_equal. apply Hdefault; left; vm_compute; reflexivity.
  - destruct (analyze_with_ollama_fast_never_raises failing_chat read_json
                (lit "text") (lit "world")) as (v & -> & Hdown & _).
    f_equal. apply (Hdown (lit "connection refused")). reflexivity.
Defined.

(** The stub is dropped; what is enriched has a content of at least 100
    code points. *)
Lemma short_content_never_enriched_witness :
  extract_single_article ascii_lower demo_site demo_now stub_url = None /\
  (forall enriched, In enriched demo_enriched -> 100 <= len (content enriched)).
Proof.
  pose proof (short_content_never_enriched ascii_lower urljoin_absolute demo_site demo_now
                mixed_chat read_json (@first_occurrences) (@in_order) in_order_perm)
    as (Hshort & _ & Henriched & _).
  split.
  - destruct (demo_site stub_url 20) as [page|e] eqn:E; [|discriminate E].
    apply (Hshort stub_url page E).
    vm_compute in E. injection E as <-. vm_compute. lia.
  - intros enriched Hin.
    destruct (Henriched [story_url; stub_url] enriched Hin) as (a & _ & _ & _ & Hlen).
    exact Hlen.
Defined.

(** Both seeds surface the story; discovery returns it once. *)
Lemma discover_article_urls_dedupes_witness :
  NoDup (discover_article_urls ascii_lower urljoin_absolute demo_site (@first_occurrences)
           (@in_order) [seed_world; seed_europe] 5) /\
  count_occ str_eq_dec
    (discover_article_urls ascii_lower urljoin_absolute demo_site (@first_occurrences)
       (@in_order) [seed_world; seed_europe] 5) story_url = 1.
Proof.
  pose proof (discover_article_urls_dedupes ascii_lower urljoin_absolute demo_site
                (@first_occurrences) (@in_order) in_order_perm
                first_occurrences_NoDup first_occurrences_In
                [seed_world; seed_europe] 5) as (Hnd & _ & Hone).
  split; [exact Hnd|].
  apply (Hone story_url seed_world seed_europe).
  - now left.
  - right. now left.
  - vm_compute. tauto.
  - vm_compute. tauto.
Defined.

(** Enriched articles with a tie: [ai] and [climate] both occur twice. *)
Definition with_topics (l : list string) : article :=
  {| url := story_url; title := VStr (lit "t"); content := []; extracted_at := [];
     word_count := 120; category := lit "world";
     ai_analysis := None; summary := Some (VStr []);
     topics := Some (VList (map (fun s => VStr (lit s)) l));
     sentiment := Some (VStr (lit "neutral")); urgency := Some (VStr (lit "medium")) |}.

Definition tie_articles : list article :=
  [ with_topics ["ai"; "climate"]%string; with_topics ["climate"; "ai"; "economy"]%string ].

Definition tie_top : list (hkey * nat) :=
  [ (HStr (lit "ai"), 2); (HStr (lit "climate"), 2); (HStr (lit "economy"), 1) ].

Lemma extract_top_topics_ranked_witness :
  extract_top_topics tie_articles = Ok tie_top /\
  exists keys ranking,
    topic_keys tie_articles = Ok keys /\
    tie_top = firstn 10 ranking /\
    len tie_top <= 10 /\
    StronglySorted (ranks_before hkey_eqb keys) tie_top /\
    StronglySorted (ranks_before hkey_eqb keys) ranking /\
    (forall k c, In (k, c) ranking -> c = occurrences hkey_eqb k keys /\ 0 < c) /\
    (forall x, In x keys -> exists k c, In (k, c) ranking /\ hkey_eqb x k = true).
Proof.
  split; [reflexivity|].
  apply (proj2 (extract_top_topics_ranked tie_articles)). reflexivity.
Defined.

(** Two runs over the articles with a tie, one iterating sets first
    insertion first and one last insertion first: the same distribution and
    top topics, summaries that agree on every count and list the same three
    topics. *)
Lemma aggregation_idempotent_witness :
  fst (aggregate (@first_occurrences) tie_articles)
  = fst (aggregate (@last_inserted_first) tie_articles) /\
  exists first second,
    generate_summary (@first_occurrences) tie_articles = Ok (Some first) /\
    generate_summary (@last_inserted_first) tie_articles = Ok (Some second) /\
    global_sentiment first = global_sentiment second /\
    unique_topics first = 3 /\
    unique_topics second = 3 /\
    Permutation (all_topics first) (all_topics second).
Proof.
  pose proof (aggregation_idempotent tie_articles
                iterates_set_first_occurrences iterates_set_last_inserted_first)
    as (Hsame & Hsummary & _).
  split; [exact Hsame|].
  unfold aggregate in Hsummary. cbn [snd] in Hsummary.
  destruct (generate_summary (@first_occurrences) tie_articles) as [[first|]|e1] eqn:E1;
    try (vm_compute in E1; discriminate E1).
  destruct (generate_summary (@last_inserted_first) tie_articles) as [[second|]|e2] eqn:E2;
    try (vm_compute in E2; discriminate E2).
  destruct Hsummary as (_ & _ & _ & Hglobal & Hunique & keys & _ & _ & _ & _ & _ & Hperm).
  assert (Hthree : unique_topics first = 3).
  { vm_compute in E1. injection E1 as <-. reflexivity. }
  exists first, second. split; [reflexivity|]. split; [reflexivity|].
  split; [exact Hglobal|]. split; [exact Hthree|]. split; [now rewrite <- Hunique|].
  apply Hperm. rewrite Hthree. lia.
Defined.

(** C9 as the specification states it does not hold: the statistics of two
    runs over the same articles need not be identical.  With two topics the
    summary of a process whose set iterates [ai] first lists [ai; climate],
    that of a process whose set iterates [climate] first lists
    [climate; ai]. *)
Lemma aggregation_depends_on_set_order :
  ~ forall (set_iter1 set_iter2 : forall K : Type, (K -> K -> bool) -> list K -> list K)
           (articles : list article),
      iterates_set set_iter1 ->
      iterates_set set_iter2 ->
      aggregate set_iter1 articles = aggregate set_iter2 articles.
Proof.
  intros H.
  specialize (H (@first_occurrences) (@last_inserted_first)
                [with_topics ["ai"; "climate"]%string]
                iterates_set_first_occurrences iterates_set_last_inserted_first).
  vm_compute in H. discriminate H.
Qed.

(** The story that discovery returns for the two seeds is an accepted URL
    that names the Guardian. *)
Lemma discover_article_urls_only_valid_links_witness :
  is_valid_article_url ascii_lower story_url = true /\
  contains (lit "theguardian.com") story_url = true.
Proof.
  destruct (discover_article_urls_only_valid_links ascii_lower urljoin_absolute demo_site
              (@first_occurrences) (@in_order) in_order_perm
              (fun l x => proj1 (first_occurrences_In l x))
              [seed_world; seed_europe] 5 story_url) as (Hv & Hg & _).
  - vm_compute. tauto.
  - split; assumption.
Defined.

(** Two seeds and a cap of 5: at most 10 URLs. *)
Lemma discover_article_urls_capped_witness :
  len (discover_article_urls ascii_lower urljoin_absolute demo_site (@first_occurrences)
         (@in_order) [seed_world; seed_europe] 5)
  <= 2 * 5.
Proof.
  apply (proj2 (@discover_article_urls_capped ascii_lower urljoin_absolute demo_site
                  (@first_occurrences) (@in_order) in_order_perm
                  (fun l x => proj1 (first_occurrences_In l x)) first_occurrences_NoDup
                  [seed_world; seed_europe] 5%Z ltac:(lia))).
Defined.

(** The story is extracted with the title of its page, and the headline of
    the model's reply does not replace it. *)
Lemma extracted_title_never_replaced_witness :
  exists a,
    extract_single_article ascii_lower demo_site demo_now story_url = Some a /\
    title a = VStr (lit "Storm hits the coast") /\
    title (analyze_single_article mixed_chat read_json a) = title a.
Proof.
  assert (E : exists a,
             extract_single_article ascii_lower demo_site demo_now story_url = Some a /\
             title a = VStr (lit "Storm hits the coast")).
  { vm_compute. eexists. split; reflexivity. }
  destruct E as (a & E & Ht). exists a. split; [exact E|]. split; [exact Ht|].
  apply (@extracted_title_never_replaced ascii_lower demo_site demo_now mixed_chat read_json
           story_url a E).
Defined.

(** A crawl of the demo site: only the world seeds answer. *)
Definition demo_crawl : result crawl_data :=
  crawl_all_content ascii_lower urljoin_absolute demo_site demo_now mixed_chat read_json
    (@first_occurrences) (@in_order).

(** The crawl of the demo site reports the story and not the stub. *)
Lemma crawl_all_content_reports_extracted_articles_witness :
  exists data,
    demo_crawl = Ok data /\
    map url (all_articles data) = [story_url] /\
    all_articles data = flat_map articles_of (map snd (categories data)) /\
    (forall a, In a (all_articles data) -> 100 <= len (content a)) /\
    success data = true.
Proof.
  assert (E : exists data, demo_crawl = Ok data /\ map url (all_articles data) = [story_url]).
  { vm_compute. eexists. split; reflexivity. }
  destruct E as (data & E & Hu). exists data. split; [exact E|]. split; [exact Hu|].
  destruct (@crawl_all_content_reports_extracted_articles ascii_lower urljoin_absolute
              demo_site demo_now mixed_chat read_json (@first_occurrences) (@in_order)
              in_order_perm data E) as (Hflat & _ & Hlen & Hok).
  split; [exact Hflat|]. split.
  - intros a Ha. apply (Hlen a Ha).
  - apply Hok. intros Hnil. rewrite Hnil in Hu. discriminate Hu.
Defined.

(** As many enriched articles as extracted ones. *)
Lemma process_articles_parallel_returns_every_article_witness :
  len demo_enriched
  = len (extract_content_direct ascii_lower demo_site demo_now (@in_order)
           [story_url; stub_url]).
Proof.
  apply (proj1 (proj2 (process_articles_parallel_returns_every_article mixed_chat read_json
                         (@in_order) in_order_perm
                         (extract_content_direct ascii_lower demo_site demo_now (@in_order)
                            [story_url; stub_url])))).
Defined.

(** The story is accepted and has a category. *)
Lemma accepted_url_is_categorised_witness :
  is_valid_article_url ascii_lower story_url = true /\
  categorize_url story_url <> lit "unknown".
Proof.
  assert (Hv : is_valid_article_url ascii_lower story_url = true) by (vm_compute; reflexivity).
  split; [exact Hv|].
  apply (proj1 (@accepted_url_is_categorised ascii_lower story_url Hv)).
Defined.

End Crawler.
